(** * gcsfuse: the multi read proxy (package lease) and the mutable content
      (package mutable)

    A shallow embedding of [lease/multi_read_proxy.go] and
    [mutable/content.go].  Go objects that are mutated through a pointer
    receiver are modelled by explicit state passing: a method takes the
    state of its receiver and returns the new state next to its results.
    The [context.Context] argument of the Go methods only carries
    cancellation and is left out. *)

From Stdlib Require Import ZArith String List Lia.
From stdpp Require Import base option list numbers strings.

Local Open Scope Z_scope.

(** ** The Go runtime as far as the two packages use it *)
Module Go.

Definition byte : Type := Byte.byte.

(** [len(s)] of a slice, as a Go [int]. *)
Definition len {A : Type} (s : list A) : Z := Z.of_nat (length s).

(** Two's complement wrap-around of a mathematical integer into [int64]. *)
Definition wrap64 (z : Z) : Z := (z + 2 ^ 63) `mod` 2 ^ 64 - 2 ^ 63.

Definition MaxInt64 : Z := 2 ^ 63 - 1.
Definition MinInt64 : Z := - 2 ^ 63.

(** The values of type [int64] (and of [int] on a 64-bit platform). *)
Definition int64 (z : Z) : Prop := MinInt64 ≤ z ≤ MaxInt64.

Definition add64 (a b : Z) : Z := wrap64 (a + b).
Definition sub64 (a b : Z) : Z := wrap64 (a - b).

(** Values of the interface type [error].  [Errorf] is the value built by
    [fmt.Errorf format args...]; it is kept symbolic.  Errors of any other
    dynamic type are [foreignError], identified by their message. *)
Inductive error : Type :=
| io_EOF
| RevokedError
| Errorf (format : string) (args : list fmtArg)
| foreignError (msg : string)
with fmtArg : Type :=
| argInt (z : Z)
| argError (e : error).

(** [x == nil] on a pointer or an interface value. *)
Definition is_nil {A : Type} (x : option A) : bool :=
  match x with None => true | Some _ => false end.

(** [err == io.EOF] *)
Definition is_EOF (err : option error) : bool :=
  match err with Some io_EOF => true | _ => false end.

(** [_, ok := err.( *RevokedError)] *)
Definition is_RevokedError (e : error) : bool :=
  match e with RevokedError => true | _ => false end.

(** The outcome of running a Go function: it returns, or it panics. *)
Inductive result (A : Type) : Type :=
| Ok (a : A)
| Panic (format : string) (args : list fmtArg).
Global Arguments Ok {A} a.
Global Arguments Panic {A} format args.

Definition nilDereference {A : Type} : result A :=
  Panic "runtime error: invalid memory address or nil pointer dereference" [].

Definition sliceOutOfRange {A : Type} : result A :=
  Panic "runtime error: slice bounds out of range" [].

Definition indexOutOfRange {A : Type} : result A :=
  Panic "runtime error: index out of range" [].

Global Instance result_ret : MRet result := λ A a, Ok a.
Global Instance result_bind : MBind result := λ A B f m,
  match m with
  | Ok a => f a
  | Panic fmt args => Panic fmt args
  end.

(** [s[i]] on a slice. *)
Definition index {A : Type} (s : list A) (i : Z) : result A :=
  if (i <? 0) || (len s <=? i) then indexOutOfRange
  else match s !! Z.to_nat i with
       | Some x => Ok x
       | None => indexOutOfRange
       end.

(** [s[n:]] on a slice. *)
Definition sliceFrom {A : Type} (s : list A) (n : Z) : result (list A) :=
  if (n <? 0) || (len s <? n) then sliceOutOfRange
  else Ok (drop (Z.to_nat n) s).

(** [sort.Search(n, f)] of the standard library: binary search for the
    smallest index in [[0, n)] at which [f] is true, [n] if there is none.
    The loop [for i < j] halves [j - i]; [fuel] bounds its iterations and
    [Z.to_nat n] is always enough (lemma [Search_loop_fuel]). *)
Fixpoint Search_loop (fuel : nat) (f : Z → result bool) (i j : Z)
  : result Z :=
  if i <? j then
    match fuel with
    | O => Ok i
    | S fuel' =>
        let h := Z.shiftr (i + j) 1 in
        b ← f h;
        if negb b then Search_loop fuel' f (h + 1) j
        else Search_loop fuel' f i h
    end
  else Ok i.

Definition sort_Search (n : Z) (f : Z → result bool) : result Z :=
  Search_loop (Z.to_nat n) f 0 n.

End Go.
Export Go.

(** ** Package lease: the interfaces the two files are written against

    The implementations of these interfaces (the file leaser, its leases and
    the single read proxy) live in other files of package [lease]; here they
    are parameters.  [W] is the state of a read/write lease, [L] of a read
    lease, [T] of a read proxy, [F] of a file leaser, [R] a refresher. *)
Module Lease.

(** [lease.ReadWriteLease] *)
Class ReadWriteLease (W L : Type) : Type := {
  rwl_Seek : W → Z → Z → result (W * Z * option error);
  rwl_ReadAt :
    W → list byte → Z → result (W * list byte * Z * option error);
  rwl_WriteAt : W → list byte → Z → result (W * Z * option error);
  rwl_Truncate : W → Z → result (W * option error);
  rwl_Size : W → result (W * Z * option error);
  rwl_Downgrade : W → result (W * option L)
}.

(** [lease.ReadLease] *)
Class ReadLease (L W : Type) : Type := {
  rl_Size : L → Z;
  rl_ReadAt :
    L → list byte → Z → result (L * list byte * Z * option error);
  rl_Upgrade : L → result (L * option W * option error);
  rl_Revoke : L → result L
}.

(** [lease.ReadProxy] *)
Class ReadProxy (T W : Type) : Type := {
  rp_Size : T → Z;
  rp_ReadAt :
    T → list byte → Z → result (T * list byte * Z * option error);
  rp_Upgrade : T → result (T * option W * option error);
  rp_Destroy : T → result T;
  rp_CheckInvariants : T → result unit
}.

(** [lease.FileLeaser], as far as the multi read proxy calls it. *)
Class FileLeaser (F W : Type) : Type := {
  fl_NewFile : F → result (F * option W * option error)
}.

(** [lease.NewReadProxy(fl, r, rl)], the constructor of the single read
    proxy, defined in another file of the package. *)
Class ReadProxyMaker (F R L T : Type) : Type := {
  NewReadProxy : F → R → option L → T
}.

(** [io.Copy(dst, src)] of the standard library on two read/write leases:
    the new states of [dst] and [src], the byte count and the error.
    [io_Copy_nil] is [io.Copy(nil, src)], the copy into a nil destination:
    it reads from [src] and calls [dst.Write] only if there is something to
    write, so that it returns [(0, nil)] on a source with nothing left and
    dereferences nil otherwise. *)
Class Copier (W : Type) : Type := {
  io_Copy : W → W → result (W * W * Z * option error);
  io_Copy_nil : W → result (W * Z * option error)
}.

(** What the callers in the two files rely on from an implementation.  A
    read proxy and a read lease stand for content of a fixed size, so [Size]
    answers the same before and after a call; and a call that reports success
    hands out a lease rather than nil. *)
Class ReadProxyLaws (T W : Type) `{!ReadProxy T W} : Prop := {
  rp_ReadAt_Size : ∀ t p off t' p' n err,
    rp_ReadAt t p off = Ok (t', p', n, err) → rp_Size t' = rp_Size t;
  rp_Upgrade_Size : ∀ t t' rwl err,
    rp_Upgrade t = Ok (t', rwl, err) → rp_Size t' = rp_Size t;
  rp_Upgrade_lease : ∀ t t' rwl,
    rp_Upgrade t = Ok (t', rwl, None) → is_Some rwl
}.

Class ReadLeaseLaws (L W : Type) `{!ReadLease L W} : Prop := {
  rl_ReadAt_Size : ∀ l p off l' p' n err,
    rl_ReadAt l p off = Ok (l', p', n, err) → rl_Size l' = rl_Size l;
  rl_Upgrade_lease : ∀ l l' rwl,
    rl_Upgrade l = Ok (l', rwl, None) → is_Some rwl
}.

Class FileLeaserLaws (F W : Type) `{!FileLeaser F W} : Prop := {
  fl_NewFile_lease : ∀ fl fl' rwl,
    fl_NewFile fl = Ok (fl', rwl, None) → is_Some rwl
}.

(** What [io.ReaderAt] asks of [ReadAt] on a source that holds the bytes
    [data], at an offset within them: the buffer [p] is filled from the
    offset on as far as the bytes go; the count of bytes; and [io.EOF] when
    the bytes ran out before the buffer was full. *)
Definition readerAt (data p : list byte) (off' : Z)
  : list byte * Z * option error :=
  let chunk := take (length p) (drop (Z.to_nat off') data) in
  (chunk ++ drop (length chunk) p, len chunk,
   if len chunk <? len p then Some io_EOF else None).

(** The bytes a read proxy stands for, and the proxies that are in a state
    to serve them. *)
Class HasBytes (T : Type) : Type := {
  bytesOf : T → list byte;
  proper : T → Prop
}.

(** A wrapped proxy that "properly implements ReadAt", as [readFromOne]
    relies on: its size is the number of its bytes, and a read at an offset
    within them behaves as [io.ReaderAt] asks; when the read ends exactly at
    the end of the bytes the proxy may report [io.EOF] or not. *)
Class ProperReadAt (T W : Type) `{!ReadProxy T W, !HasBytes T} : Prop := {
  proper_Size : ∀ t, proper t → rp_Size t = len (bytesOf t);
  proper_ReadAt : ∀ t p (o : Z),
    proper t → 0 ≤ o < len (bytesOf t) →
    ∃ t' err,
      rp_ReadAt t p o
      = Ok (t', (readerAt (bytesOf t) p o).1.1,
            (readerAt (bytesOf t) p o).1.2, err)
      ∧ proper t' ∧ bytesOf t' = bytesOf t
      ∧ (err = (readerAt (bytesOf t) p o).2
         ∨ (err = Some io_EOF
            ∧ o + (readerAt (bytesOf t) p o).1.2 = len (bytesOf t)))
}.

(** *** lease/multi_read_proxy.go *)
Section MultiReadProxy.
Context {W L T F R : Type}.
Context `{!ReadWriteLease W L, !ReadLease L W, !ReadProxy T W}.
Context `{!FileLeaser F W, !ReadProxyMaker F R L T, !Copier W}.

Record readProxyAndOffset : Type := {
  off : Z;
  rp : T
}.

Record multiReadProxy : Type := {
  size : Z;
  leaser : F;
  rps : list readProxyAndOffset;
  lease : option L;
  destroyed : bool
}.

Definition set_lease (mrp : multiReadProxy) (l : option L) : multiReadProxy :=
  {| size := size mrp; leaser := leaser mrp; rps := rps mrp;
     lease := l; destroyed := destroyed mrp |}.

Definition set_rps (mrp : multiReadProxy) (ps : list readProxyAndOffset)
  : multiReadProxy :=
  {| size := size mrp; leaser := leaser mrp; rps := ps;
     lease := lease mrp; destroyed := destroyed mrp |}.

Definition set_leaser (mrp : multiReadProxy) (fl : F) : multiReadProxy :=
  {| size := size mrp; leaser := fl; rps := rps mrp;
     lease := lease mrp; destroyed := destroyed mrp |}.

Definition set_destroyed (mrp : multiReadProxy) (d : bool) : multiReadProxy :=
  {| size := size mrp; leaser := leaser mrp; rps := rps mrp;
     lease := lease mrp; destroyed := d |}.

(** [mrp.rps[i].rp = wrapped]: the wrapped proxy is held by pointer, so the
    state a call leaves it in is written back at its index. *)
Definition set_wrapped (mrp : multiReadProxy) (i : Z) (wrapped : T)
  : multiReadProxy :=
  set_rps mrp
    (alter (λ e, {| off := off e; rp := wrapped |}) (Z.to_nat i) (rps mrp)).

(** The loop of [NewMultiReadProxy]: one wrapped read proxy per refresher,
    each recorded with the running [size] as its offset. *)
Fixpoint wrapRefreshers (fl : F) (refreshers : list R)
    (wrappedProxies : list readProxyAndOffset) (size : Z)
  : list readProxyAndOffset * Z :=
  match refreshers with
  | [] => (wrappedProxies, size)
  | r :: refreshers' =>
      let wrapped := NewReadProxy fl r None in
      wrapRefreshers fl refreshers'
        (wrappedProxies ++ [{| off := size; rp := wrapped |}])
        (add64 size (rp_Size wrapped))
  end.

Definition NewMultiReadProxy (fl : F) (refreshers : list R) (rl : option L)
  : result multiReadProxy :=
  let '(wrappedProxies, size) := wrapRefreshers fl refreshers [] 0 in
  let inconsistent :=
    match rl with
    | Some l => negb (rl_Size l =? size)
    | None => false
    end in
  if inconsistent then
    Panic ("Provided read lease of size %d bytes doesn't match combined size "
           +:+ "%d bytes for %d refreshers")
      [argInt (match rl with Some l => rl_Size l | None => 0 end);
       argInt size; argInt (len refreshers)]
  else
    Ok {| size := size; leaser := fl; rps := wrappedProxies; lease := rl;
          destroyed := false |}.

Definition Size (mrp : multiReadProxy) : Z := size mrp.

(** [upperBound]: the index of the first wrapped proxy whose offset is
    greater than [off], [len(mrp.rps)] if there is none. *)
Definition upperBound (mrp : multiReadProxy) (off' : Z) : result Z :=
  let pred := λ i, e ← index (rps mrp) i; Ok (off' <? off e) in
  sort_Search (len (rps mrp)) pred.

(** The deferred check of [readFromOne], run on the values it returns. *)
Definition readFromOne_guarantees (p : list byte) (off' : Z)
    (wrappedStart wrappedSize : Z) (n : Z) (err : option error)
  : result unit :=
  if is_nil err
     && negb ((n =? len p)
              || (add64 off' n =? add64 wrappedStart wrappedSize)) then
    Panic ("Failed to serve full read. "
           +:+ "off: %d n: %d, len(p): %d, wrapped start: %d, wrapped size: %d")
      [argInt off'; argInt n; argInt (len p); argInt wrappedStart;
       argInt wrappedSize]
  else if is_EOF err then Panic "Unexpected EOF." []
  else Ok ().

Definition readFromOne (mrp : multiReadProxy) (index' : Z) (p : list byte)
    (off' : Z) : result (multiReadProxy * list byte * Z * option error) :=
  if negb (index' <? len (rps mrp)) then
    Panic "Out of range wrapped index: %v" [argInt index']
  else
    e ← index (rps mrp) index';
    let wrapped := rp e in
    let wrappedStart := off e in
    let wrappedSize := rp_Size wrapped in
    if negb ((wrappedStart <=? off')
             && (off' <? add64 wrappedStart wrappedSize)) then
      Panic "Offset %v not in range [%v, %v)"
        [argInt off'; argInt wrappedStart;
         argInt (add64 wrappedStart wrappedSize)]
    else
      let wrappedOff := sub64 off' wrappedStart in
      '(wrapped', p', n, err) ← rp_ReadAt wrapped p wrappedOff;
      let mrp' := set_wrapped mrp index' wrapped' in
      let '(n, err) :=
        if is_nil err && negb (n =? len p) then
          (n, Some (Errorf
                ("Wrapped proxy %d returned only %d bytes for a %d-byte read "
                 +:+ "starting at wrapped offset %d")
                [argInt index'; argInt n; argInt (len p); argInt wrappedOff]))
        else if is_EOF err then
          if negb (n =? sub64 wrappedSize wrappedOff) then
            (n, Some (Errorf
                  ("Wrapped proxy %d returned unexpected EOF. n: %d, "
                   +:+ "wrapped size: %d, wrapped offset: %d")
                  [argInt index'; argInt n; argInt wrappedSize;
                   argInt wrappedOff]))
          else (n, None)
        else (n, err) in
      _ ← readFromOne_guarantees p off' wrappedStart wrappedSize n err;
      Ok (mrp', p', n, err).

(** The loop [for len(p) > 0] of [ReadAt].  [k] is the number of wrapped
    proxies from [wrappedIndex] on, so [wrappedIndex = len(mrp.rps) - k] and
    the test [wrappedIndex == len(mrp.rps)] is [k = 0]; the index advances by
    one in each round.  [filled] is the part of the caller's buffer before
    the slice [p]. *)
Fixpoint readLoop (k : nat) (mrp : multiReadProxy) (filled p : list byte)
    (off' : Z) (n : Z)
  : result (multiReadProxy * list byte * Z * option error) :=
  if 0 <? len p then
    match k with
    | O => Ok (mrp, filled ++ p, n, Some io_EOF)
    | S k' =>
        let wrappedIndex := len (rps mrp) - Z.of_nat k in
        '(mrp', p', wrappedN, wrappedErr) ←
          readFromOne mrp wrappedIndex p off';
        let n := add64 n wrappedN in
        match wrappedErr with
        | Some e => Ok (mrp', filled ++ p', n, Some e)
        | None =>
            rest ← sliceFrom p' wrappedN;
            readLoop k' mrp' (filled ++ take (Z.to_nat wrappedN) p') rest
              (add64 off' wrappedN) n
        end
    end
  else Ok (mrp, filled ++ p, n, None).

(** [ReadAt] from the test of the offset on (the part after the special
    case of the top-level lease): the read served by the wrapped proxies.
    [n] is the count the function has at this point. *)
Definition readAtWrapped (mrp : multiReadProxy) (p : list byte) (off' : Z)
    (n : Z) : result (multiReadProxy * list byte * Z * option error) :=
  if off' <? 0 then
    Ok (mrp, p, n, Some (Errorf "Invalid offset: %v" [argInt off']))
  else if Size mrp <=? off' then
    Ok (mrp, p, n, Some io_EOF)
  else
    ub ← upperBound mrp off';
    let wrappedIndex := ub - 1 in
    if (wrappedIndex <? 0) || (len (rps mrp) <=? wrappedIndex) then
      Panic "Unexpected index: %v" [argInt wrappedIndex]
    else
      readLoop (Z.to_nat (len (rps mrp) - wrappedIndex)) mrp [] p off' n.

Definition ReadAt (mrp : multiReadProxy) (p : list byte) (off' : Z)
  : result (multiReadProxy * list byte * Z * option error) :=
  match lease mrp with
  | Some l =>
      '(l', p', n, err) ← rl_ReadAt l p off';
      match err with
      | None => Ok (set_lease mrp (Some l'), p', n, None)
      | Some e =>
          if is_RevokedError e then
            readAtWrapped (set_lease mrp None) p' off' n
          else Ok (set_lease mrp (Some l'), p', n, Some e)
      end
  | None => readAtWrapped mrp p off' 0
  end.

(** [rwl.Downgrade().Revoke()]: the handle [rwl] as the two calls leave it. *)
Definition downgradeAndRevoke (rwl : option W) : result (option W) :=
  match rwl with
  | None => nilDereference
  | Some w =>
      '(w', rl) ← rwl_Downgrade w;
      match rl with
      | None => nilDereference
      | Some l => _ ← rl_Revoke l; Ok (Some w')
      end
  end.

(** [upgradeOne]: the new states of the wrapped proxy and of [dst], and the
    error.  The deferred revocation of [src] runs on every return after the
    upgrade succeeded.  A nil [dst] is passed on to [io.Copy] as it is. *)
Definition upgradeOne (dst : option W) (wrapped : T)
  : result (T * option W * option error) :=
  '(wrapped', src, err) ← rp_Upgrade wrapped;
  match err with
  | Some e => Ok (wrapped', dst, Some (Errorf "Upgrade: %v" [argError e]))
  | None =>
      '(dst', src', err) ←
        match src with
        | None => nilDereference
        | Some s =>
            '(s', _, err) ← rwl_Seek s 0 0;
            match err with
            | Some e => Ok (dst, Some s', Some (Errorf "Seek: %v" [argError e]))
            | None =>
                match dst with
                | None =>
                    '(s'', _, err) ← io_Copy_nil s';
                    match err with
                    | Some e =>
                        Ok (None, Some s'',
                            Some (Errorf "Copy: %v" [argError e]))
                    | None => Ok (None, Some s'', None)
                    end
                | Some d =>
                    '(d', s'', _, err) ← io_Copy d s';
                    match err with
                    | Some e =>
                        Ok (Some d', Some s'',
                            Some (Errorf "Copy: %v" [argError e]))
                    | None => Ok (Some d', Some s'', None)
                    end
                end
            end
        end;
      _ ← downgradeAndRevoke src';
      Ok (wrapped', dst', err)
  end.

(** The loop [for i, entry := range mrp.rps] of [Upgrade], over the
    entries from index [i] on. *)
Fixpoint upgradeLoop (entries : list readProxyAndOffset) (i : Z)
    (mrp : multiReadProxy) (rwl : option W)
  : result (multiReadProxy * option W * option error) :=
  match entries with
  | [] => Ok (mrp, rwl, None)
  | entry :: entries' =>
      '(wrapped', rwl', err) ← upgradeOne rwl (rp entry);
      let mrp' := set_wrapped mrp i wrapped' in
      match err with
      | Some e =>
          Ok (mrp', rwl',
              Some (Errorf "upgradeOne(%d): %v" [argInt i; argError e]))
      | None => upgradeLoop entries' (i + 1) mrp' rwl'
      end
  end.

(** [Upgrade] from the call of [mrp.leaser.NewFile] on: the upgrade that
    accumulates the wrapped proxies into a new file. *)
Definition upgradeWrapped (mrp : multiReadProxy)
  : result (multiReadProxy * option W * option error) :=
  '(fl', rwl, err) ← fl_NewFile (leaser mrp);
  let mrp := set_leaser mrp fl' in
  match err with
  | Some e => Ok (mrp, rwl, Some (Errorf "NewFile: %v" [argError e]))
  | None =>
      '(mrp', rwl', err) ← upgradeLoop (rps mrp) 0 mrp rwl;
      match err with
      | Some e => rwl'' ← downgradeAndRevoke rwl'; Ok (mrp', rwl'', Some e)
      | None => Ok (mrp', rwl', None)
      end
  end.

Definition Upgrade (mrp : multiReadProxy)
  : result (multiReadProxy * option W * option error) :=
  let mrp := set_destroyed mrp true in
  match lease mrp with
  | Some l =>
      '(l', rwl, err) ← rl_Upgrade l;
      match err with
      | None => Ok (set_lease mrp (Some l'), rwl, None)
      | Some e =>
          if is_RevokedError e then upgradeWrapped (set_lease mrp None)
          else Ok (set_lease mrp (Some l'), rwl, Some e)
      end
  | None => upgradeWrapped mrp
  end.

(** The loop of [Destroy] over the wrapped proxies. *)
Fixpoint destroyAll (entries : list readProxyAndOffset) : result unit :=
  match entries with
  | [] => Ok ()
  | entry :: entries' => _ ← rp_Destroy (rp entry); destroyAll entries'
  end.

Definition Destroy (mrp : multiReadProxy) : result multiReadProxy :=
  _ ← destroyAll (rps mrp);
  _ ← match lease mrp with
      | Some l => _ ← rl_Revoke l; Ok ()
      | None => Ok ()
      end;
  Ok {| size := size mrp; leaser := leaser mrp; rps := []; lease := None;
        destroyed := true |}.

(** The loop [for i := range mrp.rps] of [CheckInvariants], over the
    adjacent pairs of entries. *)
Fixpoint offsetsIndexed (entries : list readProxyAndOffset) : bool :=
  match entries with
  | prev :: ((next :: _) as entries') =>
      (off next =? add64 (off prev) (rp_Size (rp prev)))
      && offsetsIndexed entries'
  | _ => true
  end.

(** [sum += wrapped.rp.Size()] over the entries. *)
Definition sumSizes (entries : list readProxyAndOffset) : Z :=
  foldl (λ sum wrapped, add64 sum (rp_Size (rp wrapped))) 0 entries.

Definition CheckInvariants (mrp : multiReadProxy) : result unit :=
  if destroyed mrp then Panic "Use after destroyed" []
  else
    _ ← match rps mrp with
        | first :: _ =>
            if negb (off first =? 0) then
              Panic "Unexpected starting point: %v" [argInt (off first)]
            else Ok ()
        | [] => Ok ()
        end;
    _ ← match list_find (λ x, rp_Size (rp x) < 0) (rps mrp) with
        | Some (_, x) => Panic "Negative size: %v" [argInt (rp_Size (rp x))]
        | None => Ok ()
        end;
    _ ← (if negb (offsetsIndexed (rps mrp)) then
           Panic "Offsets are not indexed correctly." []
         else Ok ());
    let sum := sumSizes (rps mrp) in
    _ ← (if negb (sum =? size mrp) then
           Panic "Size mismatch: %v vs. %v" [argInt sum; argInt (size mrp)]
         else Ok ());
    match lease mrp with
    | Some l =>
        if negb (size mrp =? rl_Size l) then
          Panic "Size mismatch: %v vs. %v"
            [argInt (size mrp); argInt (rl_Size l)]
        else Ok ()
    | None => Ok ()
    end.

(** What the invariants see of an entry: its offset and the size of its
    proxy. *)
Definition shape (e : readProxyAndOffset) : Z * Z := (off e, rp_Size (rp e)).

(** The invariants documented on the fields of [multiReadProxy] that relate
    offsets and sizes, as [CheckInvariants] tests them (it also refuses a
    destroyed proxy and a negative size):
    - if [len(rps) != 0], [rps[0].off == 0];
    - for each [i > 0], [rps[i].off == rps[i-1].off + rps[i-1].rp.Size()];
    - [size] is the sum over the wrapped proxy sizes;
    - if [lease != nil], [size == lease.Size()]. *)
Record Invariants (mrp : multiReadProxy) : Prop := {
  inv_first : ∀ e, rps mrp !! 0%nat = Some e → off e = 0;
  inv_next : ∀ (i : nat) prev next,
    rps mrp !! i = Some prev → rps mrp !! S i = Some next →
    off next = add64 (off prev) (rp_Size (rp prev));
  inv_size : sumSizes (rps mrp) = size mrp;
  inv_lease : ∀ l, lease mrp = Some l → size mrp = rl_Size l
}.

(** The multi read proxy is itself a [lease.ReadProxy]. *)
#[export] Instance multiReadProxy_ReadProxy : ReadProxy multiReadProxy W := {
  rp_Size := Size;
  rp_ReadAt := ReadAt;
  rp_Upgrade := Upgrade;
  rp_Destroy := Destroy;
  rp_CheckInvariants := CheckInvariants
}.

End MultiReadProxy.

(** *** The content of a multi read proxy *)
Section WrappedBytes.
Context {W T : Type}.
Context `{!ReadProxy T W, !HasBytes T}.

(** The sum of the sizes of the wrapped proxies, without wrap-around. *)
Definition totalSize (entries : list (@readProxyAndOffset T)) : Z :=
  foldr (λ e sum, rp_Size (rp e) + sum) 0 entries.

(** The bytes of the wrapped proxies, one after the other. *)
Definition wrappedBytes (entries : list (@readProxyAndOffset T)) : list byte :=
  concat ((λ e, bytesOf (rp e)) <$> entries).

End WrappedBytes.
End Lease.

(** ** Package mutable: mutable/content.go

    [C] is the state of the [timeutil.Clock] and [Time] the type
    [time.Time]. *)
Module Mutable.
Import Lease.

(** [timeutil.Clock] *)
Class Clock (C Time : Type) : Type := {
  clock_Now : C → C * Time
}.

Section Content.
Context {W L T C Time : Type}.
Context `{!ReadWriteLease W L, !ReadLease L W, !ReadProxy T W, !Clock C Time}.

Record StatResult : Type := {
  stat_Size : Z;
  DirtyThreshold : Z;
  Mtime : option Time
}.

Record mutableContent : Type := {
  clock : C;
  destroyed : bool;
  initialContent : option T;
  readWriteLease : option W;
  dirtyThreshold : Z;
  mtime : option Time
}.

Definition NewContent (initialContent : option T) (clock : C)
  : result mutableContent :=
  match initialContent with
  | None => nilDereference
  | Some ic =>
      Ok {| clock := clock; destroyed := false;
            initialContent := Some ic; readWriteLease := None;
            dirtyThreshold := rp_Size ic; mtime := None |}
  end.

Definition minInt64 (a b : Z) : Z := if a <? b then a else b.

Definition dirty (mc : mutableContent) : bool :=
  negb (is_nil (readWriteLease mc)).

Definition CheckInvariants (mc : mutableContent) : result unit :=
  if destroyed mc then Panic "Use of destroyed mutableContent object." []
  else
    _ ← match initialContent mc with
        | Some ic => rp_CheckInvariants ic
        | None => Ok ()
        end;
    if is_nil (initialContent mc) && is_nil (readWriteLease mc) then
      Panic "Both initialContent and readWriteLease are nil" []
    else if negb (is_nil (initialContent mc))
            && negb (is_nil (readWriteLease mc)) then
      Panic "Both initialContent and readWriteLease are non-nil" []
    else if dirty mc && is_nil (mtime mc) then
      Panic "Expected non-nil mtime." []
    else
      match initialContent mc with
      | Some ic =>
          if negb (dirtyThreshold mc =? rp_Size ic) then
            Panic "Dirty threshold mismatch: %d vs. %d"
              [argInt (dirtyThreshold mc); argInt (rp_Size ic)]
          else Ok ()
      | None => Ok ()
      end.

Definition Destroy (mc : mutableContent) : result mutableContent :=
  _ ← match initialContent mc with
      | Some ic => _ ← rp_Destroy ic; Ok ()
      | None => Ok ()
      end;
  _ ← match readWriteLease mc with
      | Some rwl => _ ← downgradeAndRevoke (Some rwl); Ok ()
      | None => Ok ()
      end;
  Ok {| clock := clock mc; destroyed := true;
        initialContent := None; readWriteLease := None;
        dirtyThreshold := dirtyThreshold mc; mtime := mtime mc |}.

Definition Release (mc : mutableContent)
  : result (mutableContent * option W) :=
  if negb (dirty mc) then Ok (mc, None)
  else
    let rwl := readWriteLease mc in
    mc' ← Destroy
      {| clock := clock mc; destroyed := destroyed mc;
         initialContent := initialContent mc; readWriteLease := None;
         dirtyThreshold := dirtyThreshold mc; mtime := mtime mc |};
    Ok (mc', rwl).

Definition set_initialContent (mc : mutableContent) (ic : option T)
  : mutableContent :=
  {| clock := clock mc; destroyed := destroyed mc;
     initialContent := ic; readWriteLease := readWriteLease mc;
     dirtyThreshold := dirtyThreshold mc; mtime := mtime mc |}.

Definition set_readWriteLease (mc : mutableContent) (rwl : option W)
  : mutableContent :=
  {| clock := clock mc; destroyed := destroyed mc;
     initialContent := initialContent mc; readWriteLease := rwl;
     dirtyThreshold := dirtyThreshold mc; mtime := mtime mc |}.

Definition ReadAt (mc : mutableContent) (buf : list byte) (offset : Z)
  : result (mutableContent * list byte * Z * option error) :=
  match readWriteLease mc with
  | Some rwl =>
      '(rwl', buf', n, err) ← rwl_ReadAt rwl buf offset;
      Ok (set_readWriteLease mc (Some rwl'), buf', n, err)
  | None =>
      match initialContent mc with
      | None => nilDereference
      | Some ic =>
          '(ic', buf', n, err) ← rp_ReadAt ic buf offset;
          Ok (set_initialContent mc (Some ic'), buf', n, err)
      end
  end.

Definition Stat (mc : mutableContent)
  : result (mutableContent * StatResult * option error) :=
  let sr (size : Z) :=
    {| stat_Size := size; DirtyThreshold := dirtyThreshold mc;
       Mtime := mtime mc |} in
  match readWriteLease mc with
  | Some rwl =>
      '(rwl', size, err) ← rwl_Size rwl;
      Ok (set_readWriteLease mc (Some rwl'), sr size, err)
  | None =>
      match initialContent mc with
      | None => nilDereference
      | Some ic => Ok (mc, sr (rp_Size ic), None)
      end
  end.

Definition ensureReadWriteLease (mc : mutableContent)
  : result (mutableContent * option error) :=
  match readWriteLease mc with
  | Some _ => Ok (mc, None)
  | None =>
      match initialContent mc with
      | None => nilDereference
      | Some ic =>
          '(ic', rwl, err) ← rp_Upgrade ic;
          match err with
          | Some e =>
              Ok (set_initialContent mc (Some ic'),
                  Some (Errorf "initialContent.Upgrade: %v" [argError e]))
          | None =>
              Ok ({| clock := clock mc; destroyed := destroyed mc;
                     initialContent := None; readWriteLease := rwl;
                     dirtyThreshold := dirtyThreshold mc; mtime := mtime mc |},
                  None)
          end
      end
  end.

(** The statements of [WriteAt] and [Truncate] that record the
    modification: [mc.dirtyThreshold = minInt64(mc.dirtyThreshold, offset)]
    and [mc.mtime = &newMtime], where [newMtime := mc.clock.Now()]. *)
Definition markDirty (mc : mutableContent) (offset : Z) : mutableContent :=
  let '(clock', newMtime) := clock_Now (clock mc) in
  {| clock := clock'; destroyed := destroyed mc;
     initialContent := initialContent mc;
     readWriteLease := readWriteLease mc;
     dirtyThreshold := minInt64 (dirtyThreshold mc) offset;
     mtime := Some newMtime |}.

Definition WriteAt (mc : mutableContent) (buf : list byte) (offset : Z)
  : result (mutableContent * Z * option error) :=
  '(mc, err) ← ensureReadWriteLease mc;
  match err with
  | Some e => Ok (mc, 0, Some (Errorf "ensureReadWriteLease: %v" [argError e]))
  | None =>
      let mc := markDirty mc offset in
      match readWriteLease mc with
      | None => nilDereference
      | Some rwl =>
          '(rwl', n, err) ← rwl_WriteAt rwl buf offset;
          Ok (set_readWriteLease mc (Some rwl'), n, err)
      end
  end.

Definition Truncate (mc : mutableContent) (n : Z)
  : result (mutableContent * option error) :=
  '(mc, err) ← ensureReadWriteLease mc;
  match err with
  | Some e => Ok (mc, Some (Errorf "ensureReadWriteLease: %v" [argError e]))
  | None =>
      if MaxInt64 <? n then
        Ok (mc, Some (Errorf "Illegal offset: %v" [argInt n]))
      else
        let mc := markDirty mc n in
        match readWriteLease mc with
        | None => nilDereference
        | Some rwl =>
            '(rwl', err) ← rwl_Truncate rwl n;
            Ok (set_readWriteLease mc (Some rwl'), err)
        end
  end.

(** *** Sequences of calls on one mutable content *)
Inductive call : Type :=
| CallReadAt (buf : list byte) (offset : Z)
| CallStat
| CallWriteAt (buf : list byte) (offset : Z)
| CallTruncate (n : Z).

Inductive reply : Type :=
| ReplyReadAt (buf : list byte) (n : Z) (err : option error)
| ReplyStat (sr : StatResult) (err : option error)
| ReplyWriteAt (n : Z) (err : option error)
| ReplyTruncate (err : option error).

Definition invoke (mc : mutableContent) (c : call)
  : result (mutableContent * reply) :=
  match c with
  | CallReadAt buf offset =>
      '(mc', buf', n, err) ← ReadAt mc buf offset;
      Ok (mc', ReplyReadAt buf' n err)
  | CallStat =>
      '(mc', sr, err) ← Stat mc; Ok (mc', ReplyStat sr err)
  | CallWriteAt buf offset =>
      '(mc', n, err) ← WriteAt mc buf offset; Ok (mc', ReplyWriteAt n err)
  | CallTruncate n =>
      '(mc', err) ← Truncate mc n; Ok (mc', ReplyTruncate err)
  end.

Fixpoint run (mc : mutableContent) (calls : list call)
  : result (mutableContent * list reply) :=
  match calls with
  | [] => Ok (mc, [])
  | c :: calls' =>
      '(mc', r) ← invoke mc c;
      '(mc'', rs) ← run mc' calls';
      Ok (mc'', r :: rs)
  end.

(** The invariants documented on the fields of [mutableContent], for an
    object that has not been destroyed:
    - [(initialContent == nil) != (readWriteLease == nil)];
    - if [dirty()], then [mtime != nil];
    - [initialContent != nil => dirtyThreshold == initialContent.Size()]. *)
Record Invariants (mc : mutableContent) : Prop := {
  inv_live : destroyed mc = false;
  inv_one : is_nil (initialContent mc) ≠ is_nil (readWriteLease mc);
  inv_mtime : dirty mc = true → is_nil (mtime mc) = false;
  inv_threshold : ∀ ic,
    initialContent mc = Some ic → dirtyThreshold mc = rp_Size ic
}.

(** The arguments of a call are [int64] values. *)
Definition wellTyped (c : call) : Prop :=
  match c with
  | CallReadAt _ offset => int64 offset
  | CallStat => True
  | CallWriteAt _ offset => int64 offset
  | CallTruncate n => int64 n
  end.

End Content.
End Mutable.

(** ** In-memory implementations of the interfaces

    The scratch-file leases, the single read proxy, the file leaser and the
    clock are implemented outside the two files above.  This module gives
    them in-memory implementations, used to run the code on concrete
    inputs. *)
Module Fake.
Import Lease Mutable.

Definition bytes (s : string) : list byte := String.list_byte_of_string s.

(** Modelled from the spec: the positional read of a scratch file, which is
    what [ReadAt] of a lease comes down to (the implementations of the
    read/write lease and of the read lease are not among the sources).  It
    returns up to [len(p)] bytes starting at [off], and a short read with
    [io.EOF] only at the end of the file. *)
Definition pread (data : list byte) (p : list byte) (off' : Z)
  : list byte * Z * option error :=
  if off' <? 0 then (p, 0, Some (foreignError "negative offset"))
  else
    let chunk := take (length p) (drop (Z.to_nat off') data) in
    (chunk ++ drop (length chunk) p, len chunk,
     if len chunk <? len p then Some io_EOF else None).

(** Modelled from the spec: the positional write of a scratch file
    ([WriteAt] of a read/write lease).  Extensions beyond the current size
    are legal and extend the file; the gap is filled with NUL bytes. *)
Definition pwrite (data : list byte) (buf : list byte) (off' : Z)
  : list byte * Z * option error :=
  if off' <? 0 then (data, 0, Some (foreignError "negative offset"))
  else
    match buf with
    | [] => (data, 0, None)
    | _ =>
        let o := Z.to_nat off' in
        (take o (data ++ replicate (o - length data) Byte.x00)
           ++ buf ++ drop (o + length buf) data,
         len buf, None)
    end.

(** Modelled from the spec: truncation of a scratch file to [n] bytes,
    extending with NUL bytes if [n] is greater than the current size. *)
Definition ftruncate (data : list byte) (n : Z) : list byte * option error :=
  if n <? 0 then (data, Some (foreignError "invalid argument"))
  else
    let k := Z.to_nat n in
    (take k (data ++ replicate (k - length data) Byte.x00), None).

(** Modelled from the spec: a read/write lease is a handle to a scratch
    file: the bytes of the file and the file position.  Downgrading
    invalidates the handle and releases its file; [released] records that. *)
Record file : Type := {
  data : list byte;
  cursor : Z;
  released : bool
}.

(** A read lease: the bytes of its file and whether the leaser has revoked
    it. *)
Record readLease : Type := {
  rl_data : list byte;
  revoked : bool
}.

(** Modelled from the spec: a read/write lease supports positional read,
    positional write, seek, truncate and size on its file.  Downgrading it
    produces a read lease on the same bytes and invalidates the handle,
    which gives up its file.  Using an invalidated handle is a programming
    error: every operation on it panics. *)
#[export] Instance file_ReadWriteLease : ReadWriteLease file readLease := {
  rwl_Seek f offset whence :=
    if released f then nilDereference
    else
      let pos :=
        if whence =? 0 then offset
        else if whence =? 1 then cursor f + offset
        else len (data f) + offset in
      if pos <? 0 then Ok (f, 0, Some (foreignError "invalid argument"))
      else Ok ({| data := data f; cursor := pos; released := false |},
               pos, None);
  rwl_ReadAt f p off' :=
    if released f then nilDereference
    else let '(p', n, err) := pread (data f) p off' in Ok (f, p', n, err);
  rwl_WriteAt f buf off' :=
    if released f then nilDereference
    else
      let '(data', n, err) := pwrite (data f) buf off' in
      Ok ({| data := data'; cursor := cursor f; released := false |}, n, err);
  rwl_Truncate f n :=
    if released f then nilDereference
    else
      let '(data', err) := ftruncate (data f) n in
      Ok ({| data := data'; cursor := cursor f; released := false |}, err);
  rwl_Size f :=
    if released f then nilDereference else Ok (f, len (data f), None);
  rwl_Downgrade f :=
    if released f then nilDereference
    else Ok ({| data := []; cursor := 0; released := true |},
             Some {| rl_data := data f; revoked := false |})
}.

(** Modelled from the spec: operations on a revoked read lease fail with
    the revoked-lease error; upgrading consumes the lease (the handle is
    revoked from then on) and returns a read/write lease with the same
    contents; revoking is idempotent. *)
#[export] Instance readLease_ReadLease : ReadLease readLease file := {
  rl_Size l := len (rl_data l);
  rl_ReadAt l p off' :=
    if revoked l then Ok (l, p, 0, Some RevokedError)
    else let '(p', n, err) := pread (rl_data l) p off' in Ok (l, p', n, err);
  rl_Upgrade l :=
    if revoked l then Ok (l, None, Some RevokedError)
    else Ok ({| rl_data := rl_data l; revoked := true |},
             Some {| data := rl_data l; cursor := 0; released := false |},
             None);
  rl_Revoke l := Ok {| rl_data := rl_data l; revoked := true |}
}.

(** [io.Copy] between two scratch files: everything from the position of
    [src] to its end is written at the position of [dst].  Into a nil
    destination nothing can be written: the copy returns if [src] has
    nothing left and dereferences nil otherwise. *)
#[export] Instance file_Copier : Copier file := {
  io_Copy dst src :=
    if released dst || released src then nilDereference
    else
      let chunk := drop (Z.to_nat (cursor src)) (data src) in
      let '(data', n, err) := pwrite (data dst) chunk (cursor dst) in
      Ok ({| data := data'; cursor := cursor dst + n; released := false |},
          {| data := data src; cursor := cursor src + n; released := false |},
          n, err);
  io_Copy_nil src :=
    if released src then nilDereference
    else
      match drop (Z.to_nat (cursor src)) (data src) with
      | [] => Ok (src, 0, None)
      | _ => nilDereference
      end
}.

(** Modelled from the spec: the file leaser, as far as [NewFile] goes.  It
    creates an empty read/write lease, and fails if the backing file cannot
    be created. *)
Record memLeaser : Type := {
  scratchAvailable : bool
}.

#[export] Instance leaser_FileLeaser : FileLeaser memLeaser file := {
  fl_NewFile fl :=
    if scratchAvailable fl then
      Ok (fl, Some {| data := []; cursor := 0; released := false |}, None)
    else Ok (fl, None, Some (foreignError "scratch directory not available"))
}.

(** Modelled from the spec: the single read proxy, without its chunking.
    It is an immutable view of a remote byte range of known size: [Size] is
    constant, [ReadAt] returns up to [len(p)] bytes with [io.EOF] only at the
    end of the range, and [Upgrade] destroys the proxy and returns a
    read/write lease containing exactly the proxied bytes.  Reading or
    upgrading fails when the remote object no longer exists, and the proxy
    then stays as it was.  [Destroy] releases the proxy; reading or upgrading
    a destroyed proxy is a programming error and panics.  A refresher holds
    the bytes of the remote object and whether the object has been deleted
    since. *)
Record refresher : Type := {
  contents : list byte;
  deleted : bool
}.

Record proxy : Type := {
  source : refresher;
  rp_destroyed : bool
}.

#[export] Instance proxy_ReadProxy : ReadProxy proxy file := {
  rp_Size t := len (contents (source t));
  rp_ReadAt t p off' :=
    if rp_destroyed t then nilDereference
    else if deleted (source t) then
      Ok (t, p, 0, Some (foreignError "not found"))
    else
      let '(p', n, err) := pread (contents (source t)) p off' in
      Ok (t, p', n, err);
  rp_Upgrade t :=
    if rp_destroyed t then nilDereference
    else if deleted (source t) then
      Ok (t, None, Some (foreignError "not found"))
    else
      Ok ({| source := source t; rp_destroyed := true |},
          Some {| data := contents (source t); cursor := 0;
                  released := false |}, None);
  rp_Destroy t := Ok {| source := source t; rp_destroyed := true |};
  rp_CheckInvariants t := Ok ()
}.

(** The bytes of the in-memory proxy are those of its object; it serves them
    as long as the object has not been deleted and the proxy has not been
    destroyed. *)
#[export] Instance proxy_HasBytes : HasBytes proxy := {
  bytesOf t := contents (source t);
  proper t := deleted (source t) = false ∧ rp_destroyed t = false
}.

#[export] Instance proxy_Maker
  : ReadProxyMaker memLeaser refresher readLease proxy := {
  NewReadProxy fl r rl := {| source := r; rp_destroyed := false |}
}.

(** An entry of a multi read proxy after its proxy has been upgraded: the
    proxy is destroyed. *)
Definition upgradedEntry (e : @readProxyAndOffset proxy)
  : @readProxyAndOffset proxy :=
  {| off := off e;
     rp := {| source := source (rp e); rp_destroyed := true |} |}.

(** The simulated clock of the tests: [Now] returns the time the clock was
    set to. *)
#[export] Instance simulatedClock : Clock Z Z := {
  clock_Now t := (t, t)
}.

(** The object "taco" held by one proxy, and split over the two proxies
    "ta" and "co". *)
Definition taco : refresher := {| contents := bytes "taco"; deleted := false |}.
Definition ta : refresher := {| contents := bytes "ta"; deleted := false |}.
Definition co : refresher := {| contents := bytes "co"; deleted := false |}.
Definition gone : refresher := {| contents := bytes "taco"; deleted := true |}.

Definition scratch : memLeaser := {| scratchAvailable := true |}.

Definition tacoLease : readLease :=
  {| rl_data := bytes "taco"; revoked := false |}.
Definition revokedLease : readLease :=
  {| rl_data := bytes "taco"; revoked := true |}.

(** The multi read proxy over "ta" and "co", as built by
    [NewMultiReadProxy] with the top-level lease [rl]. *)
Definition tacoMulti (rl : option readLease)
  : @multiReadProxy readLease proxy memLeaser :=
  {| Lease.size := 4; Lease.leaser := scratch;
     rps := [ {| off := 0;
                rp := {| source := ta; rp_destroyed := false |} |};
              {| off := 2;
                rp := {| source := co; rp_destroyed := false |} |} ];
     lease := rl; Lease.destroyed := false |}.

(** An object without content, and the multi read proxy over "ta", that
    object and "co". *)
Definition nothing : refresher := {| contents := []; deleted := false |}.

Definition tacoGapMulti : @multiReadProxy readLease proxy memLeaser :=
  {| Lease.size := 4; Lease.leaser := scratch;
     rps := [ {| off := 0;
                rp := {| source := ta; rp_destroyed := false |} |};
              {| off := 2;
                rp := {| source := nothing; rp_destroyed := false |} |};
              {| off := 2;
                rp := {| source := co; rp_destroyed := false |} |} ];
     lease := None; Lease.destroyed := false |}.

(** The multi read proxy over "ta" and "co" after the object "co" has been
    deleted. *)
Definition coGone : refresher := {| contents := bytes "co"; deleted := true |}.

Definition staleMulti : @multiReadProxy readLease proxy memLeaser :=
  {| Lease.size := 4; Lease.leaser := scratch;
     rps := [ {| off := 0;
                rp := {| source := ta; rp_destroyed := false |} |};
              {| off := 2;
                rp := {| source := coGone; rp_destroyed := false |} |} ];
     lease := None; Lease.destroyed := false |}.

(** That proxy after an [Upgrade], which fails at "co": it is marked
    destroyed, and "ta", upgraded before the failure, is destroyed. *)
Definition spentStaleMulti : @multiReadProxy readLease proxy memLeaser :=
  {| Lease.size := 4; Lease.leaser := scratch;
     rps := [ {| off := 0;
                rp := {| source := ta; rp_destroyed := true |} |};
              {| off := 2;
                rp := {| source := coGone; rp_destroyed := false |} |} ];
     lease := None; Lease.destroyed := true |}.

(** The handle of a read/write lease that has been downgraded. *)
Definition releasedFile : file :=
  {| data := []; cursor := 0; released := true |}.

(** A clean mutable content over that proxy. *)
Definition staleTaco
  : @mutableContent file (@multiReadProxy readLease proxy memLeaser) Z Z :=
  {| clock := 100; destroyed := false;
     initialContent := Some staleMulti; readWriteLease := None;
     dirtyThreshold := 4; mtime := None |}.

(** Mutable contents at time 100: a clean one over the multi read proxy, a
    clean one whose backing object has been deleted, and a dirty one that
    holds "paco". *)
Definition cleanTaco
  : @mutableContent file (@multiReadProxy readLease proxy memLeaser) Z Z :=
  {| clock := 100; destroyed := false;
     initialContent := Some (tacoMulti None); readWriteLease := None;
     dirtyThreshold := 4; mtime := None |}.

Definition goneTaco : @mutableContent file proxy Z Z :=
  {| clock := 100; destroyed := false;
     initialContent := Some {| source := gone; rp_destroyed := false |};
     readWriteLease := None;
     dirtyThreshold := 4; mtime := None |}.

Definition dirtyTaco : @mutableContent file proxy Z Z :=
  {| clock := 100; destroyed := false;
     initialContent := None;
     readWriteLease :=
       Some {| data := bytes "paco"; cursor := 0; released := false |};
     dirtyThreshold := 0; mtime := Some 90 |}.

(** A dirty content at time 100 whose lease holds "taco", none of it
    modified so far. *)
Definition wholeTaco : @mutableContent file proxy Z Z :=
  {| clock := 100; destroyed := false;
     initialContent := None;
     readWriteLease :=
       Some {| data := bytes "taco"; cursor := 4; released := false |};
     dirtyThreshold := 4; mtime := Some 90 |}.

End Fake.

(** ** The in-memory implementations keep the contracts *)
Module FakeTheory.
Import Lease Mutable Fake.

(** The leaser tests of the repository, on the in-memory file: a read of an
    empty file, a positional write past the end of "tacoburrito", a
    truncation, and a positional read of "taco". *)
Example pread_empty_file :
  pread [] (replicate 1024 Byte.x00) 0
  = (replicate 1024 Byte.x00, 0, Some io_EOF).
Proof. reflexivity. Qed.

Example pwrite_enchilada :
  pwrite (bytes "tacoburrito") (bytes "enchilada") 4
  = (bytes "tacoenchilada", 9, None).
Proof. reflexivity. Qed.

Example ftruncate_taco :
  ftruncate (bytes "tacoenchilada") 4 = (bytes "taco", None).
Proof. reflexivity. Qed.

Example pread_ac : pread (bytes "taco") (bytes "..") 1 = (bytes "ac", 2, None).
Proof. reflexivity. Qed.

Lemma pread_length data p (o : Z) p' n err :
  pread data p o = (p', n, err) → length p' = length p.
Proof.
  unfold pread. destruct (o <? 0).
  - intros [= <- _ _]. reflexivity.
  - intros [= <- _ _].
    rewrite length_app, length_drop, !length_take, length_drop. lia.
Qed.

(** What [pwrite] has written at an offset, [pread] reads back there. *)
Lemma pread_pwrite data B (o : Z) data' n p :
  pwrite data B o = (data', n, None) → length p = length B →
  n = len B ∧ pread data' p o = (B, len B, None).
Proof.
  unfold pwrite, pread. destruct (o <? 0); [discriminate|].
  intros Hw Hlen.
  destruct B as [|b B].
  - injection Hw as <- <-. destruct p; [|discriminate].
    split; reflexivity.
  - remember (b :: B) as B' eqn:HB'. clear HB'.
    injection Hw as <- <-. split; [reflexivity|].
    set (prefix := take (Z.to_nat o)
                     (data ++ replicate (Z.to_nat o - length data) Byte.x00)).
    assert (Hprefix : length prefix = Z.to_nat o).
    { unfold prefix. rewrite length_take, length_app, length_replicate. lia. }
    rewrite drop_app_length' by (symmetry; exact Hprefix).
    rewrite Hlen, take_app_length.
    rewrite <- Hlen, drop_all, app_nil_r.
    unfold len. rewrite Hlen, Z.ltb_irrefl. reflexivity.
Qed.

#[export] Instance proxy_Laws : ReadProxyLaws proxy file.
Proof.
  split.
  - intros t p o t' p' n err. simpl.
    destruct (rp_destroyed t); [discriminate|].
    destruct (deleted (source t)); [intros [= <- _ _ _]; reflexivity|].
    destruct (pread _ p o) as [[? ?] ?]. intros [= <- _ _ _]. reflexivity.
  - intros t t' rwl err. simpl.
    destruct (rp_destroyed t); [discriminate|].
    destruct (deleted (source t)); intros [= <- _ _]; reflexivity.
  - intros t t' rwl. simpl.
    destruct (rp_destroyed t); [discriminate|].
    destruct (deleted (source t)); [discriminate|].
    intros [= _ <-]. eauto.
Qed.

#[export] Instance readLease_Laws : ReadLeaseLaws readLease file.
Proof.
  split.
  - intros l p o l' p' n err. simpl.
    destruct (revoked l); [intros [= <- _ _ _]; reflexivity|].
    destruct (pread _ p o) as [[? ?] ?]. intros [= <- _ _ _]. reflexivity.
  - intros l l' rwl. simpl.
    destruct (revoked l); [discriminate|]. intros [= _ <-]. eauto.
Qed.

#[export] Instance memLeaser_Laws : FileLeaserLaws memLeaser file.
Proof.
  split. intros fl fl' rwl. simpl.
  destruct (scratchAvailable fl); [|discriminate]. intros [= _ <-]. eauto.
Qed.

End FakeTheory.

(** ** Facts about the multi read proxy *)
Module LeaseTheory.
Import Lease.

(** Enough fuel: the loop of [sort.Search] never runs out of it. *)
Lemma Search_loop_fuel (f : Z → result bool) (fuel1 fuel2 : nat) (i j : Z) :
  0 ≤ i → (Z.to_nat (j - i) ≤ fuel1)%nat → (Z.to_nat (j - i) ≤ fuel2)%nat →
  Search_loop fuel1 f i j = Search_loop fuel2 f i j.
Proof.
  revert fuel2 i j.
  induction fuel1 as [|fuel1 IH]; intros fuel2 i j Hi H1 H2.
  - assert (j ≤ i) by lia.
    destruct fuel2; simpl; destruct (i <? j) eqn:E; try reflexivity;
      apply Z.ltb_lt in E; lia.
  - destruct fuel2 as [|fuel2]; simpl; destruct (i <? j) eqn:E; try reflexivity.
    + apply Z.ltb_lt in E. lia.
    + apply Z.ltb_lt in E.
      assert (Hh : i ≤ Z.shiftr (i + j) 1 < j).
      { rewrite Z.shiftr_div_pow2 by lia. change (2 ^ 1) with 2.
        split; [apply Z.div_le_lower_bound | apply Z.div_lt_upper_bound]; lia. }
      destruct (f (Z.shiftr (i + j) 1)) as [b|]; simpl; [|reflexivity].
      destruct b; simpl; apply IH; lia.
Qed.

Section LeaseFacts.
Context {W L T F R : Type}.
Context `{!ReadWriteLease W L, !ReadLease L W, !ReadProxy T W}.
Context `{!FileLeaser F W, !ReadProxyMaker F R L T, !Copier W}.

Implicit Types (mrp : @multiReadProxy L T F) (e : @readProxyAndOffset T).
Implicit Types (entries : list (@readProxyAndOffset T)).

Lemma sumSizes_shape entries :
  sumSizes entries = foldl (λ sum x, add64 sum x.2) 0 (shape <$> entries).
Proof.
  unfold sumSizes. generalize 0.
  induction entries as [|e entries IH]; intros z; simpl; [reflexivity|].
  apply IH.
Qed.

Lemma lookup_shape entries entries' (i : nat) e' :
  shape <$> entries' = shape <$> entries → entries' !! i = Some e' →
  ∃ e, entries !! i = Some e ∧ shape e = shape e'.
Proof.
  intros Heq Hi.
  assert (Hs : (shape <$> entries) !! i = Some (shape e')).
  { rewrite <- Heq, list_lookup_fmap, Hi. reflexivity. }
  rewrite list_lookup_fmap in Hs.
  destruct (entries !! i) as [e|]; simpl in Hs; [|discriminate].
  exists e. split; [reflexivity|congruence].
Qed.

(** The invariants only depend on the total size, on the shapes of the
    entries and on the size of the lease. *)
Lemma Invariants_shape mrp mrp' :
  size mrp' = size mrp →
  shape <$> rps mrp' = shape <$> rps mrp →
  (∀ l', lease mrp' = Some l' →
         ∃ l, lease mrp = Some l ∧ rl_Size l' = rl_Size l) →
  Invariants mrp → Invariants mrp'.
Proof.
  intros Hsize Hshape Hlease [Hfirst Hnext Hsum Hl].
  split.
  - intros e' He'.
    destruct (lookup_shape _ _ _ _ Hshape He') as (e & He & Hs).
    injection Hs as Hoff _. rewrite <- Hoff. eauto.
  - intros i prev' next' Hp Hn.
    destruct (lookup_shape _ _ _ _ Hshape Hp) as (prev & Hprev & Hs1).
    destruct (lookup_shape _ _ _ _ Hshape Hn) as (next & Hnext' & Hs2).
    injection Hs1 as Ho1 Hz1. injection Hs2 as Ho2 _.
    rewrite <- Ho1, <- Hz1, <- Ho2. eauto.
  - rewrite Hsize, <- Hsum, !sumSizes_shape, Hshape. reflexivity.
  - intros l' Hl'. destruct (Hlease l' Hl') as (l & Hlm & Hsz).
    rewrite Hsize, Hsz. eauto.
Qed.

Lemma set_wrapped_shape mrp (i : Z) e wrapped :
  index (rps mrp) i = Ok e → rp_Size wrapped = rp_Size (rp e) →
  shape <$> rps (set_wrapped mrp i wrapped) = shape <$> rps mrp.
Proof.
  unfold index. intros Hi Hsz.
  destruct ((i <? 0) || (len (rps mrp) <=? i)); [discriminate|].
  destruct (rps mrp !! Z.to_nat i) as [e0|] eqn:He; [|discriminate].
  injection Hi as ->. simpl.
  apply list_eq. intros j. rewrite !list_lookup_fmap.
  destruct (decide (j = Z.to_nat i)) as [->|Hne].
  - rewrite list_lookup_alter_eq, He. simpl. unfold shape. simpl.
    rewrite Hsz. reflexivity.
  - rewrite list_lookup_alter_ne by congruence. reflexivity.
Qed.

(** *** What a read changes: the states of the wrapped proxies and, on
    revocation, the lease field; never the sizes or the offsets *)

Lemma set_wrapped_fields mrp (i : Z) wrapped :
  size (set_wrapped mrp i wrapped) = size mrp
  ∧ lease (set_wrapped mrp i wrapped) = lease mrp
  ∧ leaser (set_wrapped mrp i wrapped) = leaser mrp
  ∧ destroyed (set_wrapped mrp i wrapped) = destroyed mrp.
Proof. repeat split. Qed.

Lemma readFromOne_frame mrp (i : Z) p (o : Z) mrp' p' n err :
  readFromOne mrp i p o = Ok (mrp', p', n, err) →
  size mrp' = size mrp ∧ lease mrp' = lease mrp
  ∧ (ReadProxyLaws T W → shape <$> rps mrp' = shape <$> rps mrp).
Proof.
  unfold readFromOne. intros Hr.
  destruct (negb (i <? len (rps mrp))); [discriminate|].
  destruct (index (rps mrp) i) as [e|] eqn:Hi; simpl in Hr; [|discriminate].
  destruct (negb _); [discriminate|].
  destruct (rp_ReadAt (rp e) p (sub64 o (off e)))
    as [[[[wrapped' q] m] err0]|] eqn:Hread; simpl in Hr; [|discriminate].
  match type of Hr with
  | (let '(_, _) := ?c in _) = _ => destruct c as [n1 err1]
  end.
  destruct (readFromOne_guarantees _ _ _ _ _ _); simpl in Hr; [|discriminate].
  injection Hr as <- _ _ _.
  repeat split. intros Hlaws.
  eapply set_wrapped_shape; [exact Hi|].
  eapply rp_ReadAt_Size; exact Hread.
Qed.

Lemma readLoop_frame (k : nat) :
  ∀ mrp filled p (o n : Z) mrp' p' n' err,
  readLoop k mrp filled p o n = Ok (mrp', p', n', err) →
  size mrp' = size mrp ∧ lease mrp' = lease mrp
  ∧ (ReadProxyLaws T W → shape <$> rps mrp' = shape <$> rps mrp).
Proof.
  induction k as [|k IH]; intros mrp filled p o n mrp' p' n' err Hr;
    simpl in Hr; destruct (0 <? len p).
  - injection Hr as <- _ _ _. auto.
  - injection Hr as <- _ _ _. auto.
  - destruct (readFromOne mrp _ p o) as [[[[mrp1 p1] wrappedN] wrappedErr]|]
      eqn:Hone; simpl in Hr; [|discriminate].
    apply readFromOne_frame in Hone as (Hs & Hl & Hsh).
    destruct wrappedErr as [e|].
    + injection Hr as <- _ _ _. auto.
    + destruct (sliceFrom p1 wrappedN) as [rest|]; simpl in Hr; [|discriminate].
      apply IH in Hr as (Hs' & Hl' & Hsh').
      rewrite Hs', Hl'. repeat split; [done..|].
      intros Hlaws. rewrite Hsh', Hsh; done.
  - injection Hr as <- _ _ _. auto.
Qed.

Lemma readAtWrapped_frame mrp p (o n : Z) mrp' p' n' err :
  readAtWrapped mrp p o n = Ok (mrp', p', n', err) →
  size mrp' = size mrp ∧ lease mrp' = lease mrp
  ∧ (ReadProxyLaws T W → shape <$> rps mrp' = shape <$> rps mrp).
Proof.
  unfold readAtWrapped. intros Hr.
  destruct (o <? 0); [injection Hr as <- _ _ _; auto|].
  destruct (Size mrp <=? o); [injection Hr as <- _ _ _; auto|].
  destruct (upperBound mrp o) as [ub|]; simpl in Hr; [|discriminate].
  destruct ((ub - 1 <? 0) || _); [discriminate|].
  eapply readLoop_frame; exact Hr.
Qed.

(** The lease field after a read: still the lease, of the same size, or
    nil. *)
Lemma ReadAt_frame `{!ReadProxyLaws T W, !ReadLeaseLaws L W}
    mrp p (o : Z) mrp' p' n err :
  ReadAt mrp p o = Ok (mrp', p', n, err) →
  size mrp' = size mrp
  ∧ shape <$> rps mrp' = shape <$> rps mrp
  ∧ (∀ l', lease mrp' = Some l' →
           ∃ l, lease mrp = Some l ∧ rl_Size l' = rl_Size l).
Proof.
  unfold ReadAt. intros Hr.
  destruct (lease mrp) as [l|] eqn:Hl.
  - destruct (rl_ReadAt l p o) as [[[[l1 p1] n1] err1]|] eqn:Hread;
      simpl in Hr; [|discriminate].
    pose proof (rl_ReadAt_Size _ _ _ _ _ _ _ Hread) as Hsz.
    destruct err1 as [e|].
    + destruct (is_RevokedError e).
      * apply readAtWrapped_frame in Hr as (Hs & Hl' & Hsh).
        simpl in *. repeat split; [done|auto|].
        intros l'. rewrite Hl'. discriminate.
      * injection Hr as <- _ _ _. simpl. repeat split.
        intros l' [= <-]. eauto.
    + injection Hr as <- _ _ _. simpl. repeat split.
      intros l' [= <-]. eauto.
  - apply readAtWrapped_frame in Hr as (Hs & Hl' & Hsh).
    repeat split; [done|auto|]. intros l'. rewrite Hl', Hl. discriminate.
Qed.

(** *** What an upgrade changes *)

Local Arguments downgradeAndRevoke : simpl never.

Lemma upgradeLoop_frame entries :
  ∀ (i : Z) mrp rwl mrp' rwl' err,
  upgradeLoop entries i mrp rwl = Ok (mrp', rwl', err) →
  size mrp' = size mrp ∧ lease mrp' = lease mrp
  ∧ destroyed mrp' = destroyed mrp
  ∧ (err = None → is_Some rwl → is_Some rwl').
Proof.
  induction entries as [|entry entries IH];
    intros i mrp rwl mrp' rwl' err Hr; simpl in Hr.
  - injection Hr as <- <- <-. auto.
  - destruct (upgradeOne rwl (rp entry)) as [[[wrapped1 rwl1] err1]|] eqn:Hone;
      simpl in Hr; [|discriminate].
    destruct err1 as [e|].
    + injection Hr as <- _ <-. repeat split. discriminate.
    + apply IH in Hr as (Hs & Hl & Hd & Hrwl). repeat split; [done..|].
      intros Herr Hsome. apply Hrwl; [exact Herr|].
      revert Hone. unfold upgradeOne.
      destruct (rp_Upgrade (rp entry)) as [[[wrapped0 src] err0]|];
        simpl; [|discriminate].
      destruct err0; [discriminate|].
      destruct src as [s|]; simpl; [|discriminate].
      destruct (rwl_Seek s 0 0) as [[[s1 pos] errS]|]; simpl; [|discriminate].
      destruct errS; simpl.
      { destruct (downgradeAndRevoke (Some s1)); simpl; discriminate. }
      destruct Hsome as [d ->]. simpl.
      destruct (io_Copy d s1) as [[[[d1 s2] m] errC]|]; simpl; [|discriminate].
      destruct errC; simpl;
        (destruct (downgradeAndRevoke (Some s2)); simpl; [|discriminate]).
      * discriminate.
      * intros [= _ <-]. eauto.
Qed.

Lemma upgradeWrapped_frame mrp mrp' rwl err :
  upgradeWrapped mrp = Ok (mrp', rwl, err) →
  size mrp' = size mrp ∧ lease mrp' = lease mrp
  ∧ destroyed mrp' = destroyed mrp
  ∧ (FileLeaserLaws F W → err = None → is_Some rwl).
Proof.
  unfold upgradeWrapped. intros Hr.
  destruct (fl_NewFile (leaser mrp)) as [[[fl1 rwl1] err1]|] eqn:Hnew;
    simpl in Hr; [|discriminate].
  destruct err1 as [e|].
  - injection Hr as <- _ <-. repeat split. discriminate.
  - destruct (upgradeLoop _ 0 _ rwl1) as [[[mrp2 rwl2] err2]|] eqn:Hloop;
      simpl in Hr; [|discriminate].
    apply upgradeLoop_frame in Hloop as (Hs & Hl & Hd & Hrwl).
    destruct err2 as [e|].
    + destruct (downgradeAndRevoke rwl2); simpl in Hr; [|discriminate].
      injection Hr as <- _ <-. repeat split; [done..|]. discriminate.
    + injection Hr as <- <- <-. repeat split; [done..|].
      intros Hlaws _. apply Hrwl; [reflexivity|].
      eapply fl_NewFile_lease; exact Hnew.
Qed.

(** *** The invariants and [CheckInvariants] *)

Lemma offsetsIndexed_spec entries :
  offsetsIndexed entries = true ↔
  ∀ (i : nat) prev next,
    entries !! i = Some prev → entries !! S i = Some next →
    off next = add64 (off prev) (rp_Size (rp prev)).
Proof.
  induction entries as [|prev0 [|next0 entries] IH].
  - split; [intros _ i ?? Hi | reflexivity]. destruct i; discriminate.
  - split; [intros _ i ?? _ Hi | reflexivity]. destruct i; discriminate.
  - change (offsetsIndexed (prev0 :: next0 :: entries))
      with ((off next0 =? add64 (off prev0) (rp_Size (rp prev0)))
            && offsetsIndexed (next0 :: entries)).
    rewrite andb_true_iff, Z.eqb_eq, IH. split.
    + intros [H0 Hrest] [|i] prev next Hp Hn.
      * injection Hp as <-. injection Hn as <-. exact H0.
      * eapply Hrest; [exact Hp | exact Hn].
    + intros Hall. split.
      * apply (Hall 0%nat); reflexivity.
      * intros i prev next Hp Hn. apply (Hall (S i)); assumption.
Qed.

Lemma sumSizes_snoc entries e :
  sumSizes (entries ++ [e]) = add64 (sumSizes entries) (rp_Size (rp e)).
Proof. unfold sumSizes. rewrite foldl_snoc. reflexivity. Qed.

(** The loop of [NewMultiReadProxy] keeps: the first offset is 0, each
    offset is the previous offset plus the previous size, and the running
    [size] is both the sum of the sizes and the offset of the next entry. *)
Lemma wrapRefreshers_inv (fl : F) (refreshers : list R) :
  ∀ wrappedProxies (sz : Z) ps sz',
  wrapRefreshers fl refreshers wrappedProxies sz = (ps, sz') →
  (∀ e, wrappedProxies !! 0%nat = Some e → off e = 0) →
  offsetsIndexed wrappedProxies = true →
  sumSizes wrappedProxies = sz →
  match last wrappedProxies with
  | Some e => add64 (off e) (rp_Size (rp e)) = sz
  | None => sz = 0
  end →
  (∀ e, ps !! 0%nat = Some e → off e = 0)
  ∧ offsetsIndexed ps = true
  ∧ sumSizes ps = sz'.
Proof.
  induction refreshers as [|r refreshers IH];
    intros acc sz ps sz' Hw Hfirst Hchain Hsum Hlast; simpl in Hw.
  - injection Hw as <- <-. auto.
  - apply IH in Hw; [exact Hw|..].
    + intros e. destruct acc as [|e0 acc]; simpl.
      * intros [= <-]. simpl. exact Hlast.
      * intros [= <-]. apply Hfirst. reflexivity.
    + apply offsetsIndexed_spec. intros i prev next Hp Hn.
      destruct (decide (S i < length acc)%nat) as [Hlt|Hge].
      * rewrite lookup_app_l in Hp by lia. rewrite lookup_app_l in Hn by lia.
        eapply offsetsIndexed_spec; eauto.
      * assert (Hi : S i = length acc).
        { apply lookup_lt_Some in Hn. rewrite length_app in Hn. simpl in Hn. lia. }
        rewrite lookup_app_l in Hp by lia.
        rewrite lookup_app_r in Hn by lia.
        replace (S i - length acc)%nat with 0%nat in Hn by lia.
        injection Hn as <-. simpl.
        assert (Hl : last acc = Some prev).
        { rewrite last_lookup. rewrite <- Hi. exact Hp. }
        rewrite Hl in Hlast. symmetry. exact Hlast.
    + rewrite sumSizes_snoc, Hsum. reflexivity.
    + rewrite last_snoc. reflexivity.
Qed.

Lemma NewMultiReadProxy_Invariants (fl : F) (refreshers : list R) rl mrp :
  NewMultiReadProxy fl refreshers rl = Ok mrp → Invariants mrp.
Proof.
  unfold NewMultiReadProxy.
  destruct (wrapRefreshers fl refreshers [] 0) as [ps sz] eqn:Hw.
  apply wrapRefreshers_inv in Hw as (Hfirst & Hchain & Hsum);
    [|intros e; discriminate|reflexivity..].
  intros Hr.
  destruct rl as [l|].
  - destruct (rl_Size l =? sz) eqn:E; simpl in Hr; [|discriminate].
    apply Z.eqb_eq in E. injection Hr as <-.
    split; simpl; [exact Hfirst|apply offsetsIndexed_spec, Hchain|exact Hsum|].
    intros l' [= <-]. congruence.
  - injection Hr as <-.
    split; simpl; [exact Hfirst|apply offsetsIndexed_spec, Hchain|exact Hsum|].
    discriminate.
Qed.

(** [NewMultiReadProxy] returns unless the lease it is given has a size
    other than the combined size. *)
Lemma NewMultiReadProxy_returns (fl : F) (refreshers : list R) rl :
  match rl with
  | Some l => rl_Size l = (wrapRefreshers fl refreshers [] 0).2
  | None => True
  end →
  ∃ mrp, NewMultiReadProxy fl refreshers rl = Ok mrp ∧ lease mrp = rl.
Proof.
  unfold NewMultiReadProxy.
  destruct (wrapRefreshers fl refreshers [] 0) as [ps sz]. simpl.
  destruct rl as [l|]; intros Hl.
  - rewrite Hl, Z.eqb_refl. simpl. eauto.
  - eauto.
Qed.

(** X1.  [CheckInvariants] returns exactly when the proxy is not destroyed,
    no wrapped proxy has a negative size, and the invariants hold. *)
Lemma multiReadProxy_CheckInvariants_spec mrp :
  CheckInvariants mrp = Ok () ↔
  destroyed mrp = false
  ∧ Forall (λ e, 0 ≤ rp_Size (rp e)) (rps mrp)
  ∧ Invariants mrp.
Proof.
  unfold CheckInvariants. destruct (destroyed mrp).
  { split; [discriminate | intros [? _]; discriminate]. }
  assert (Hfirst : ∀ X : result unit,
    (_ ← match rps mrp with
         | first :: _ =>
             if negb (off first =? 0)
             then Panic "Unexpected starting point: %v" [argInt (off first)]
             else Ok ()
         | [] => Ok ()
         end; X) = Ok ()
    ↔ (∀ e, rps mrp !! 0%nat = Some e → off e = 0) ∧ X = Ok ()).
  { intros X. destruct (rps mrp) as [|first rest]; simpl.
    - split; [intros HX; split; [intros e He; discriminate He | exact HX]
             | intros [_ HX]; exact HX].
    - destruct (off first =? 0) eqn:E; simpl.
      + apply Z.eqb_eq in E. split.
        * intros HX. split; [intros e [= <-]; exact E | exact HX].
        * intros [_ HX]; exact HX.
      + apply Z.eqb_neq in E. split; [discriminate|].
        intros [Hf _]. destruct E. apply Hf. reflexivity. }
  rewrite Hfirst. clear Hfirst.
  destruct (list_find _ (rps mrp)) as [[j x]|] eqn:Hfind; simpl.
  { apply list_find_Some in Hfind as (Hj & Hneg & _).
    split; [intros [_ ?]; discriminate|].
    intros (_ & Hall & _). rewrite Forall_lookup in Hall.
    specialize (Hall _ _ Hj). simpl in Hall. lia. }
  apply list_find_None in Hfind.
  assert (Hnonneg : Forall (λ e, 0 ≤ rp_Size (rp e)) (rps mrp)).
  { eapply Forall_impl; [exact Hfind|]. simpl. intros. lia. }
  destruct (offsetsIndexed (rps mrp)) eqn:Hchain; simpl.
  2:{ split; [intros [_ ?]; discriminate|].
      intros (_ & _ & [_ Hn _ _]).
      apply offsetsIndexed_spec in Hn. congruence. }
  rewrite offsetsIndexed_spec in Hchain.
  destruct (sumSizes (rps mrp) =? size mrp) eqn:Hsum; simpl.
  2:{ apply Z.eqb_neq in Hsum. split; [intros [_ ?]; discriminate|].
      intros (_ & _ & [_ _ Hs _]). contradiction. }
  apply Z.eqb_eq in Hsum.
  destruct (lease mrp) as [l|] eqn:Hl.
  - destruct (size mrp =? rl_Size l) eqn:Hsz; simpl.
    + apply Z.eqb_eq in Hsz. split; [|intros (_ & _ & [Hf' _ _ _]); split; [exact Hf'|reflexivity]].
      intros [Hf _]. repeat split; try assumption.
      intros l' Hl'. congruence.
    + apply Z.eqb_neq in Hsz. split; [intros [_ ?]; discriminate|].
      intros (_ & _ & [_ _ _ Hlease]). destruct Hsz. apply Hlease. exact Hl.
  - split; [|intros (_ & _ & [Hf' _ _ _]); split; [exact Hf'|reflexivity]].
    intros [Hf _]. repeat split; try assumption.
    intros l' Hl'. congruence.
Qed.

(** *** The multi read proxy keeps the contract of a read proxy *)

#[export] Instance multiReadProxy_Laws
    `{!ReadLeaseLaws L W, !FileLeaserLaws F W} :
  ReadProxyLaws (@multiReadProxy L T F) W.
Proof.
  split.
  - intros mrp p o mrp' p' n err Hr. simpl in *. unfold Size.
    unfold ReadAt in Hr. destruct (lease mrp) as [l|].
    + destruct (rl_ReadAt l p o) as [[[[l1 p1] n1] err1]|];
        simpl in Hr; [|discriminate].
      destruct err1 as [e|]; [destruct (is_RevokedError e)|].
      * apply readAtWrapped_frame in Hr as [Hs _]. exact Hs.
      * injection Hr as <- _ _ _. reflexivity.
      * injection Hr as <- _ _ _. reflexivity.
    + apply readAtWrapped_frame in Hr as [Hs _]. exact Hs.
  - intros mrp mrp' rwl err Hr. simpl in *. unfold Size.
    unfold Upgrade in Hr. simpl in Hr. destruct (lease mrp) as [l|].
    + destruct (rl_Upgrade l) as [[[l1 rwl1] err1]|];
        simpl in Hr; [|discriminate].
      destruct err1 as [e|]; [destruct (is_RevokedError e)|].
      * apply upgradeWrapped_frame in Hr as [Hs _]. exact Hs.
      * injection Hr as <- _ _. reflexivity.
      * injection Hr as <- _ _. reflexivity.
    + apply upgradeWrapped_frame in Hr as [Hs _]. exact Hs.
  - intros mrp mrp' rwl Hr. simpl in *.
    unfold Upgrade in Hr. simpl in Hr. destruct (lease mrp) as [l|].
    + destruct (rl_Upgrade l) as [[[l1 rwl1] err1]|] eqn:Hup;
        simpl in Hr; [|discriminate].
      destruct err1 as [e|]; [destruct (is_RevokedError e)|].
      * apply upgradeWrapped_frame in Hr as (_ & _ & _ & Hrwl). auto.
      * discriminate.
      * injection Hr as _ <-. eapply rl_Upgrade_lease. exact Hup.
    + apply upgradeWrapped_frame in Hr as (_ & _ & _ & Hrwl). auto.
Qed.

(** *** Reads and upgrades of a proxy without top-level lease *)

Lemma ReadAt_without_lease mrp p (o : Z) :
  lease mrp = None → ReadAt mrp p o = readAtWrapped mrp p o 0.
Proof. unfold ReadAt. intros ->. reflexivity. Qed.

Lemma Upgrade_without_lease mrp :
  lease mrp = None → Upgrade mrp = upgradeWrapped (set_destroyed mrp true).
Proof. unfold Upgrade. simpl. intros ->. reflexivity. Qed.

(** C6.  A multi read proxy with a top-level read lease consults that lease
    first in [ReadAt] and in [Upgrade].  What the lease answers without error
    is the answer of the call.  If the lease fails with the revoked-lease
    error, the lease field is set to nil and the call is served by the
    wrapped proxies ([readAtWrapped], [upgradeWrapped]); an error of any
    other kind is returned as it is.  A proxy whose lease field is nil serves
    every call through the wrapped proxies and its lease field stays nil, so
    all later calls take that path too. *)
Theorem lease_consulted_first mrp l :
  lease mrp = Some l →
  (∀ p (o : Z) l' p' n,
     rl_ReadAt l p o = Ok (l', p', n, None) →
     ReadAt mrp p o = Ok (set_lease mrp (Some l'), p', n, None))
  ∧ (∀ p (o : Z) l' p' n,
     rl_ReadAt l p o = Ok (l', p', n, Some RevokedError) →
     ReadAt mrp p o = readAtWrapped (set_lease mrp None) p' o n
     ∧ ∀ mrp' q m err,
         ReadAt mrp p o = Ok (mrp', q, m, err) → lease mrp' = None)
  ∧ (∀ p (o : Z) l' p' n (e : error),
     rl_ReadAt l p o = Ok (l', p', n, Some e) → e ≠ RevokedError →
     ReadAt mrp p o = Ok (set_lease mrp (Some l'), p', n, Some e))
  ∧ (∀ l' rwl,
     rl_Upgrade l = Ok (l', rwl, None) →
     Upgrade mrp
     = Ok (set_lease (set_destroyed mrp true) (Some l'), rwl, None))
  ∧ (∀ l' rwl,
     rl_Upgrade l = Ok (l', rwl, Some RevokedError) →
     Upgrade mrp = upgradeWrapped (set_lease (set_destroyed mrp true) None)
     ∧ ∀ mrp' rwl' err,
         Upgrade mrp = Ok (mrp', rwl', err) → lease mrp' = None)
  ∧ (∀ l' rwl (e : error),
     rl_Upgrade l = Ok (l', rwl, Some e) → e ≠ RevokedError →
     Upgrade mrp
     = Ok (set_lease (set_destroyed mrp true) (Some l'), rwl, Some e))
  ∧ (∀ mrp0, lease mrp0 = None →
     (∀ p (o : Z), ReadAt mrp0 p o = readAtWrapped mrp0 p o 0)
     ∧ Upgrade mrp0 = upgradeWrapped (set_destroyed mrp0 true)
     ∧ (∀ p (o : Z) mrp' q m err,
          ReadAt mrp0 p o = Ok (mrp', q, m, err) → lease mrp' = None)
     ∧ (∀ mrp' rwl' err,
          Upgrade mrp0 = Ok (mrp', rwl', err) → lease mrp' = None)).
Proof.
  intros Hl.
  assert (Hother : ∀ e : error, e ≠ RevokedError → is_RevokedError e = false).
  { intros [] He; try reflexivity. contradiction. }
  assert (Hread : ∀ p (o : Z) l' p' n,
    rl_ReadAt l p o = Ok (l', p', n, Some RevokedError) →
    ReadAt mrp p o = readAtWrapped (set_lease mrp None) p' o n).
  { intros p o l' p' n Hrevoked. unfold ReadAt. rewrite Hl, Hrevoked.
    reflexivity. }
  assert (Hupgrade : ∀ l' rwl,
    rl_Upgrade l = Ok (l', rwl, Some RevokedError) →
    Upgrade mrp = upgradeWrapped (set_lease (set_destroyed mrp true) None)).
  { intros l' rwl Hrevoked. unfold Upgrade. simpl. rewrite Hl, Hrevoked.
    reflexivity. }
  split; [|split; [|split; [|split; [|split; [|split]]]]].
  - intros p o l' p' n Hok. unfold ReadAt. rewrite Hl, Hok. reflexivity.
  - intros p o l' p' n Hrevoked. split; [eapply Hread; exact Hrevoked|].
    intros mrp' q m err. rewrite (Hread _ _ _ _ _ Hrevoked). intros Hr.
    apply readAtWrapped_frame in Hr as (_ & Hlease & _). exact Hlease.
  - intros p o l' p' n e Hfail He. unfold ReadAt.
    rewrite Hl, Hfail. simpl. rewrite (Hother e He). reflexivity.
  - intros l' rwl Hok. unfold Upgrade. simpl. rewrite Hl, Hok. reflexivity.
  - intros l' rwl Hrevoked. split; [eapply Hupgrade; exact Hrevoked|].
    intros mrp' rwl' err. rewrite (Hupgrade _ _ Hrevoked). intros Hr.
    apply upgradeWrapped_frame in Hr as (_ & Hlease & _). exact Hlease.
  - intros l' rwl e Hfail He. unfold Upgrade. simpl.
    rewrite Hl, Hfail. simpl. rewrite (Hother e He). reflexivity.
  - intros mrp0 Hnil. split; [|split; [|split]].
    + intros p o. apply ReadAt_without_lease. exact Hnil.
    + apply Upgrade_without_lease. exact Hnil.
    + intros p o mrp' q m err. rewrite ReadAt_without_lease by exact Hnil.
      intros Hr. apply readAtWrapped_frame in Hr as (_ & Hlease & _).
      congruence.
    + intros mrp' rwl' err. rewrite Upgrade_without_lease by exact Hnil.
      intros Hr. apply upgradeWrapped_frame in Hr as (_ & Hlease & _).
      rewrite Hlease. exact Hnil.
Qed.

(** C7, as amended.  When no top-level lease is attached, [ReadAt] at a
    negative offset returns the invalid-offset error and [ReadAt] at a
    non-negative offset at or beyond the total size returns [io.EOF], both
    without reading anything; the same holds, with the lease field cleared,
    when the attached lease reports that it has been revoked.  When the
    attached lease answers otherwise, the call returns the answer of the
    lease, whatever the offset. *)
Theorem ReadAt_offset_out_of_range mrp p (o : Z) :
  (lease mrp = None →
     (o < 0 →
      ReadAt mrp p o
      = Ok (mrp, p, 0, Some (Errorf "Invalid offset: %v" [argInt o])))
     ∧ (0 ≤ o → Size mrp ≤ o → ReadAt mrp p o = Ok (mrp, p, 0, Some io_EOF)))
  ∧ (∀ l l' p' n,
     lease mrp = Some l →
     rl_ReadAt l p o = Ok (l', p', n, Some RevokedError) →
     (o < 0 →
      ReadAt mrp p o
      = Ok (set_lease mrp None, p', n,
            Some (Errorf "Invalid offset: %v" [argInt o])))
     ∧ (0 ≤ o → Size mrp ≤ o →
        ReadAt mrp p o = Ok (set_lease mrp None, p', n, Some io_EOF)))
  ∧ (∀ l l' p' n err,
     lease mrp = Some l →
     rl_ReadAt l p o = Ok (l', p', n, err) →
     err ≠ Some RevokedError →
     ReadAt mrp p o = Ok (set_lease mrp (Some l'), p', n, err)).
Proof.
  assert (Hwrapped : ∀ mrp1 q m,
    (o < 0 → readAtWrapped mrp1 q o m
             = Ok (mrp1, q, m, Some (Errorf "Invalid offset: %v" [argInt o])))
    ∧ (0 ≤ o → Size mrp1 ≤ o →
       readAtWrapped mrp1 q o m = Ok (mrp1, q, m, Some io_EOF))).
  { intros mrp1 q m. unfold readAtWrapped. split.
    - intros Ho. apply Z.ltb_lt in Ho. rewrite Ho. reflexivity.
    - intros Ho Hsz. apply Z.ltb_ge in Ho. apply Z.leb_le in Hsz.
      rewrite Ho, Hsz. reflexivity. }
  split; [|split].
  - intros Hl. rewrite ReadAt_without_lease by assumption. apply Hwrapped.
  - intros l l' p' n Hl Hread. unfold ReadAt. rewrite Hl, Hread. simpl.
    apply (Hwrapped (set_lease mrp None)).
  - intros l l' p' n err Hl Hread Herr. unfold ReadAt. rewrite Hl, Hread.
    simpl. destruct err as [e|]; [|reflexivity].
    destruct e; try reflexivity. contradiction.
Qed.

(** C8.  The offsets recorded by a multi read proxy start at 0, each is the
    previous offset plus the size of the previous wrapped proxy, the total
    size is the sum of the sizes of the wrapped proxies and a top-level
    lease has that size (sums in [int64] arithmetic, as the code computes
    them).  This holds of every proxy that [NewMultiReadProxy] returns, and
    [ReadAt] preserves it.  [NewMultiReadProxy] returns whenever it is given
    no lease, or a lease of the combined size. *)
Theorem multiReadProxy_invariants `{!ReadProxyLaws T W, !ReadLeaseLaws L W} :
  (∀ (fl : F) (refreshers : list R) rl mrp,
     NewMultiReadProxy fl refreshers rl = Ok mrp → Invariants mrp)
  ∧ (∀ mrp p (o : Z) mrp' p' n err,
     Invariants mrp → ReadAt mrp p o = Ok (mrp', p', n, err) →
     Invariants mrp')
  ∧ (∀ (fl : F) (refreshers : list R) rl,
     match rl with
     | Some l => rl_Size l = (wrapRefreshers fl refreshers [] 0).2
     | None => True
     end →
     ∃ mrp, NewMultiReadProxy fl refreshers rl = Ok mrp ∧ lease mrp = rl).
Proof.
  split; [|split].
  - intros fl refreshers rl mrp. apply NewMultiReadProxy_Invariants.
  - intros mrp p o mrp' p' n err Hinv Hr.
    apply ReadAt_frame in Hr as (Hs & Hsh & Hl).
    eapply Invariants_shape; eauto.
  - apply NewMultiReadProxy_returns.
Qed.

(** *** The sums without wrap-around *)

Lemma wrap64_id (z : Z) : int64 z → wrap64 z = z.
Proof.
  unfold int64, MinInt64, MaxInt64, wrap64. intros Hz.
  rewrite Z.mod_small; lia.
Qed.

(** When no wrapped proxy has a negative size and the sizes add up to an
    [int64], the sum the code computes is the sum of the sizes. *)
Lemma sumSizes_exact entries :
  Forall (λ e, 0 ≤ rp_Size (rp e)) entries →
  foldr (λ e sum, rp_Size (rp e) + sum) 0 entries ≤ MaxInt64 →
  sumSizes entries = foldr (λ e sum, rp_Size (rp e) + sum) 0 entries.
Proof.
  unfold sumSizes.
  assert (Hgen : ∀ acc, 0 ≤ acc →
    Forall (λ e, 0 ≤ rp_Size (rp e)) entries →
    acc + foldr (λ e sum, rp_Size (rp e) + sum) 0 entries ≤ MaxInt64 →
    foldl (λ sum wrapped, add64 sum (rp_Size (rp wrapped))) acc entries
    = acc + foldr (λ e sum, rp_Size (rp e) + sum) 0 entries).
  { induction entries as [|e entries IH]; intros acc Hacc Hall Hmax; simpl.
    - lia.
    - inversion Hall as [|? ? He Hrest]; subst. simpl in Hmax.
      assert (Htail : 0 ≤ foldr (λ e sum, rp_Size (rp e) + sum) 0 entries).
      { clear -Hrest. induction Hrest; simpl; lia. }
      unfold add64 at 2. rewrite wrap64_id.
      + rewrite IH; [lia|lia|assumption|lia].
      + unfold int64, MinInt64, MaxInt64 in *. lia. }
  intros Hall Hmax. rewrite Hgen; [lia|lia|assumption|lia].
Qed.

End LeaseFacts.

(** *** The theorems on the proxy over "ta" and "co" *)
Section LeaseTaco.
Import Fake FakeTheory.

Lemma tacoMulti_built rl :
  rl_Size <$> rl = Some 4 ∨ rl = None →
  NewMultiReadProxy scratch [ta; co] rl = Ok (tacoMulti rl).
Proof.
  unfold NewMultiReadProxy. simpl.
  intros [Hrl | ->]; [|reflexivity].
  destruct rl as [l|]; [|discriminate]. injection Hrl as Hl.
  change (add64 (add64 0 (len (bytes "ta"))) (len (bytes "co"))) with 4.
  rewrite Hl. reflexivity.
Qed.

(** The binary search finds the proxy that holds an offset, and a read that
    spans both proxies is put together from the two. *)
Example upperBound_taco :
  upperBound (tacoMulti None) 0 = Ok 1
  ∧ upperBound (tacoMulti None) 1 = Ok 1
  ∧ upperBound (tacoMulti None) 2 = Ok 2
  ∧ upperBound (tacoMulti None) 3 = Ok 2.
Proof. repeat split. Qed.

Example ReadAt_spanning :
  ReadAt (tacoMulti None) (bytes "...") 1
  = Ok (tacoMulti None, bytes "aco", 3, None)
  ∧ ReadAt (tacoMulti None) (bytes ".....") 1
    = Ok (tacoMulti None, bytes "aco..", 3, Some io_EOF).
Proof. split; reflexivity. Qed.

Lemma lease_consulted_first_witness :
  ReadAt (tacoMulti (Some revokedLease)) (bytes "..") 1
  = readAtWrapped (tacoMulti None) (bytes "..") 1 0
  ∧ ReadAt (tacoMulti (Some revokedLease)) (bytes "..") 1
    = Ok (tacoMulti None, bytes "ac", 2, None).
Proof.
  pose proof (lease_consulted_first
                (W:=file) (L:=readLease) (T:=proxy) (F:=memLeaser)
                (tacoMulti (Some revokedLease)) revokedLease) as Hfirst.
  specialize (Hfirst eq_refl). destruct Hfirst as (_ & Hrevoked & _).
  specialize (Hrevoked (bytes "..") 1 revokedLease (bytes "..") 0 eq_refl).
  destruct Hrevoked as [Hserved _].
  split; [exact Hserved|].
  rewrite Hserved. vm_compute. reflexivity.
Defined.

Lemma ReadAt_offset_out_of_range_witness :
  ReadAt (tacoMulti None) (bytes "..") (-1)
  = Ok (tacoMulti None, bytes "..", 0,
        Some (Errorf "Invalid offset: %v" [argInt (-1)]))
  ∧ ReadAt (tacoMulti None) (bytes "..") 4
    = Ok (tacoMulti None, bytes "..", 0, Some io_EOF).
Proof.
  destruct (ReadAt_offset_out_of_range
              (W:=file) (L:=readLease) (T:=proxy) (F:=memLeaser)
              (tacoMulti None) (bytes "..") (-1))
    as [Hneg _].
  destruct (ReadAt_offset_out_of_range
              (W:=file) (L:=readLease) (T:=proxy) (F:=memLeaser)
              (tacoMulti None) (bytes "..") 4)
    as [Hend _].
  split.
  - apply (proj1 (Hneg eq_refl)). lia.
  - apply (proj2 (Hend eq_refl)); [lia|]. vm_compute. discriminate.
Defined.

(** C7 as stated fails when a live lease is attached: the lease answers a
    read into an empty buffer at the end of the content without error, and
    that is what [ReadAt] returns, not [io.EOF]. *)
Lemma ReadAt_live_lease_past_end :
  NewMultiReadProxy scratch [ta; co] (Some tacoLease)
  = Ok (tacoMulti (Some tacoLease))
  ∧ Size (tacoMulti (Some tacoLease)) ≤ 4
  ∧ ReadAt (tacoMulti (Some tacoLease)) [] 4
    = Ok (tacoMulti (Some tacoLease), [], 0, None)
  ∧ ¬ (∃ mrp' p' n,
         ReadAt (tacoMulti (Some tacoLease)) [] 4
         = Ok (mrp', p', n, Some io_EOF)).
Proof.
  split; [reflexivity|]. split; [vm_compute; discriminate|].
  split; [reflexivity|].
  intros (mrp' & p' & n & Hr). vm_compute in Hr. discriminate Hr.
Qed.

Lemma multiReadProxy_invariants_witness :
  Invariants (tacoMulti (Some revokedLease)) ∧ Invariants (tacoMulti None).
Proof.
  destruct (multiReadProxy_invariants
              (W:=file) (L:=readLease) (T:=proxy) (F:=memLeaser)
              (R:=refresher)) as (Hnew & Hread & _).
  assert (H0 : Invariants (tacoMulti (Some revokedLease))).
  { apply (Hnew scratch [ta; co] (Some revokedLease)). reflexivity. }
  split; [exact H0|].
  apply (Hread (tacoMulti (Some revokedLease)) (bytes "....") 0
           (tacoMulti None) (bytes "taco") 4 None H0).
  vm_compute. reflexivity.
Defined.

End LeaseTaco.
End LeaseTheory.

(** ** Facts about the mutable content *)
Module MutableTheory.
Import Lease Mutable.

Lemma minInt64_min (a b : Z) : minInt64 a b = Z.min a b.
Proof. unfold minInt64. destruct (a <? b) eqn:E; lia. Qed.

Section ContentFacts.
Context {W L T C Time : Type}.
Context `{!ReadWriteLease W L, !ReadLease L W, !ReadProxy T W, !Clock C Time}.

Implicit Types (mc : @mutableContent W T C Time).

(** *** What each method does to the state *)

Lemma markDirty_fields mc (offset : Z) :
  dirtyThreshold (markDirty mc offset) = Z.min (dirtyThreshold mc) offset
  ∧ mtime (markDirty mc offset) = Some (clock_Now (clock mc)).2
  ∧ readWriteLease (markDirty mc offset) = readWriteLease mc
  ∧ initialContent (markDirty mc offset) = initialContent mc
  ∧ destroyed (markDirty mc offset) = destroyed mc.
Proof.
  unfold markDirty. destruct (clock_Now (clock mc)) as [clock' newMtime].
  simpl. rewrite minInt64_min. repeat split.
Qed.

(** [ensureReadWriteLease] returns in one of three ways: the content was
    dirty and nothing changes; the upgrade of the initial content failed,
    and only the state of the initial content may have changed; the upgrade
    succeeded, and its lease replaces the initial content. *)
Lemma ensureReadWriteLease_cases mc mc1 err1 :
  ensureReadWriteLease mc = Ok (mc1, err1) →
  (is_Some (readWriteLease mc) ∧ mc1 = mc ∧ err1 = None)
  ∨ (readWriteLease mc = None ∧
     ∃ ic ic' rwl err0,
       initialContent mc = Some ic
       ∧ rp_Upgrade ic = Ok (ic', rwl, err0)
       ∧ match err0 with
         | Some e0 =>
             mc1 = set_initialContent mc (Some ic')
             ∧ err1 = Some (Errorf "initialContent.Upgrade: %v" [argError e0])
         | None =>
             mc1 = {| clock := clock mc; destroyed := destroyed mc;
                      initialContent := None; readWriteLease := rwl;
                      dirtyThreshold := dirtyThreshold mc;
                      mtime := mtime mc |}
             ∧ err1 = None
         end).
Proof.
  unfold ensureReadWriteLease. intros Hr.
  destruct (readWriteLease mc) as [w|] eqn:Hw.
  - left. injection Hr as <- <-. eauto.
  - right. split; [reflexivity|].
    destruct (initialContent mc) as [ic|] eqn:Hic; [|discriminate].
    destruct (rp_Upgrade ic) as [[[ic' rwl] err0]|] eqn:Hup;
      simpl in Hr; [|discriminate].
    exists ic, ic', rwl, err0.
    split; [reflexivity|]. split; [exact Hup|].
    destruct err0; injection Hr as <- <-; split; reflexivity.
Qed.

Lemma ensureReadWriteLease_fields mc mc1 err1 :
  ensureReadWriteLease mc = Ok (mc1, err1) →
  dirtyThreshold mc1 = dirtyThreshold mc ∧ mtime mc1 = mtime mc
  ∧ destroyed mc1 = destroyed mc ∧ clock mc1 = clock mc.
Proof.
  intros Hr.
  apply ensureReadWriteLease_cases in Hr
    as [(_ & -> & _) | (_ & ic & ic' & rwl & err0 & _ & _ & Hcase)].
  - repeat split.
  - destruct err0; destruct Hcase as [-> _]; repeat split.
Qed.

Lemma WriteAt_cases mc buf (offset : Z) mc' n err :
  WriteAt mc buf offset = Ok (mc', n, err) →
  ∃ mc1 err1,
    ensureReadWriteLease mc = Ok (mc1, err1)
    ∧ match err1 with
      | Some e1 =>
          mc' = mc1 ∧ n = 0
          ∧ err = Some (Errorf "ensureReadWriteLease: %v" [argError e1])
      | None =>
          ∃ rwl rwl',
            readWriteLease mc1 = Some rwl
            ∧ rwl_WriteAt rwl buf offset = Ok (rwl', n, err)
            ∧ mc' = set_readWriteLease (markDirty mc1 offset) (Some rwl')
      end.
Proof.
  unfold WriteAt. intros Hr.
  destruct (ensureReadWriteLease mc) as [[mc1 err1]|]; simpl in Hr;
    [|discriminate].
  exists mc1, err1. split; [reflexivity|].
  destruct err1 as [e1|].
  - injection Hr as <- <- <-. repeat split.
  - destruct (markDirty_fields mc1 offset) as (_ & _ & Hrwl & _).
    rewrite Hrwl in Hr.
    destruct (readWriteLease mc1) as [rwl|]; [|discriminate].
    destruct (rwl_WriteAt rwl buf offset) as [[[rwl' n0] err0]|] eqn:Hw;
      simpl in Hr; [|discriminate].
    injection Hr as <- <- <-. eauto.
Qed.

Lemma Truncate_cases mc (n : Z) mc' err :
  Truncate mc n = Ok (mc', err) →
  ∃ mc1 err1,
    ensureReadWriteLease mc = Ok (mc1, err1)
    ∧ match err1 with
      | Some e1 =>
          mc' = mc1
          ∧ err = Some (Errorf "ensureReadWriteLease: %v" [argError e1])
      | None =>
          (MaxInt64 < n ∧ mc' = mc1
           ∧ err = Some (Errorf "Illegal offset: %v" [argInt n]))
          ∨ (n ≤ MaxInt64 ∧
             ∃ rwl rwl',
               readWriteLease mc1 = Some rwl
               ∧ rwl_Truncate rwl n = Ok (rwl', err)
               ∧ mc' = set_readWriteLease (markDirty mc1 n) (Some rwl'))
      end.
Proof.
  unfold Truncate. intros Hr.
  destruct (ensureReadWriteLease mc) as [[mc1 err1]|]; simpl in Hr;
    [|discriminate].
  exists mc1, err1. split; [reflexivity|].
  destruct err1 as [e1|].
  - injection Hr as <- <-. repeat split.
  - destruct (MaxInt64 <? n) eqn:E.
    + apply Z.ltb_lt in E. injection Hr as <- <-. left. repeat split. exact E.
    + apply Z.ltb_ge in E. right. split; [exact E|].
      destruct (markDirty_fields mc1 n) as (_ & _ & Hrwl & _).
      rewrite Hrwl in Hr.
      destruct (readWriteLease mc1) as [rwl|]; [|discriminate].
      destruct (rwl_Truncate rwl n) as [[rwl' err0]|] eqn:Hw;
        simpl in Hr; [|discriminate].
      injection Hr as <- <-. eauto.
Qed.

Lemma ReadAt_cases mc buf (offset : Z) mc' buf' n err :
  ReadAt mc buf offset = Ok (mc', buf', n, err) →
  (∃ rwl rwl',
     readWriteLease mc = Some rwl
     ∧ rwl_ReadAt rwl buf offset = Ok (rwl', buf', n, err)
     ∧ mc' = set_readWriteLease mc (Some rwl'))
  ∨ (∃ ic ic',
     readWriteLease mc = None ∧ initialContent mc = Some ic
     ∧ rp_ReadAt ic buf offset = Ok (ic', buf', n, err)
     ∧ mc' = set_initialContent mc (Some ic')).
Proof.
  unfold ReadAt. intros Hr.
  destruct (readWriteLease mc) as [rwl|].
  - left. destruct (rwl_ReadAt rwl buf offset) as [[[[rwl' b] m] e]|] eqn:Hread;
      simpl in Hr; [|discriminate].
    injection Hr as <- <- <- <-. eauto.
  - right. destruct (initialContent mc) as [ic|]; [|discriminate].
    destruct (rp_ReadAt ic buf offset) as [[[[ic' b] m] e]|] eqn:Hread;
      simpl in Hr; [|discriminate].
    injection Hr as <- <- <- <-. exists ic, ic'. eauto.
Qed.

Lemma Stat_cases mc mc' sr err :
  Stat mc = Ok (mc', sr, err) →
  DirtyThreshold sr = dirtyThreshold mc ∧ Mtime sr = mtime mc
  ∧ ((∃ rwl rwl',
        readWriteLease mc = Some rwl
        ∧ rwl_Size rwl = Ok (rwl', stat_Size sr, err)
        ∧ mc' = set_readWriteLease mc (Some rwl'))
     ∨ (∃ ic,
        readWriteLease mc = None ∧ initialContent mc = Some ic
        ∧ stat_Size sr = rp_Size ic ∧ err = None ∧ mc' = mc)).
Proof.
  unfold Stat. intros Hr.
  destruct (readWriteLease mc) as [rwl|].
  - destruct (rwl_Size rwl) as [[[rwl' sz] e]|] eqn:Hsize;
      simpl in Hr; [|discriminate].
    injection Hr as <- <- <-. simpl. split; [reflexivity|].
    split; [reflexivity|]. left. exists rwl, rwl'.
    split; [reflexivity|]. split; [exact Hsize|reflexivity].
  - destruct (initialContent mc) as [ic|]; [|discriminate].
    injection Hr as <- <- <-. simpl. split; [reflexivity|].
    split; [reflexivity|]. right. exists ic. repeat split.
Qed.

(** The dirty threshold after any one call is at most what it was. *)
Lemma invoke_dirtyThreshold mc c mc' r :
  invoke mc c = Ok (mc', r) → dirtyThreshold mc' ≤ dirtyThreshold mc.
Proof.
  destruct c as [buf offset| |buf offset|n]; simpl; intros Hr.
  - destruct (ReadAt mc buf offset) as [[[[mc1 b] m] e]|] eqn:Hop;
      simpl in Hr; [|discriminate].
    injection Hr as <- _.
    apply ReadAt_cases in Hop
      as [(? & ? & _ & _ & ->) | (? & ? & _ & _ & _ & ->)]; simpl; lia.
  - destruct (Stat mc) as [[[mc1 sr] e]|] eqn:Hop; simpl in Hr; [|discriminate].
    injection Hr as <- _.
    apply Stat_cases in Hop
      as (_ & _ & [(? & ? & _ & _ & ->) | (? & _ & _ & _ & _ & ->)]);
      simpl; lia.
  - destruct (WriteAt mc buf offset) as [[[mc1 m] e]|] eqn:Hop;
      simpl in Hr; [|discriminate].
    injection Hr as <- _.
    apply WriteAt_cases in Hop as (mc0 & err1 & Hens & Hcase).
    apply ensureReadWriteLease_fields in Hens as (Hdt & _).
    destruct err1.
    + destruct Hcase as (-> & _). lia.
    + destruct Hcase as (rwl & rwl' & _ & _ & ->). simpl.
      destruct (markDirty_fields mc0 offset) as (-> & _). lia.
  - destruct (Truncate mc n) as [[mc1 e]|] eqn:Hop; simpl in Hr; [|discriminate].
    injection Hr as <- _.
    apply Truncate_cases in Hop as (mc0 & err1 & Hens & Hcase).
    apply ensureReadWriteLease_fields in Hens as (Hdt & _).
    destruct err1.
    + destruct Hcase as (-> & _). lia.
    + destruct Hcase as [(_ & -> & _) | (_ & rwl & rwl' & _ & _ & ->)].
      * lia.
      * simpl. destruct (markDirty_fields mc0 n) as (-> & _). lia.
Qed.

(** A [WriteAt] or [Truncate] whose read/write lease is there, as the
    lease leaves it. *)
Lemma WriteAt_with_lease mc mc1 (rwl rwl' : W) buf (offset n : Z) err :
  ensureReadWriteLease mc = Ok (mc1, None) →
  readWriteLease mc1 = Some rwl →
  rwl_WriteAt rwl buf offset = Ok (rwl', n, err) →
  WriteAt mc buf offset
  = Ok (set_readWriteLease (markDirty mc1 offset) (Some rwl'), n, err).
Proof.
  intros Hens Hrwl Hw.
  destruct (markDirty_fields mc1 offset) as (_ & _ & Hl & _).
  unfold WriteAt. rewrite Hens. simpl. rewrite Hl, Hrwl, Hw. reflexivity.
Qed.

Lemma Truncate_with_lease mc mc1 (rwl rwl' : W) (n : Z) err :
  n ≤ MaxInt64 →
  ensureReadWriteLease mc = Ok (mc1, None) →
  readWriteLease mc1 = Some rwl →
  rwl_Truncate rwl n = Ok (rwl', err) →
  Truncate mc n
  = Ok (set_readWriteLease (markDirty mc1 n) (Some rwl'), err).
Proof.
  intros Hn Hens Hrwl Ht.
  destruct (markDirty_fields mc1 n) as (_ & _ & Hl & _).
  unfold Truncate. rewrite Hens. simpl.
  apply Z.ltb_ge in Hn. rewrite Hn, Hl, Hrwl, Ht. reflexivity.
Qed.

(** What [ensureReadWriteLease] returns on a dirty content, and on a clean
    one whose initial content upgrades. *)
Lemma ensureReadWriteLease_dirty mc (rwl : W) :
  readWriteLease mc = Some rwl → ensureReadWriteLease mc = Ok (mc, None).
Proof. intros Hrwl. unfold ensureReadWriteLease. rewrite Hrwl. reflexivity. Qed.

Lemma ensureReadWriteLease_upgraded mc (ic ic' : T) rwl :
  readWriteLease mc = None → initialContent mc = Some ic →
  rp_Upgrade ic = Ok (ic', rwl, None) →
  ensureReadWriteLease mc
  = Ok ({| clock := clock mc; destroyed := destroyed mc;
           initialContent := None; readWriteLease := rwl;
           dirtyThreshold := dirtyThreshold mc; mtime := mtime mc |}, None).
Proof.
  intros Hrwl Hic Hup. unfold ensureReadWriteLease.
  rewrite Hrwl, Hic, Hup. reflexivity.
Qed.

(** C1.  Across any sequence of calls the dirty threshold never goes up.  A
    [WriteAt] at [offset] that obtains the read/write lease sets it to the
    minimum of the previous threshold and [offset], and a [Truncate] to [n]
    that obtains the lease sets it to the minimum of the previous threshold
    and [n].  The lease is obtained on a dirty content, and on a clean one
    when the upgrade of its initial content succeeds; when that upgrade
    fails, the call returns an error, the content stays clean and the
    threshold is left as it was.  In detail:
    - a [WriteAt] that returns leaves the content dirty with the threshold
      at the minimum, or clean with an error and the threshold unchanged;
      the same holds of a [Truncate] to an [int64];
    - on a dirty content, and on a clean content whose initial content
      upgrades to a lease, a [WriteAt] returns what the [WriteAt] of the
      lease returns and sets the threshold to the minimum; the same holds of
      [Truncate];
    - over any sequence of calls the threshold at the end is at most the
      threshold at the start. *)
Theorem dirtyThreshold_non_increasing :
  (∀ mc buf (offset : Z) mc' n err,
     WriteAt mc buf offset = Ok (mc', n, err) →
     (is_Some (readWriteLease mc')
      ∧ dirtyThreshold mc' = Z.min (dirtyThreshold mc) offset)
     ∨ (readWriteLease mc = None ∧ readWriteLease mc' = None
        ∧ is_Some err ∧ dirtyThreshold mc' = dirtyThreshold mc))
  ∧ (∀ mc (n : Z) mc' err,
     n ≤ MaxInt64 →
     Truncate mc n = Ok (mc', err) →
     (is_Some (readWriteLease mc')
      ∧ dirtyThreshold mc' = Z.min (dirtyThreshold mc) n)
     ∨ (readWriteLease mc = None ∧ readWriteLease mc' = None
        ∧ is_Some err ∧ dirtyThreshold mc' = dirtyThreshold mc))
  ∧ (∀ mc (rwl rwl' : W) buf (offset n : Z) err,
     readWriteLease mc = Some rwl →
     rwl_WriteAt rwl buf offset = Ok (rwl', n, err) →
     ∃ mc', WriteAt mc buf offset = Ok (mc', n, err)
            ∧ dirtyThreshold mc' = Z.min (dirtyThreshold mc) offset)
  ∧ (∀ mc (ic ic' : T) (rwl rwl' : W) buf (offset n : Z) err,
     readWriteLease mc = None → initialContent mc = Some ic →
     rp_Upgrade ic = Ok (ic', Some rwl, None) →
     rwl_WriteAt rwl buf offset = Ok (rwl', n, err) →
     ∃ mc', WriteAt mc buf offset = Ok (mc', n, err)
            ∧ dirtyThreshold mc' = Z.min (dirtyThreshold mc) offset)
  ∧ (∀ mc (rwl rwl' : W) (n : Z) err,
     n ≤ MaxInt64 →
     readWriteLease mc = Some rwl →
     rwl_Truncate rwl n = Ok (rwl', err) →
     ∃ mc', Truncate mc n = Ok (mc', err)
            ∧ dirtyThreshold mc' = Z.min (dirtyThreshold mc) n)
  ∧ (∀ mc (ic ic' : T) (rwl rwl' : W) (n : Z) err,
     n ≤ MaxInt64 →
     readWriteLease mc = None → initialContent mc = Some ic →
     rp_Upgrade ic = Ok (ic', Some rwl, None) →
     rwl_Truncate rwl n = Ok (rwl', err) →
     ∃ mc', Truncate mc n = Ok (mc', err)
            ∧ dirtyThreshold mc' = Z.min (dirtyThreshold mc) n)
  ∧ (∀ calls mc mc' replies,
     run mc calls = Ok (mc', replies) →
     dirtyThreshold mc' ≤ dirtyThreshold mc).
Proof.
  assert (Hclean : ∀ mc mc1 (e1 : error),
    ensureReadWriteLease mc = Ok (mc1, Some e1) →
    readWriteLease mc = None ∧ readWriteLease mc1 = None
    ∧ dirtyThreshold mc1 = dirtyThreshold mc).
  { intros mc mc1 e1 Hens.
    apply ensureReadWriteLease_cases in Hens
      as [(_ & _ & ?) | (Hrwl & ic & ic' & rwl & err0 & _ & _ & Hcase)];
      [discriminate|].
    destruct err0 as [e0|]; destruct Hcase as [-> ?]; [|discriminate].
    simpl. auto. }
  split; [|split; [|split; [|split; [|split; [|split]]]]].
  - intros mc buf offset mc' n err Hw.
    apply WriteAt_cases in Hw as (mc1 & err1 & Hens & Hcase).
    destruct err1 as [e1|].
    + destruct Hcase as (-> & _ & ->).
      destruct (Hclean _ _ _ Hens) as (H0 & H1 & Hdt).
      right. repeat split; try assumption. eauto.
    + destruct Hcase as (rwl & rwl' & _ & _ & ->). left. simpl.
      split; [eauto|].
      apply ensureReadWriteLease_fields in Hens as (Hdt & _).
      destruct (markDirty_fields mc1 offset) as (-> & _). rewrite Hdt.
      reflexivity.
  - intros mc n mc' err Hn Ht.
    apply Truncate_cases in Ht as (mc1 & err1 & Hens & Hcase).
    destruct err1 as [e1|].
    + destruct Hcase as (-> & ->).
      destruct (Hclean _ _ _ Hens) as (H0 & H1 & Hdt).
      right. repeat split; try assumption. eauto.
    + destruct Hcase as [(Hbig & _) | (_ & rwl & rwl' & _ & _ & ->)]; [lia|].
      left. simpl. split; [eauto|].
      apply ensureReadWriteLease_fields in Hens as (Hdt & _).
      destruct (markDirty_fields mc1 n) as (-> & _). rewrite Hdt.
      reflexivity.
  - intros mc rwl rwl' buf offset n err Hrwl Hw.
    eexists. split.
    + apply (WriteAt_with_lease mc mc rwl rwl');
        [apply (ensureReadWriteLease_dirty mc rwl Hrwl)|exact Hrwl|exact Hw].
    + simpl. apply markDirty_fields.
  - intros mc ic ic' rwl rwl' buf offset n err Hrwl Hic Hup Hw.
    pose proof (ensureReadWriteLease_upgraded mc ic ic' _ Hrwl Hic Hup) as Hens.
    eexists. split.
    + exact (WriteAt_with_lease _ _ rwl rwl' _ _ _ _ Hens eq_refl Hw).
    + simpl. destruct (markDirty_fields
                         {| clock := clock mc; destroyed := destroyed mc;
                            initialContent := None;
                            readWriteLease := Some rwl;
                            dirtyThreshold := dirtyThreshold mc;
                            mtime := mtime mc |} offset) as (-> & _).
      reflexivity.
  - intros mc rwl rwl' n err Hn Hrwl Ht.
    eexists. split.
    + apply (Truncate_with_lease mc mc rwl rwl');
        [exact Hn|apply (ensureReadWriteLease_dirty mc rwl Hrwl)
        |exact Hrwl|exact Ht].
    + simpl. apply markDirty_fields.
  - intros mc ic ic' rwl rwl' n err Hn Hrwl Hic Hup Ht.
    pose proof (ensureReadWriteLease_upgraded mc ic ic' _ Hrwl Hic Hup) as Hens.
    eexists. split.
    + exact (Truncate_with_lease _ _ rwl rwl' _ _ Hn Hens eq_refl Ht).
    + simpl. destruct (markDirty_fields
                         {| clock := clock mc; destroyed := destroyed mc;
                            initialContent := None;
                            readWriteLease := Some rwl;
                            dirtyThreshold := dirtyThreshold mc;
                            mtime := mtime mc |} n) as (-> & _).
      reflexivity.
  - induction calls as [|c calls IH]; intros mc mc' replies Hrun;
      simpl in Hrun.
    + injection Hrun as <- _. lia.
    + destruct (invoke mc c) as [[mc1 r]|] eqn:Hinv; simpl in Hrun;
        [|discriminate].
      destruct (run mc1 calls) as [[mc2 rs]|] eqn:Hrest; simpl in Hrun;
        [|discriminate].
      injection Hrun as <- _.
      apply invoke_dirtyThreshold in Hinv. apply IH in Hrest. lia.
Qed.

(** *** The invariants *)

(** X2.  [CheckInvariants] returns exactly when the invariants hold and
    the initial content, if still there, passes its own check. *)
Lemma mutableContent_CheckInvariants_spec mc :
  CheckInvariants mc = Ok () ↔
  Invariants mc
  ∧ ∀ ic, initialContent mc = Some ic → rp_CheckInvariants ic = Ok ().
Proof.
  unfold CheckInvariants.
  destruct (destroyed mc) eqn:Hd.
  { split; [discriminate|]. intros [[Hlive _ _ _] _]. congruence. }
  destruct (initialContent mc) as [ic|] eqn:Hic; simpl.
  - destruct (rp_CheckInvariants ic) as [[]|] eqn:Hcheck; simpl.
    2:{ split; [discriminate|]. intros [_ Hc].
        specialize (Hc ic eq_refl). rewrite Hcheck in Hc. discriminate. }
    destruct (readWriteLease mc) as [rwl|] eqn:Hrwl; simpl.
    { split; [discriminate|]. intros [[_ Hone _ _] _].
      rewrite Hic, Hrwl in Hone. contradiction. }
    unfold dirty. rewrite Hrwl. simpl.
    destruct (dirtyThreshold mc =? rp_Size ic) eqn:Hdt; simpl.
    + apply Z.eqb_eq in Hdt. split; [intros _|reflexivity].
      split; [split|].
      * exact Hd.
      * rewrite Hic, Hrwl. discriminate.
      * unfold dirty. rewrite Hrwl. discriminate.
      * intros ic0. rewrite Hic. intros [= <-]. exact Hdt.
      * intros ic0 [= <-]. exact Hcheck.
    + apply Z.eqb_neq in Hdt. split; [discriminate|].
      intros [[_ _ _ Hth] _]. destruct Hdt. apply Hth. exact Hic.
  - destruct (readWriteLease mc) as [rwl|] eqn:Hrwl; simpl.
    2:{ split; [discriminate|]. intros [[_ Hone _ _] _].
        rewrite Hic, Hrwl in Hone. contradiction. }
    unfold dirty. rewrite Hrwl. simpl.
    destruct (mtime mc) as [t|] eqn:Hm; simpl.
    + split; [intros _|reflexivity].
      split; [split|].
      * exact Hd.
      * rewrite Hic, Hrwl. discriminate.
      * rewrite Hm. reflexivity.
      * rewrite Hic. discriminate.
      * discriminate.
    + split; [discriminate|]. intros [[_ _ Hmt _] _].
      unfold dirty in Hmt. rewrite Hrwl, Hm in Hmt.
      specialize (Hmt eq_refl). discriminate.
Qed.

Lemma NewContent_Invariants (ic : T) (c : C) :
  ∃ mc, NewContent (Some ic) c = Ok mc ∧ Invariants mc.
Proof.
  eexists. split; [reflexivity|].
  split; simpl; [reflexivity|discriminate|discriminate|].
  intros ic0 [= <-]. reflexivity.
Qed.

Lemma Invariants_dirty_initialContent mc :
  Invariants mc → is_Some (readWriteLease mc) → initialContent mc = None.
Proof.
  intros [_ Hone _ _] [rwl Hrwl]. rewrite Hrwl in Hone.
  destruct (initialContent mc); [contradiction|reflexivity].
Qed.

Lemma Invariants_set_readWriteLease mc (rwl' : W) :
  Invariants mc → is_Some (readWriteLease mc) →
  Invariants (set_readWriteLease mc (Some rwl')).
Proof.
  intros Hinv Hsome.
  pose proof (Invariants_dirty_initialContent mc Hinv Hsome) as Hic.
  destruct Hinv as [Hlive Hone Hmt Hth]. destruct Hsome as [rwl Hrwl].
  split; simpl.
  - exact Hlive.
  - rewrite Hic. discriminate.
  - intros _. apply Hmt. unfold dirty. rewrite Hrwl. reflexivity.
  - rewrite Hic. discriminate.
Qed.

Lemma Invariants_set_initialContent mc (ic ic' : T) :
  Invariants mc → initialContent mc = Some ic → rp_Size ic' = rp_Size ic →
  Invariants (set_initialContent mc (Some ic')).
Proof.
  intros [Hlive Hone Hmt Hth] Hic Hsize.
  split; simpl.
  - exact Hlive.
  - rewrite Hic in Hone. exact Hone.
  - exact Hmt.
  - intros ic0 [= <-]. rewrite Hsize. apply Hth. exact Hic.
Qed.

(** A content that has its lease and no initial content satisfies the
    invariants once the modification has been recorded. *)
Lemma Invariants_markDirty mc (offset : Z) (rwl' : W) :
  destroyed mc = false → initialContent mc = None →
  Invariants (set_readWriteLease (markDirty mc offset) (Some rwl')).
Proof.
  intros Hlive Hic.
  destruct (markDirty_fields mc offset) as (_ & Hmt & _ & Hic' & Hd).
  split; simpl.
  - rewrite Hd. exact Hlive.
  - rewrite Hic', Hic. discriminate.
  - intros _. rewrite Hmt. reflexivity.
  - rewrite Hic', Hic. discriminate.
Qed.

Lemma ensureReadWriteLease_Invariants `{!ReadProxyLaws T W} mc mc1 err1 :
  Invariants mc → ensureReadWriteLease mc = Ok (mc1, err1) →
  match err1 with
  | Some _ => Invariants mc1
  | None =>
      destroyed mc1 = false ∧ initialContent mc1 = None
      ∧ is_Some (readWriteLease mc1)
  end.
Proof.
  intros Hinv Hens.
  apply ensureReadWriteLease_cases in Hens
    as [(Hsome & -> & ->)
       | (Hrwl & ic & ic' & rwl & err0 & Hic & Hup & Hcase)].
  - split; [apply Hinv|].
    split; [apply Invariants_dirty_initialContent; assumption|assumption].
  - destruct err0 as [e0|]; destruct Hcase as [-> ->].
    + eapply Invariants_set_initialContent; [exact Hinv|exact Hic|].
      eapply rp_Upgrade_Size. exact Hup.
    + simpl. split; [apply Hinv|]. split; [reflexivity|].
      eapply rp_Upgrade_lease. exact Hup.
Qed.

Lemma invoke_Invariants `{!ReadProxyLaws T W} mc c mc' r :
  Invariants mc → wellTyped c → invoke mc c = Ok (mc', r) → Invariants mc'.
Proof.
  intros Hinv Htyped.
  destruct c as [buf offset| |buf offset|n]; simpl; intros Hr.
  - destruct (ReadAt mc buf offset) as [[[[mc1 b] m] e]|] eqn:Hop;
      simpl in Hr; [|discriminate].
    injection Hr as <- _.
    apply ReadAt_cases in Hop
      as [(rwl & rwl' & Hrwl & _ & ->) | (ic & ic' & _ & Hic & Hread & ->)].
    + apply Invariants_set_readWriteLease; [exact Hinv|]. rewrite Hrwl. eauto.
    + eapply Invariants_set_initialContent; [exact Hinv|exact Hic|].
      eapply rp_ReadAt_Size. exact Hread.
  - destruct (Stat mc) as [[[mc1 sr] e]|] eqn:Hop; simpl in Hr; [|discriminate].
    injection Hr as <- _.
    apply Stat_cases in Hop
      as (_ & _ & [(rwl & rwl' & Hrwl & _ & ->) | (? & _ & _ & _ & _ & ->)]).
    + apply Invariants_set_readWriteLease; [exact Hinv|]. rewrite Hrwl. eauto.
    + exact Hinv.
  - destruct (WriteAt mc buf offset) as [[[mc1 m] e]|] eqn:Hop;
      simpl in Hr; [|discriminate].
    injection Hr as <- _.
    apply WriteAt_cases in Hop as (mc0 & err1 & Hens & Hcase).
    apply ensureReadWriteLease_Invariants in Hens; [|exact Hinv].
    destruct err1.
    + destruct Hcase as (-> & _). exact Hens.
    + destruct Hcase as (rwl & rwl' & _ & _ & ->).
      destruct Hens as (Hlive & Hic & _).
      apply Invariants_markDirty; assumption.
  - destruct (Truncate mc n) as [[mc1 e]|] eqn:Hop; simpl in Hr; [|discriminate].
    injection Hr as <- _.
    apply Truncate_cases in Hop as (mc0 & err1 & Hens & Hcase).
    apply ensureReadWriteLease_Invariants in Hens; [|exact Hinv].
    destruct err1.
    + destruct Hcase as (-> & _). exact Hens.
    + destruct Hcase as [(Hbig & _) | (_ & rwl & rwl' & _ & _ & ->)].
      * simpl in Htyped. unfold int64 in Htyped. lia.
      * destruct Hens as (Hlive & Hic & _).
        apply Invariants_markDirty; assumption.
Qed.

(** C2.  For a mutable content that has not been destroyed, exactly one of
    the initial content and the read/write lease is non-nil, a dirty content
    has a modification time, and the dirty threshold of a clean content is
    the size of its initial content.  This holds of the content
    [NewContent] returns, and [ReadAt], [Stat], [WriteAt] and [Truncate]
    preserve it. *)
Theorem mutableContent_invariants `{!ReadProxyLaws T W} :
  (∀ (ic : T) (c : C), ∃ mc, NewContent (Some ic) c = Ok mc ∧ Invariants mc)
  ∧ (∀ mc c mc' r,
     Invariants mc → wellTyped c → invoke mc c = Ok (mc', r) →
     Invariants mc').
Proof.
  split.
  - apply NewContent_Invariants.
  - intros mc c mc' r. apply invoke_Invariants.
Qed.

(** *** Failure of the upgrade, release, and the dirty state *)

(** C3.  If the upgrade of the initial content fails during a [WriteAt] or a
    [Truncate] on a clean content, the call returns the error and the content
    stays clean: the initial content is retained, there is no read/write
    lease, and the dirty threshold and the modification time keep their
    values.  The next call upgrades the retained initial content again. *)
Theorem upgrade_failure_leaves_content_clean mc (ic ic' : T) rwl (e : error) :
  readWriteLease mc = None →
  initialContent mc = Some ic →
  rp_Upgrade ic = Ok (ic', rwl, Some e) →
  let mc' := set_initialContent mc (Some ic') in
  let err :=
    Errorf "ensureReadWriteLease: %v"
      [argError (Errorf "initialContent.Upgrade: %v" [argError e])] in
  (∀ buf (offset : Z), WriteAt mc buf offset = Ok (mc', 0, Some err))
  ∧ (∀ n : Z, Truncate mc n = Ok (mc', Some err))
  ∧ readWriteLease mc' = None
  ∧ initialContent mc' = Some ic'
  ∧ dirtyThreshold mc' = dirtyThreshold mc
  ∧ mtime mc' = mtime mc
  ∧ destroyed mc' = destroyed mc
  ∧ (∀ (ic'' : T) (w : W),
       rp_Upgrade ic' = Ok (ic'', Some w, None) →
       ∃ mc'', ensureReadWriteLease mc' = Ok (mc'', None)
               ∧ readWriteLease mc'' = Some w).
Proof.
  intros Hrwl Hic Hup mc' err.
  assert (Hens : ensureReadWriteLease mc
                 = Ok (mc', Some (Errorf "initialContent.Upgrade: %v"
                                    [argError e]))).
  { unfold ensureReadWriteLease. rewrite Hrwl, Hic, Hup. reflexivity. }
  split; [|split].
  - intros buf offset. unfold WriteAt. rewrite Hens. reflexivity.
  - intros n. unfold Truncate. rewrite Hens. reflexivity.
  - simpl. repeat split; try assumption.
    intros ic'' w Hretry. eexists. split.
    + unfold ensureReadWriteLease. simpl. rewrite Hrwl, Hretry. reflexivity.
    + reflexivity.
Qed.

(** Every call on a content without initial content and without lease
    dereferences nil. *)
Lemma invoke_after_release mc c :
  initialContent mc = None → readWriteLease mc = None →
  invoke mc c = nilDereference.
Proof.
  intros Hic Hrwl.
  destruct c as [buf offset| |buf offset|n]; simpl.
  - unfold ReadAt. rewrite Hrwl, Hic. reflexivity.
  - unfold Stat. rewrite Hrwl, Hic. reflexivity.
  - unfold WriteAt, ensureReadWriteLease. rewrite Hrwl, Hic. reflexivity.
  - unfold Truncate, ensureReadWriteLease. rewrite Hrwl, Hic. reflexivity.
Qed.

(** C4.  [Release] of a clean content, such as the one [NewContent]
    returns, returns nil and leaves the content as it was, so it remains
    usable.  [Release] of a dirty content returns its
    read/write lease and leaves the content destroyed, without lease and
    without initial content: every later call on it panics, and a later
    [Release] returns nil. *)
Theorem Release_clean_and_dirty mc :
  (readWriteLease mc = None → Release mc = Ok (mc, None))
  ∧ (∀ (ic : T) (c : C),
     NewContent (Some ic) c = Ok mc → Release mc = Ok (mc, None))
  ∧ (∀ rwl : W,
     Invariants mc → readWriteLease mc = Some rwl →
     ∃ mc',
       Release mc = Ok (mc', Some rwl)
       ∧ destroyed mc' = true
       ∧ readWriteLease mc' = None
       ∧ initialContent mc' = None
       ∧ (∀ c, invoke mc' c = nilDereference)
       ∧ Release mc' = Ok (mc', None)).
Proof.
  assert (Hclean : readWriteLease mc = None → Release mc = Ok (mc, None)).
  { intros Hrwl. unfold Release, dirty. rewrite Hrwl. reflexivity. }
  split; [exact Hclean|]. split.
  - intros ic c [= <-]. reflexivity.
  - intros rwl Hinv Hrwl.
    assert (Hic : initialContent mc = None).
    { apply Invariants_dirty_initialContent; [exact Hinv|].
      rewrite Hrwl. eauto. }
    eexists. split.
    { unfold Release, dirty, Destroy. rewrite Hrwl. simpl. rewrite Hic.
      simpl. reflexivity. }
    simpl. repeat split.
    intros c. apply invoke_after_release; reflexivity.
Qed.

Lemma invoke_stays_dirty mc c mc' r :
  is_Some (readWriteLease mc) → invoke mc c = Ok (mc', r) →
  is_Some (readWriteLease mc').
Proof.
  intros [rwl Hrwl].
  destruct c as [buf offset| |buf offset|n]; simpl; intros Hr.
  - destruct (ReadAt mc buf offset) as [[[[mc1 b] m] e]|] eqn:Hop;
      simpl in Hr; [|discriminate].
    injection Hr as <- _.
    apply ReadAt_cases in Hop
      as [(? & ? & _ & _ & ->) | (? & ? & Hclean & _)]; [simpl; eauto|].
    congruence.
  - destruct (Stat mc) as [[[mc1 sr] e]|] eqn:Hop; simpl in Hr; [|discriminate].
    injection Hr as <- _.
    apply Stat_cases in Hop
      as (_ & _ & [(? & ? & _ & _ & ->) | (? & Hclean & _)]); [simpl; eauto|].
    congruence.
  - destruct (WriteAt mc buf offset) as [[[mc1 m] e]|] eqn:Hop;
      simpl in Hr; [|discriminate].
    injection Hr as <- _.
    apply WriteAt_cases in Hop as (mc0 & err1 & Hens & Hcase).
    apply ensureReadWriteLease_cases in Hens
      as [(_ & -> & ->) | (Hclean & _)]; [|congruence].
    destruct Hcase as (? & ? & _ & _ & ->). simpl. eauto.
  - destruct (Truncate mc n) as [[mc1 e]|] eqn:Hop; simpl in Hr; [|discriminate].
    injection Hr as <- _.
    apply Truncate_cases in Hop as (mc0 & err1 & Hens & Hcase).
    apply ensureReadWriteLease_cases in Hens
      as [(_ & -> & ->) | (Hclean & _)]; [|congruence].
    destruct Hcase as [(_ & -> & _) | (_ & ? & ? & _ & _ & ->)];
      [rewrite Hrwl|simpl]; eauto.
Qed.

(** C9.  A [WriteAt] or [Truncate] that gets its read/write lease leaves
    the content dirty, and no [ReadAt], [Stat], [WriteAt] or [Truncate], nor
    any sequence of them, makes a dirty content clean again.  Only [Release]
    and [Destroy] take the lease away, and they leave the content
    destroyed. *)
Theorem dirty_is_irreversible :
  (∀ mc buf (offset : Z) mc1 mc' n err,
     ensureReadWriteLease mc = Ok (mc1, None) →
     WriteAt mc buf offset = Ok (mc', n, err) →
     is_Some (readWriteLease mc'))
  ∧ (∀ mc (n : Z) mc1 mc' err,
     n ≤ MaxInt64 →
     ensureReadWriteLease mc = Ok (mc1, None) →
     Truncate mc n = Ok (mc', err) →
     is_Some (readWriteLease mc'))
  ∧ (∀ calls mc mc' replies,
     is_Some (readWriteLease mc) → run mc calls = Ok (mc', replies) →
     is_Some (readWriteLease mc'))
  ∧ (∀ mc mc' rwl,
     is_Some (readWriteLease mc) → Release mc = Ok (mc', rwl) →
     readWriteLease mc' = None ∧ destroyed mc' = true
     ∧ rwl = readWriteLease mc)
  ∧ (∀ mc mc',
     Destroy mc = Ok mc' →
     readWriteLease mc' = None ∧ destroyed mc' = true).
Proof.
  assert (Hdestroy : ∀ mc mc',
    Destroy mc = Ok mc' → readWriteLease mc' = None ∧ destroyed mc' = true).
  { intros mc mc'. unfold Destroy.
    destruct (match initialContent mc with Some _ => _ | None => _ end);
      simpl; [|discriminate].
    destruct (match readWriteLease mc with Some _ => _ | None => _ end);
      simpl; [|discriminate].
    intros [= <-]. split; reflexivity. }
  split; [|split; [|split; [|split]]].
  - intros mc buf offset mc1 mc' n err Hens Hw.
    apply WriteAt_cases in Hw as (mc0 & err1 & Hens' & Hcase).
    rewrite Hens in Hens'. injection Hens' as <- <-.
    destruct Hcase as (? & ? & _ & _ & ->). simpl. eauto.
  - intros mc n mc1 mc' err Hn Hens Ht.
    apply Truncate_cases in Ht as (mc0 & err1 & Hens' & Hcase).
    rewrite Hens in Hens'. injection Hens' as <- <-.
    destruct Hcase as [(Hbig & _) | (_ & ? & ? & _ & _ & ->)]; [lia|].
    simpl. eauto.
  - induction calls as [|c calls IH]; intros mc mc' replies Hdirty Hrun;
      simpl in Hrun.
    + injection Hrun as <- _. exact Hdirty.
    + destruct (invoke mc c) as [[mc1 r]|] eqn:Hinv; simpl in Hrun;
        [|discriminate].
      destruct (run mc1 calls) as [[mc2 rs]|] eqn:Hrest; simpl in Hrun;
        [|discriminate].
      injection Hrun as <- _.
      eapply IH; [|exact Hrest].
      eapply invoke_stays_dirty; [exact Hdirty|exact Hinv].
  - intros mc mc' rwl [w Hw]. unfold Release, dirty. rewrite Hw. simpl.
    destruct (Destroy _) as [mc1|] eqn:Hd; simpl; [|discriminate].
    intros [= <- <-]. apply Hdestroy in Hd as [? ?]. auto.
  - exact Hdestroy.
Qed.

(** C10.  On a dirty content, when the [WriteAt] or [Truncate] of the lease
    returns an error, the call returns that error with the dirty threshold
    already lowered to the minimum of its previous value and the offset (or
    the new size) and with the modification time already set to the reading
    of the clock: nothing is rolled back. *)
Theorem bookkeeping_survives_lease_error mc (rwl : W) :
  readWriteLease mc = Some rwl →
  (∀ buf (offset : Z) rwl' n (e : error),
     rwl_WriteAt rwl buf offset = Ok (rwl', n, Some e) →
     ∃ mc',
       WriteAt mc buf offset = Ok (mc', n, Some e)
       ∧ dirtyThreshold mc' = Z.min (dirtyThreshold mc) offset
       ∧ mtime mc' = Some (clock_Now (clock mc)).2
       ∧ readWriteLease mc' = Some rwl')
  ∧ (∀ (n : Z) rwl' (e : error),
     n ≤ MaxInt64 →
     rwl_Truncate rwl n = Ok (rwl', Some e) →
     ∃ mc',
       Truncate mc n = Ok (mc', Some e)
       ∧ dirtyThreshold mc' = Z.min (dirtyThreshold mc) n
       ∧ mtime mc' = Some (clock_Now (clock mc)).2
       ∧ readWriteLease mc' = Some rwl').
Proof.
  intros Hrwl.
  assert (Hens : ensureReadWriteLease mc = Ok (mc, None)).
  { unfold ensureReadWriteLease. rewrite Hrwl. reflexivity. }
  split.
  - intros buf offset rwl' n e Hw.
    destruct (markDirty_fields mc offset) as (Hdt & Hmt & Hl & _).
    eexists. split.
    { unfold WriteAt. rewrite Hens. simpl. rewrite Hl, Hrwl, Hw. reflexivity. }
    simpl. auto.
  - intros n rwl' e Hn Ht.
    destruct (markDirty_fields mc n) as (Hdt & Hmt & Hl & _).
    eexists. split.
    { unfold Truncate. rewrite Hens. simpl.
      apply Z.ltb_ge in Hn. rewrite Hn, Hl, Hrwl, Ht. reflexivity. }
    simpl. auto.
Qed.

End ContentFacts.

(** *** Reading back what was written *)
Section RoundTrip.
Import Fake FakeTheory.
Context {T C Time : Type}.
Context `{!ReadProxy T file, !Clock C Time}.

(** C5.  After a [WriteAt] of the buffer [B] at [offset] that succeeds, a
    [ReadAt] at [offset] into a buffer as long as [B] returns no error and
    fills the buffer with exactly the bytes of [B]. *)
Theorem write_then_read_round_trip
    (mc mc1 : @mutableContent file T C Time) B (offset n : Z) buf :
  WriteAt mc B offset = Ok (mc1, n, None) →
  length buf = length B →
  n = len B ∧ ∃ mc2, ReadAt mc1 buf offset = Ok (mc2, B, len B, None).
Proof.
  intros Hw Hlen.
  apply WriteAt_cases in Hw as (mc0 & err1 & _ & Hcase).
  destruct err1 as [e1|]; [destruct Hcase as (_ & _ & ?); discriminate|].
  destruct Hcase as (rwl & rwl' & _ & Hwrite & ->).
  simpl in Hwrite.
  destruct (released rwl); [discriminate|].
  destruct (pwrite (data rwl) B offset) as [[data' m] err] eqn:Hpw.
  injection Hwrite as <- <- ->.
  destruct (pread_pwrite _ _ _ _ _ buf Hpw Hlen) as [Hn Hread].
  split; [exact Hn|].
  eexists. unfold ReadAt. simpl. rewrite Hread. reflexivity.
Qed.

End RoundTrip.

(** *** The theorems on contents over "taco" *)
Section ContentTaco.
Import Fake FakeTheory LeaseTheory.

Lemma dirtyTaco_Invariants : Invariants dirtyTaco.
Proof. split; simpl; [reflexivity|discriminate|reflexivity|discriminate]. Qed.

Lemma dirtyThreshold_non_increasing_witness :
  (∃ mc',
     WriteAt cleanTaco (bytes "q") 2 = Ok (mc', 1, None)
     ∧ dirtyThreshold mc' = Z.min (dirtyThreshold cleanTaco) 2)
  ∧ (∃ mc',
       Truncate dirtyTaco 3 = Ok (mc', None)
       ∧ dirtyThreshold mc' = Z.min (dirtyThreshold dirtyTaco) 3)
  ∧ ∃ mc' replies,
      run cleanTaco
        [CallWriteAt (bytes "q") 2; CallTruncate 3; CallWriteAt (bytes "p") 1]
      = Ok (mc', replies)
      ∧ dirtyThreshold mc' ≤ dirtyThreshold cleanTaco.
Proof.
  destruct (dirtyThreshold_non_increasing
              (W:=file) (L:=readLease) (T:=multiReadProxy) (C:=Z) (Time:=Z))
    as (_ & _ & _ & Hupgraded & _ & _ & Hrun).
  destruct (dirtyThreshold_non_increasing
              (W:=file) (L:=readLease) (T:=proxy) (C:=Z) (Time:=Z))
    as (_ & _ & _ & _ & Hdirty & _).
  split; [|split].
  - eapply (Hupgraded cleanTaco (tacoMulti None)).
    + reflexivity.
    + reflexivity.
    + vm_compute. reflexivity.
    + vm_compute. reflexivity.
  - eapply (Hdirty dirtyTaco).
    + vm_compute. discriminate.
    + reflexivity.
    + vm_compute. reflexivity.
  - eexists _, _. split; [vm_compute; reflexivity|].
    eapply (Hrun
              [CallWriteAt (bytes "q") 2; CallTruncate 3;
               CallWriteAt (bytes "p") 1] cleanTaco).
    vm_compute. reflexivity.
Defined.

(** C1 as stated fails on a clean content whose initial content cannot be
    upgraded, here because the remote object has been deleted: the
    [WriteAt] at offset 0 returns the error of the upgrade before the
    threshold is touched, so the threshold is still 4 and not
    [min(4, 0)]. *)
Lemma WriteAt_failed_upgrade_keeps_threshold :
  NewContent (Some {| source := gone; rp_destroyed := false |}) 100
  = Ok goneTaco
  ∧ ∃ mc' n err,
      WriteAt goneTaco (bytes "p") 0 = Ok (mc', n, err)
      ∧ dirtyThreshold mc' = 4
      ∧ dirtyThreshold mc' ≠ Z.min (dirtyThreshold goneTaco) 0.
Proof.
  split; [reflexivity|]. eexists _, _, _.
  split; [reflexivity|]. split; [reflexivity|]. vm_compute. discriminate.
Qed.

Lemma mutableContent_invariants_witness :
  NewContent (Some (tacoMulti None)) 100 = Ok cleanTaco
  ∧ ∃ mc' r,
      invoke cleanTaco (CallWriteAt (bytes "p") 0) = Ok (mc', r)
      ∧ Invariants mc'.
Proof.
  destruct (mutableContent_invariants
              (W:=file) (L:=readLease) (T:=multiReadProxy) (C:=Z) (Time:=Z))
    as (Hnew & Hinvoke).
  split; [reflexivity|].
  destruct (Hnew (tacoMulti None) 100) as (mc & Hmc & Hinv).
  injection Hmc as <-.
  eexists _, _. split; [vm_compute; reflexivity|].
  eapply (Hinvoke cleanTaco (CallWriteAt (bytes "p") 0));
    [exact Hinv| |vm_compute; reflexivity].
  unfold wellTyped, int64, MinInt64, MaxInt64. lia.
Defined.

Lemma upgrade_failure_leaves_content_clean_witness :
  WriteAt goneTaco (bytes "p") 0
  = Ok (goneTaco, 0,
        Some (Errorf "ensureReadWriteLease: %v"
                [argError (Errorf "initialContent.Upgrade: %v"
                             [argError (foreignError "not found")])]))
  ∧ Truncate goneTaco 2
    = Ok (goneTaco,
          Some (Errorf "ensureReadWriteLease: %v"
                  [argError (Errorf "initialContent.Upgrade: %v"
                               [argError (foreignError "not found")])])).
Proof.
  pose proof (upgrade_failure_leaves_content_clean
                (W:=file) (L:=readLease) (T:=proxy) (C:=Z) (Time:=Z) goneTaco
                {| source := gone; rp_destroyed := false |}
                {| source := gone; rp_destroyed := false |} None
                (foreignError "not found")) as Hfail.
  specialize (Hfail eq_refl eq_refl eq_refl).
  destruct Hfail as (Hwrite & Htruncate & _).
  split; [apply Hwrite | apply Htruncate].
Defined.

Lemma Release_clean_and_dirty_witness :
  Release cleanTaco = Ok (cleanTaco, None)
  ∧ ∃ mc',
      Release dirtyTaco
      = Ok (mc', Some {| data := bytes "paco"; cursor := 0;
                         released := false |})
      ∧ destroyed mc' = true.
Proof.
  split.
  - pose proof (Release_clean_and_dirty
                  (W:=file) (L:=readLease) (T:=multiReadProxy) (C:=Z)
                  (Time:=Z) cleanTaco) as (Hclean & _).
    apply Hclean. reflexivity.
  - pose proof (Release_clean_and_dirty
                  (W:=file) (L:=readLease) (T:=proxy) (C:=Z) (Time:=Z)
                  dirtyTaco) as (_ & _ & Hdirty).
    specialize (Hdirty
                  {| data := bytes "paco"; cursor := 0; released := false |}
                  dirtyTaco_Invariants eq_refl).
    destruct Hdirty as (mc' & Hrelease & Hdestroyed & _).
    exists mc'. split; assumption.
Defined.

Lemma write_then_read_round_trip_witness :
  ∃ mc1,
    WriteAt cleanTaco (bytes "p") 0 = Ok (mc1, 1, None)
    ∧ ∃ mc2, ReadAt mc1 (bytes ".") 0 = Ok (mc2, bytes "p", 1, None).
Proof.
  eexists. split; [vm_compute; reflexivity|].
  eapply (write_then_read_round_trip
            (T:=multiReadProxy) (C:=Z) (Time:=Z)
            cleanTaco _ (bytes "p") 0 1 (bytes ".")).
  - vm_compute. reflexivity.
  - reflexivity.
Defined.

Lemma dirty_is_irreversible_witness :
  ∃ mc' replies,
    run dirtyTaco [CallReadAt (bytes "....") 0; CallStat; CallTruncate 1]
    = Ok (mc', replies)
    ∧ is_Some (readWriteLease mc').
Proof.
  eexists _, _. split; [vm_compute; reflexivity|].
  destruct (dirty_is_irreversible
              (W:=file) (L:=readLease) (T:=proxy) (C:=Z) (Time:=Z))
    as (_ & _ & Hrun & _).
  eapply (Hrun [CallReadAt (bytes "....") 0; CallStat; CallTruncate 1]
            dirtyTaco).
  - simpl. eauto.
  - vm_compute. reflexivity.
Defined.

Lemma bookkeeping_survives_lease_error_witness :
  ∃ mc',
    WriteAt dirtyTaco (bytes "p") (-1)
    = Ok (mc', 0, Some (foreignError "negative offset"))
    ∧ dirtyThreshold mc' = -1
    ∧ mtime mc' = Some 100.
Proof.
  pose proof (bookkeeping_survives_lease_error
                (W:=file) (L:=readLease) (T:=proxy) (C:=Z) (Time:=Z) dirtyTaco
                {| data := bytes "paco"; cursor := 0; released := false |})
    as Hkept.
  specialize (Hkept eq_refl). destruct Hkept as (Hwrite & _).
  specialize (Hwrite (bytes "p") (-1)
                {| data := bytes "paco"; cursor := 0; released := false |}
                0 (foreignError "negative offset") eq_refl).
  destruct Hwrite as (mc' & Hw & Hdt & Hmt & _).
  exists mc'. split; [exact Hw|]. split; [exact Hdt|exact Hmt].
Defined.

End ContentTaco.
End MutableTheory.

(** ** More about the multi read proxy: offsets, the binary search, what a
    read returns, construction, upgrade and destruction *)
Module LeaseExtra.
Import Lease LeaseTheory.

Lemma add64_exact (a b : Z) : int64 (a + b) → add64 a b = a + b.
Proof. apply wrap64_id. Qed.

Lemma sub64_exact (a b : Z) : int64 (a - b) → sub64 a b = a - b.
Proof. apply wrap64_id. Qed.

(** The loop of [sort.Search] on a predicate that never panics and is false
    up to some index and true from it on: it returns that index. *)
Lemma Search_loop_spec (f : Z → result bool) (g : Z → bool) (n : Z) :
  (∀ h, 0 ≤ h < n → f h = Ok (g h)) →
  (∀ h h', 0 ≤ h ≤ h' → h' < n → g h = true → g h' = true) →
  ∀ (fuel : nat) (i j : Z),
    0 ≤ i ≤ j → j ≤ n → (Z.to_nat (j - i) ≤ fuel)%nat →
    (∀ h, 0 ≤ h < i → g h = false) →
    (∀ h, j ≤ h < n → g h = true) →
    ∃ r, Search_loop fuel f i j = Ok r
         ∧ i ≤ r ≤ j
         ∧ (∀ h, 0 ≤ h < r → g h = false)
         ∧ (∀ h, r ≤ h < n → g h = true).
Proof.
  intros Hf Hmono.
  induction fuel as [|fuel IH]; intros i j Hij Hjn Hfuel Hlow Hhigh.
  - assert (i = j) as -> by lia.
    exists j. simpl. rewrite Z.ltb_irrefl. repeat split; auto; lia.
  - simpl. destruct (i <? j) eqn:E.
    + apply Z.ltb_lt in E.
      assert (Hh : i ≤ Z.shiftr (i + j) 1 < j).
      { rewrite Z.shiftr_div_pow2 by lia. change (2 ^ 1) with 2.
        split; [apply Z.div_le_lower_bound | apply Z.div_lt_upper_bound]; lia. }
      set (h := Z.shiftr (i + j) 1) in *.
      rewrite Hf by lia. simpl.
      destruct (g h) eqn:Hg; simpl.
      * destruct (IH i h) as (r & Hr & Hrange & Hfalse & Htrue);
          [lia|lia|lia|exact Hlow| |].
        { intros h' Hh'. eapply (Hmono h h'); [lia|lia|exact Hg]. }
        exists r. repeat split; auto; lia.
      * destruct (IH (h + 1) j) as (r & Hr & Hrange & Hfalse & Htrue);
          [lia|lia|lia| |exact Hhigh|].
        { intros h' Hh'. destruct (g h') eqn:Hg'; [|reflexivity].
          rewrite (Hmono h' h) in Hg; [discriminate|lia|lia|exact Hg']. }
        exists r. repeat split; auto; lia.
    + apply Z.ltb_ge in E. assert (i = j) as -> by lia.
      exists j. repeat split; auto; lia.
Qed.

(** *** [io.ReaderAt] on bytes that are put together from pieces *)

Lemma readerAt_skip (A D p : list byte) (δ : Z) :
  0 ≤ δ → readerAt (A ++ D) p (len A + δ) = readerAt D p δ.
Proof.
  intros Hδ. unfold readerAt, len.
  replace (Z.to_nat (Z.of_nat (length A) + δ))
    with (length A + Z.to_nat δ)%nat by lia.
  rewrite drop_app_add. reflexivity.
Qed.

(** The read fits in what is left of the first piece. *)
Lemma readerAt_within (B D p : list byte) (δ : Z) :
  0 ≤ δ → len p ≤ len B - δ →
  readerAt (B ++ D) p δ = readerAt B p δ
  ∧ readerAt B p δ = (take (length p) (drop (Z.to_nat δ) B), len p, None).
Proof.
  intros Hδ Hfit. unfold readerAt, len in *.
  assert (Hlen : (length p ≤ length (drop (Z.to_nat δ) B))%nat).
  { rewrite length_drop. lia. }
  rewrite drop_app_le by lia. rewrite take_app_le by exact Hlen.
  split; [reflexivity|].
  rewrite length_take_le by exact Hlen.
  rewrite drop_all, app_nil_r, Z.ltb_irrefl. reflexivity.
Qed.

(** The read runs beyond the first piece: it takes what is left of it and
    goes on at the start of the rest. *)
Lemma readerAt_beyond (B D p : list byte) (δ : Z) :
  0 ≤ δ ≤ len B → len B - δ < len p →
  let n1 := (length B - Z.to_nat δ)%nat in
  readerAt B p δ
  = (drop (Z.to_nat δ) B ++ drop n1 p, len B - δ, Some io_EOF)
  ∧ readerAt (B ++ D) p δ
    = (drop (Z.to_nat δ) B ++ (readerAt D (drop n1 p) 0).1.1,
       (len B - δ) + (readerAt D (drop n1 p) 0).1.2,
       (readerAt D (drop n1 p) 0).2).
Proof.
  intros Hδ Hshort n1. unfold readerAt, len in *. simpl.
  assert (Hleft : length (drop (Z.to_nat δ) B) = n1)
    by (rewrite length_drop; reflexivity).
  split.
  - rewrite take_ge by lia. rewrite Hleft.
    replace (Z.of_nat n1 <? Z.of_nat (length p)) with true
      by (symmetry; apply Z.ltb_lt; lia).
    f_equal. f_equal. lia.
  - rewrite drop_app_le by lia. rewrite take_app_ge by lia.
    rewrite Hleft, drop_0, length_drop, <- app_assoc.
    rewrite length_app, Hleft, drop_drop.
    set (chunk2 := take (length p - n1) D).
    f_equal; [f_equal|].
    + rewrite Nat2Z.inj_add. lia.
    + rewrite Nat2Z.inj_add.
      destruct (Z.of_nat (length chunk2) <? Z.of_nat (length p - n1)) eqn:E.
      * apply Z.ltb_lt in E.
        replace (_ <? _) with true; [reflexivity|].
        symmetry. apply Z.ltb_lt. lia.
      * apply Z.ltb_ge in E.
        replace (_ <? _) with false; [reflexivity|].
        symmetry. apply Z.ltb_ge. lia.
Qed.

Section LeaseMore.
Context {W L T F R : Type}.
Context `{!ReadWriteLease W L, !ReadLease L W, !ReadProxy T W}.
Context `{!FileLeaser F W, !ReadProxyMaker F R L T, !Copier W}.

Implicit Types (mrp : @multiReadProxy L T F) (e : @readProxyAndOffset T).
Implicit Types (entries : list (@readProxyAndOffset T)).

(** *** Sizes and offsets without wrap-around *)

Lemma totalSize_app entries1 entries2 :
  totalSize (entries1 ++ entries2) = totalSize entries1 + totalSize entries2.
Proof.
  unfold totalSize. induction entries1 as [|e entries1 IH]; simpl; lia.
Qed.

Lemma totalSize_nonneg entries :
  Forall (λ e, 0 ≤ rp_Size (rp e)) entries → 0 ≤ totalSize entries.
Proof. unfold totalSize. induction 1; simpl; lia. Qed.

Lemma totalSize_take_le entries (i : nat) :
  Forall (λ e, 0 ≤ rp_Size (rp e)) entries →
  0 ≤ totalSize (take i entries) ≤ totalSize entries.
Proof.
  intros Hall. rewrite <- (take_drop i entries) at 3. rewrite totalSize_app.
  pose proof (totalSize_nonneg (take i entries)
                (Forall_take _ _ _ Hall)).
  pose proof (totalSize_nonneg (drop i entries)
                (Forall_drop _ _ _ Hall)).
  lia.
Qed.

Lemma totalSize_take_S entries (i : nat) e :
  entries !! i = Some e →
  totalSize (take (S i) entries)
  = totalSize (take i entries) + rp_Size (rp e).
Proof.
  intros He. rewrite (take_S_r _ _ _ He), totalSize_app.
  unfold totalSize. simpl. lia.
Qed.

(** Offsets that start at zero and advance by the size of the previous
    entry are the sums of the sizes before them, as long as the sums stay
    within [int64]. *)
Lemma prefix_sums entries :
  (∀ e, entries !! 0%nat = Some e → off e = 0) →
  (∀ (i : nat) prev e,
     entries !! i = Some prev → entries !! S i = Some e →
     off e = add64 (off prev) (rp_Size (rp prev))) →
  Forall (λ e, 0 ≤ rp_Size (rp e)) entries →
  totalSize entries ≤ MaxInt64 →
  ∀ (i : nat) e, entries !! i = Some e → off e = totalSize (take i entries).
Proof.
  intros Hfirst Hnext Hall Hmax.
  induction i as [|i IH]; intros e He.
  - rewrite take_0. apply Hfirst. exact He.
  - destruct (entries !! i) as [prev|] eqn:Hprev.
    2:{ apply lookup_ge_None in Hprev. apply lookup_lt_Some in He. lia. }
    rewrite (Hnext i prev e Hprev He), (IH prev eq_refl).
    rewrite (totalSize_take_S _ _ _ Hprev).
    apply add64_exact.
    pose proof (totalSize_take_le entries (S i) Hall) as Hle.
    rewrite (totalSize_take_S _ _ _ Hprev) in Hle.
    unfold int64, MinInt64, MaxInt64 in *. lia.
Qed.

Lemma Invariants_prefix_sums mrp :
  Invariants mrp →
  Forall (λ e, 0 ≤ rp_Size (rp e)) (rps mrp) →
  totalSize (rps mrp) ≤ MaxInt64 →
  ∀ (i : nat) e, rps mrp !! i = Some e → off e = totalSize (take i (rps mrp)).
Proof.
  intros [Hfirst Hnext _ _] Hall Hmax.
  apply prefix_sums; assumption.
Qed.

Lemma Invariants_size mrp :
  Invariants mrp →
  Forall (λ e, 0 ≤ rp_Size (rp e)) (rps mrp) →
  totalSize (rps mrp) ≤ MaxInt64 →
  size mrp = totalSize (rps mrp).
Proof.
  intros [_ _ Hsum _] Hall Hmax.
  rewrite <- Hsum. apply sumSizes_exact; assumption.
Qed.

(** X3.  When no wrapped proxy has a negative size and the sizes add up to
    an [int64], the invariants say what the data model intends: each
    recorded offset is the sum of the sizes of the proxies before it, the
    size of the proxy is the sum of all sizes, and every wrapped proxy covers
    a range that lies within the content. *)
Theorem offsets_are_prefix_sums mrp :
  Invariants mrp →
  Forall (λ e, 0 ≤ rp_Size (rp e)) (rps mrp) →
  totalSize (rps mrp) ≤ MaxInt64 →
  size mrp = totalSize (rps mrp)
  ∧ ∀ (i : nat) e,
      rps mrp !! i = Some e →
      off e = totalSize (take i (rps mrp))
      ∧ 0 ≤ off e ∧ off e + rp_Size (rp e) ≤ size mrp.
Proof.
  intros Hinv Hall Hmax.
  pose proof (Invariants_size mrp Hinv Hall Hmax) as Hsize.
  split; [exact Hsize|]. intros i e He.
  pose proof (Invariants_prefix_sums mrp Hinv Hall Hmax i e He) as Hoff.
  split; [exact Hoff|].
  pose proof (totalSize_take_le (rps mrp) i Hall) as [Hlo _].
  pose proof (totalSize_take_le (rps mrp) (S i) Hall) as [_ Hhi].
  rewrite (totalSize_take_S _ _ _ He) in Hhi.
  rewrite Hoff, Hsize. lia.
Qed.

(** *** The binary search *)

(** On offsets in non-decreasing order, [upperBound] returns the index of
    the first wrapped proxy whose offset is greater than the given one, and
    the number of proxies if there is none. *)
Lemma upperBound_sorted mrp (o : Z) :
  (∀ (i j : nat) ei ej,
     (i ≤ j)%nat → rps mrp !! i = Some ei → rps mrp !! j = Some ej →
     off ei ≤ off ej) →
  ∃ r, upperBound mrp o = Ok r
       ∧ 0 ≤ r ≤ len (rps mrp)
       ∧ (∀ (i : nat) e, rps mrp !! i = Some e → Z.of_nat i < r → off e ≤ o)
       ∧ (∀ (i : nat) e, rps mrp !! i = Some e → r ≤ Z.of_nat i → o < off e).
Proof.
  intros Hsorted. unfold upperBound, sort_Search.
  set (g := λ h : Z,
         match rps mrp !! Z.to_nat h with
         | Some e => o <? off e
         | None => false
         end).
  assert (Hlookup : ∀ h, 0 ≤ h < len (rps mrp) →
                         ∃ e, rps mrp !! Z.to_nat h = Some e).
  { intros h Hh. apply lookup_lt_is_Some_2. unfold len in Hh. lia. }
  destruct (Search_loop_spec
              (λ i, e ← index (rps mrp) i; Ok (o <? off e)) g
              (len (rps mrp))) with (fuel := Z.to_nat (len (rps mrp)))
              (i := 0) (j := len (rps mrp))
    as (r & Hr & Hrange & Hfalse & Htrue).
  - intros h Hh. unfold index, g.
    destruct (Hlookup h Hh) as [e He]. rewrite He.
    replace ((h <? 0) || (len (rps mrp) <=? h)) with false; [reflexivity|].
    symmetry. apply orb_false_iff. split; [apply Z.ltb_ge|apply Z.leb_gt]; lia.
  - intros h h' Hh Hh'. unfold g.
    destruct (Hlookup h ltac:(lia)) as [e He].
    destruct (Hlookup h' ltac:(lia)) as [e' He']. rewrite He, He'.
    intros Hlt. apply Z.ltb_lt in Hlt. apply Z.ltb_lt.
    assert (off e ≤ off e'); [|lia].
    eapply (Hsorted (Z.to_nat h) (Z.to_nat h')); [lia|exact He|exact He'].
  - unfold len. lia.
  - lia.
  - lia.
  - intros h Hh. lia.
  - intros h Hh. lia.
  - exists r. split; [exact Hr|]. split; [exact Hrange|]. split.
    + intros i e He Hi. specialize (Hfalse (Z.of_nat i) ltac:(lia)).
      unfold g in Hfalse. rewrite Nat2Z.id, He in Hfalse.
      apply Z.ltb_ge in Hfalse. exact Hfalse.
    + intros i e He Hi.
      assert (Hlt : Z.of_nat i < len (rps mrp)).
      { apply lookup_lt_Some in He. unfold len. lia. }
      specialize (Htrue (Z.of_nat i) ltac:(lia)).
      unfold g in Htrue. rewrite Nat2Z.id, He in Htrue.
      apply Z.ltb_lt in Htrue. exact Htrue.
Qed.

(** Offsets that are prefix sums of non-negative sizes are in
    non-decreasing order. *)
Lemma prefix_sums_sorted entries :
  Forall (λ e, 0 ≤ rp_Size (rp e)) entries →
  (∀ (i : nat) e, entries !! i = Some e → off e = totalSize (take i entries)) →
  ∀ (i j : nat) ei ej,
    (i ≤ j)%nat → entries !! i = Some ei → entries !! j = Some ej →
    off ei ≤ off ej.
Proof.
  intros Hall Hprefix i j ei ej Hij Hi Hj.
  rewrite (Hprefix i ei Hi), (Hprefix j ej Hj).
  replace (take i entries) with (take i (take j entries))
    by (rewrite take_take; f_equal; lia).
  apply totalSize_take_le. apply Forall_take. exact Hall.
Qed.

(** X4.  For an offset within the content, the index before the one that
    [upperBound] returns is that of the wrapped proxy whose range contains
    the offset, as [ReadAt] assumes; wrapped proxies of size zero are passed
    over. *)
Theorem upperBound_locates_offset mrp (o : Z) :
  Invariants mrp →
  Forall (λ e, 0 ≤ rp_Size (rp e)) (rps mrp) →
  totalSize (rps mrp) ≤ MaxInt64 →
  0 ≤ o < Size mrp →
  ∃ r e, upperBound mrp o = Ok r
         ∧ index (rps mrp) (r - 1) = Ok e
         ∧ off e ≤ o < off e + rp_Size (rp e).
Proof.
  intros Hinv Hall Hmax Ho. unfold Size in Ho.
  pose proof (Invariants_prefix_sums mrp Hinv Hall Hmax) as Hprefix.
  pose proof (Invariants_size mrp Hinv Hall Hmax) as Hsize.
  destruct (upperBound_sorted mrp o (prefix_sums_sorted _ Hall Hprefix))
    as (r & Hr & Hrange & Hbefore & Hafter).
  assert (H1 : 1 ≤ r).
  { destruct (Z.le_gt_cases 1 r) as [?|Hlt]; [assumption|].
    destruct (rps mrp) as [|e0 rest] eqn:Hrps.
    - rewrite Hsize in Ho. unfold totalSize in Ho. simpl in Ho. lia.
    - specialize (Hafter 0%nat e0 eq_refl ltac:(lia)).
      specialize (Hprefix 0%nat e0 eq_refl). rewrite take_0 in Hprefix.
      unfold totalSize in Hprefix. simpl in Hprefix. lia. }
  set (i := Z.to_nat (r - 1)).
  assert (Hi : (i < length (rps mrp))%nat) by (unfold len in Hrange; lia).
  destruct (lookup_lt_is_Some_2 _ _ Hi) as [e He].
  exists r, e. split; [exact Hr|]. split.
  - unfold index.
    replace ((r - 1 <? 0) || (len (rps mrp) <=? r - 1)) with false.
    2:{ symmetry. apply orb_false_iff.
        split; [apply Z.ltb_ge|apply Z.leb_gt]; lia. }
    fold i. rewrite He. reflexivity.
  - split; [apply (Hbefore i e He); lia|].
    rewrite (Hprefix i e He), <- (totalSize_take_S _ _ _ He).
    destruct (rps mrp !! S i) as [next|] eqn:Hnext.
    + rewrite <- (Hprefix _ next Hnext).
      apply (Hafter (S i) next Hnext). lia.
    + apply lookup_ge_None in Hnext.
      rewrite take_ge by lia. lia.
Qed.

(** *** Reading from one wrapped proxy *)

(** X5.  Whenever [readFromOne] returns, what its comment requires and
    guarantees is the case: the index is in range and the offset lies in the
    range of that wrapped proxy; the error is never [io.EOF]; and with a nil
    error the buffer was filled or the read went up to the end of the
    wrapped proxy. *)
Theorem readFromOne_contract mrp (i : Z) p (o : Z) mrp' p' n err :
  readFromOne mrp i p o = Ok (mrp', p', n, err) →
  ∃ e, index (rps mrp) i = Ok e
       ∧ off e ≤ o < add64 (off e) (rp_Size (rp e))
       ∧ err ≠ Some io_EOF
       ∧ (err = None →
          n = len p ∨ add64 o n = add64 (off e) (rp_Size (rp e))).
Proof.
  unfold readFromOne. intros Hr.
  destruct (negb (i <? len (rps mrp))); [discriminate|].
  destruct (index (rps mrp) i) as [e|] eqn:Hi; simpl in Hr; [|discriminate].
  exists e. split; [reflexivity|].
  destruct ((off e <=? o) && (o <? add64 (off e) (rp_Size (rp e)))) eqn:Hrange;
    simpl in Hr; [|discriminate].
  apply andb_true_iff in Hrange as [Hlo Hhi].
  apply Z.leb_le in Hlo. apply Z.ltb_lt in Hhi.
  split; [lia|].
  destruct (rp_ReadAt (rp e) p (sub64 o (off e)))
    as [[[[wrapped' q] m] err0]|]; simpl in Hr; [|discriminate].
  match type of Hr with
  | (let '(_, _) := ?c in _) = _ => destruct c as [n1 err1]
  end.
  unfold readFromOne_guarantees in Hr.
  destruct (is_nil err1
            && negb ((n1 =? len p)
                     || (add64 o n1 =? add64 (off e) (rp_Size (rp e)))))
    eqn:Hfull; simpl in Hr; [discriminate|].
  destruct (is_EOF err1) eqn:Heof; simpl in Hr; [discriminate|].
  injection Hr as _ _ <- <-. split.
  - intros ->. discriminate.
  - intros ->. simpl in Hfull. apply negb_false_iff, orb_true_iff in Hfull.
    destruct Hfull as [H1|H2]; [left; apply Z.eqb_eq, H1|].
    right. apply Z.eqb_eq, H2.
Qed.

(** X6.  [readFromOne] cannot serve anything from a wrapped proxy of size
    zero: no offset lies in its range, so the call panics.  A read that runs
    on into such a proxy therefore panics instead of moving on. *)
Theorem readFromOne_empty_proxy_panics mrp (i : Z) e p (o : Z) :
  index (rps mrp) i = Ok e → rp_Size (rp e) = 0 → int64 (off e) →
  readFromOne mrp i p o
  = Panic "Offset %v not in range [%v, %v)"
      [argInt o; argInt (off e); argInt (off e)].
Proof.
  intros Hi Hsize Hoff. unfold readFromOne.
  assert (Hlen : (i <? len (rps mrp)) = true).
  { unfold index in Hi.
    destruct ((i <? 0) || (len (rps mrp) <=? i)) eqn:E; [discriminate|].
    apply orb_false_iff in E as [_ E]. apply Z.leb_gt in E.
    apply Z.ltb_lt. exact E. }
  rewrite Hlen, Hi. simpl. rewrite Hsize.
  rewrite add64_exact by (rewrite Z.add_0_r; exact Hoff).
  rewrite Z.add_0_r.
  replace ((off e <=? o) && (o <? off e)) with false; [reflexivity|].
  symmetry. apply andb_false_iff.
  destruct (Z.le_gt_cases (off e) o).
  - right. apply Z.ltb_ge. lia.
  - left. apply Z.leb_gt. lia.
Qed.

(** *** Reads without a top-level lease *)

(** X7.  A read into an empty buffer at an offset within the content returns
    at once: no bytes, no error, and no wrapped proxy is touched. *)
Theorem ReadAt_empty_buffer mrp (o : Z) :
  lease mrp = None →
  Invariants mrp →
  Forall (λ e, 0 ≤ rp_Size (rp e)) (rps mrp) →
  totalSize (rps mrp) ≤ MaxInt64 →
  0 ≤ o < Size mrp →
  ReadAt mrp [] o = Ok (mrp, [], 0, None).
Proof.
  intros Hlease Hinv Hall Hmax Ho.
  pose proof (Invariants_prefix_sums mrp Hinv Hall Hmax) as Hprefix.
  pose proof (Invariants_size mrp Hinv Hall Hmax) as Hsize.
  rewrite ReadAt_without_lease by exact Hlease. unfold readAtWrapped.
  replace (o <? 0) with false by (symmetry; apply Z.ltb_ge; lia).
  replace (Size mrp <=? o) with false by (symmetry; apply Z.leb_gt; lia).
  destruct (upperBound_sorted mrp o
              (prefix_sums_sorted _ Hall Hprefix))
    as (r & -> & Hrange & Hbefore & Hafter). simpl.
  assert (Hr : 1 ≤ r).
  { destruct (rps mrp) as [|e0 rest] eqn:Hrps.
    - unfold Size in Ho. rewrite Hsize in Ho. simpl in Ho. lia.
    - destruct (Z.le_gt_cases 1 r) as [?|Hlt]; [assumption|].
      specialize (Hafter 0%nat e0 eq_refl ltac:(lia)).
      specialize (Hprefix 0%nat e0 eq_refl). rewrite take_0 in Hprefix.
      simpl in Hprefix. lia. }
  replace ((r - 1 <? 0) || (len (rps mrp) <=? r - 1)) with false.
  2:{ symmetry. apply orb_false_iff.
      split; [apply Z.ltb_ge|apply Z.leb_gt]; lia. }
  destruct (Z.to_nat (len (rps mrp) - (r - 1))); reflexivity.
Qed.

(** *** What a read returns when the wrapped proxies implement ReadAt
    properly *)

Context `{!HasBytes T, !ProperReadAt T W}.

Lemma wrappedBytes_cons e entries :
  wrappedBytes (e :: entries) = bytesOf (rp e) ++ wrappedBytes entries.
Proof. reflexivity. Qed.

Lemma totalSize_cons e entries :
  totalSize (e :: entries) = rp_Size (rp e) + totalSize entries.
Proof. reflexivity. Qed.

Lemma len_wrappedBytes entries :
  Forall (λ e, proper (rp e)) entries →
  len (wrappedBytes entries) = totalSize entries.
Proof.
  induction 1 as [|e entries He Hall IH]; [reflexivity|].
  rewrite wrappedBytes_cons, totalSize_cons, <- IH, (proper_Size _ He).
  unfold len. rewrite length_app. lia.
Qed.

(** One round of the loop of [ReadAt] on a proper wrapped proxy of positive
    size: [readFromOne] returns without error what [io.ReaderAt] asks for on
    the bytes of that proxy, and either the buffer is full or the proxy is
    exhausted. *)
Lemma readFromOne_proper mrp pre e rest p (o : Z) :
  rps mrp = pre ++ e :: rest →
  proper (rp e) →
  0 ≤ off e → off e + rp_Size (rp e) ≤ MaxInt64 →
  off e ≤ o < off e + rp_Size (rp e) →
  ∃ t',
    readFromOne mrp (Z.of_nat (length pre)) p o
    = Ok (set_wrapped mrp (Z.of_nat (length pre)) t',
          (readerAt (bytesOf (rp e)) p (o - off e)).1.1,
          (readerAt (bytesOf (rp e)) p (o - off e)).1.2, None)
    ∧ proper t' ∧ bytesOf t' = bytesOf (rp e).
Proof.
  intros Hrps Hproper Hoff Hmax Ho.
  pose proof (proper_Size _ Hproper) as Hsize.
  assert (Hδ : 0 ≤ o - off e < len (bytesOf (rp e))) by lia.
  destruct (proper_ReadAt (rp e) p (o - off e) Hproper Hδ)
    as (t' & err & Hread & Hproper' & Hbytes & Herr).
  assert (Hcases :
    readerAt (bytesOf (rp e)) p (o - off e)
    = (take (length p) (drop (Z.to_nat (o - off e)) (bytesOf (rp e))),
       len p, None)
    ∨ (len (bytesOf (rp e)) - (o - off e) < len p
       ∧ ∃ p1, readerAt (bytesOf (rp e)) p (o - off e)
               = (p1, len (bytesOf (rp e)) - (o - off e), Some io_EOF))).
  { destruct (Z.le_gt_cases (len p) (len (bytesOf (rp e)) - (o - off e)))
      as [Hfit|Hshort].
    - left. apply (readerAt_within _ [] p (o - off e)); lia.
    - right. split; [exact Hshort|]. eexists.
      apply (readerAt_beyond _ [] p (o - off e)); lia. }
  remember (readerAt (bytesOf (rp e)) p (o - off e)) as ra eqn:Hra.
  clear Hra.
  exists t'. split; [|split; assumption].
  unfold readFromOne.
  assert (Hlen : len (rps mrp) = Z.of_nat (length pre) + 1 + len rest).
  { rewrite Hrps. unfold len. rewrite length_app. simpl. lia. }
  replace (Z.of_nat (length pre) <? len (rps mrp)) with true
    by (symmetry; apply Z.ltb_lt; unfold len in *; lia).
  assert (Hindex : index (rps mrp) (Z.of_nat (length pre)) = Ok e).
  { unfold index.
    replace ((Z.of_nat (length pre) <? 0)
             || (len (rps mrp) <=? Z.of_nat (length pre))) with false.
    2:{ symmetry. apply orb_false_iff.
        split; [apply Z.ltb_ge|apply Z.leb_gt]; unfold len in *; lia. }
    rewrite Nat2Z.id, Hrps, list_lookup_middle by reflexivity. reflexivity. }
  rewrite Hindex. simpl.
  rewrite add64_exact by (unfold int64, MinInt64, MaxInt64 in *; lia).
  replace ((off e <=? o) && (o <? off e + rp_Size (rp e))) with true.
  2:{ symmetry. apply andb_true_iff.
      split; [apply Z.leb_le|apply Z.ltb_lt]; lia. }
  simpl.
  rewrite sub64_exact by (unfold int64, MinInt64, MaxInt64 in *; lia).
  rewrite Hread. simpl. unfold readFromOne_guarantees.
  destruct Hcases as [-> | (Hshort & p1 & ->)]; simpl in *.
  - destruct Herr as [-> | [-> Hend]]; simpl.
    + repeat (rewrite Z.eqb_refl; simpl). reflexivity.
    + rewrite sub64_exact by (unfold int64, MinInt64, MaxInt64 in *; lia).
      replace (len p =? rp_Size (rp e) - (o - off e)) with true
        by (symmetry; apply Z.eqb_eq; lia).
      simpl. repeat (rewrite Z.eqb_refl; simpl). reflexivity.
  - assert (err = Some io_EOF) as ->
      by (destruct Herr as [-> | [-> _]]; reflexivity).
    simpl.
    rewrite sub64_exact by (unfold int64, MinInt64, MaxInt64 in *; lia).
    replace (len (bytesOf (rp e)) - (o - off e)
             =? rp_Size (rp e) - (o - off e)) with true
      by (symmetry; apply Z.eqb_eq; lia).
    simpl.
    rewrite !add64_exact by (unfold int64, MinInt64, MaxInt64 in *; lia).
    replace (o + (len (bytesOf (rp e)) - (o - off e))
             =? off e + rp_Size (rp e)) with true
      by (symmetry; apply Z.eqb_eq; lia).
    rewrite orb_true_r. reflexivity.
Qed.

Lemma readLoop_S (k : nat) mrp filled p (o n : Z) :
  readLoop (S k) mrp filled p o n
  = if 0 <? len p then
      '(mrp', p', wrappedN, wrappedErr) ←
        readFromOne mrp (len (rps mrp) - Z.of_nat (S k)) p o;
      match wrappedErr with
      | Some err => Ok (mrp', filled ++ p', add64 n wrappedN, Some err)
      | None =>
          rest ← sliceFrom p' wrappedN;
          readLoop k mrp' (filled ++ take (Z.to_nat wrappedN) p') rest
            (add64 o wrappedN) (add64 n wrappedN)
      end
    else Ok (mrp, filled ++ p, n, None).
Proof. reflexivity. Qed.

Lemma readLoop_nil (k : nat) mrp filled (o n : Z) :
  readLoop k mrp filled [] o n = Ok (mrp, filled ++ [], n, None).
Proof. destruct k; reflexivity. Qed.

Lemma set_wrapped_middle mrp pre e rest (t' : T) :
  rps mrp = pre ++ e :: rest →
  rps (set_wrapped mrp (Z.of_nat (length pre)) t')
  = pre ++ {| off := off e; rp := t' |} :: rest.
Proof.
  intros Hrps. unfold set_wrapped. simpl. rewrite Hrps, Nat2Z.id.
  rewrite <- (Nat.add_0_r (length pre)) at 1. rewrite alter_app_r.
  reflexivity.
Qed.

(** The loop of [ReadAt] from a wrapped proxy on: with [rest] the proxies
    from the current index on, [s] the offset of the first of them and [o]
    the current offset within it, the loop returns what [io.ReaderAt] asks
    for on the bytes of [rest] at [o - s], appended to what was filled
    before. *)
Lemma readLoop_reads rest :
  ∀ pre mrp filled p (o n s : Z),
    rps mrp = pre ++ rest →
    Forall (λ e, proper (rp e)) (rps mrp) →
    Forall (λ e, 0 < rp_Size (rp e)) rest →
    (∀ (i : nat) e,
       rest !! i = Some e → off e = s + totalSize (take i rest)) →
    0 ≤ s → s + totalSize rest ≤ MaxInt64 →
    s ≤ o →
    (∀ e, head rest = Some e → o < s + rp_Size (rp e)) →
    0 ≤ n → n + len p ≤ MaxInt64 →
    ∃ mrp',
      readLoop (length rest) mrp filled p o n
      = Ok (mrp',
            filled ++ (readerAt (wrappedBytes rest) p (o - s)).1.1,
            n + (readerAt (wrappedBytes rest) p (o - s)).1.2,
            (readerAt (wrappedBytes rest) p (o - s)).2)
      ∧ size mrp' = size mrp ∧ lease mrp' = lease mrp
      ∧ off <$> rps mrp' = off <$> rps mrp
      ∧ (λ e, bytesOf (rp e)) <$> rps mrp'
        = (λ e, bytesOf (rp e)) <$> rps mrp
      ∧ Forall (λ e, proper (rp e)) (rps mrp').
Proof.
  induction rest as [|e rest IH];
    intros pre mrp filled p o n s Hrps Hproper Hpos Hchain Hs Hmax Ho Hhead
      Hn Hnp.
  - exists mrp. split; [|auto].
    unfold readerAt, wrappedBytes. simpl.
    rewrite drop_nil, take_nil. simpl. rewrite Z.add_0_r, drop_0.
    change (len (@nil byte)) with 0.
    destruct (0 <? len p); reflexivity.
  - destruct (0 <? len p) eqn:Hp.
    2:{ apply Z.ltb_ge in Hp. assert (p = []) as ->.
        { destruct p; [reflexivity|]. unfold len in Hp. simpl in Hp. lia. }
        exists mrp. split; [|auto]. rewrite readLoop_nil.
        unfold readerAt. simpl. rewrite Z.add_0_r. reflexivity. }
    apply Z.ltb_lt in Hp.
    assert (Hoff : off e = s).
    { rewrite (Hchain 0%nat e eq_refl), take_0. unfold totalSize. simpl. lia. }
    apply Forall_cons in Hpos as [Hpos_e Hpos_rest].
    assert (Hproper_e : proper (rp e)).
    { rewrite Hrps in Hproper. apply Forall_app in Hproper as [_ Hproper].
      inversion Hproper; assumption. }
    pose proof (proper_Size _ Hproper_e) as Hsize.
    rewrite totalSize_cons in Hmax.
    assert (Hrest_nonneg : 0 ≤ totalSize rest).
    { apply totalSize_nonneg. eapply Forall_impl; [exact Hpos_rest|].
      simpl. intros. lia. }
    specialize (Hhead e eq_refl).
    destruct (readFromOne_proper mrp pre e rest p o Hrps Hproper_e)
      as (t' & Hone & Hproper' & Hbytes); [lia..|].
    set (mrp1 := set_wrapped mrp (Z.of_nat (length pre)) t') in *.
    assert (Hrps1 : rps mrp1 = pre ++ {| off := off e; rp := t' |} :: rest)
      by (apply set_wrapped_middle; exact Hrps).
    assert (Hproper1 : Forall (λ e, proper (rp e)) (rps mrp1)).
    { rewrite Hrps1. rewrite Hrps in Hproper.
      apply Forall_app in Hproper as [Hpre Hrest].
      apply Forall_app. split; [exact Hpre|].
      inversion Hrest; subst. constructor; assumption. }
    assert (Hoffs1 : off <$> rps mrp1 = off <$> rps mrp).
    { rewrite Hrps1, Hrps, !fmap_app. reflexivity. }
    assert (Hbytes1 : (λ e, bytesOf (rp e)) <$> rps mrp1
                      = (λ e, bytesOf (rp e)) <$> rps mrp).
    { rewrite Hrps1, Hrps, !fmap_app. simpl. rewrite Hbytes. reflexivity. }
    change (length (e :: rest)) with (S (length rest)).
    rewrite readLoop_S.
    replace (0 <? len p) with true by (symmetry; apply Z.ltb_lt; exact Hp).
    replace (len (rps mrp) - Z.of_nat (S (length rest)))
      with (Z.of_nat (length pre)).
    2:{ rewrite Hrps. unfold len. rewrite length_app. simpl. lia. }
    rewrite wrappedBytes_cons.
    set (B := bytesOf (rp e)) in *. set (D := wrappedBytes rest).
    destruct (Z.le_gt_cases (len p) (len B - (o - off e))) as [Hfit|Hshort].
    + (* the buffer is filled from this proxy *)
      destruct (readerAt_within B D p (o - off e) ltac:(lia) Hfit)
        as [Hwhole Hthis].
      rewrite Hoff in Hwhole, Hthis, Hone. rewrite Hwhole, Hthis.
      rewrite Hthis in Hone. simpl in Hone. rewrite Hone. simpl.
      set (chunk := take (length p) (drop (Z.to_nat (o - s)) B)).
      assert (Hchunk : length chunk = length p).
      { unfold chunk. rewrite length_take, length_drop.
        unfold len in Hfit. lia. }
      unfold sliceFrom.
      replace ((len p <? 0) || (len chunk <? len p)) with false.
      2:{ symmetry. apply orb_false_iff.
          split; [apply Z.ltb_ge|apply Z.ltb_ge]; unfold len; lia. }
      simpl.
      rewrite drop_ge by (unfold len; lia).
      rewrite take_ge by (unfold len; lia).
      rewrite readLoop_nil, app_nil_r.
      rewrite add64_exact by (unfold int64, MinInt64, MaxInt64 in *; lia).
      exists mrp1. split; [reflexivity|]. auto.
    + (* the read runs on into the next proxy *)
      destruct (readerAt_beyond B D p (o - off e) ltac:(lia) Hshort)
        as [Hthis Hwhole].
      rewrite Hoff in Hwhole, Hthis, Hone. rewrite Hwhole.
      rewrite Hthis in Hone. simpl in Hone. rewrite Hone. simpl.
      set (d := Z.to_nat (o - s)) in *.
      set (n1 := (length B - d)%nat) in *.
      assert (Hleft : length (drop d B) = n1)
        by (rewrite length_drop; reflexivity).
      assert (Hn1 : Z.of_nat n1 = len B - (o - s))
        by (unfold n1, d; unfold len in Hsize |- *; lia).
      rewrite <- Hn1 in *.
      unfold sliceFrom.
      replace ((Z.of_nat n1 <? 0)
               || (len (drop d B ++ drop n1 p) <? Z.of_nat n1)) with false.
      2:{ symmetry. apply orb_false_iff.
          split; apply Z.ltb_ge; unfold len; [lia|].
          rewrite length_app, Hleft. lia. }
      simpl. rewrite Nat2Z.id.
      rewrite drop_app_length' by (symmetry; exact Hleft).
      rewrite take_app_length' by (symmetry; exact Hleft).
      rewrite !add64_exact by (unfold int64, MinInt64, MaxInt64 in *; lia).
      assert (Hlen_rest : len (drop n1 p) = len p - Z.of_nat n1).
      { unfold len in *. rewrite length_drop. lia. }
      destruct (IH (pre ++ [{| off := off e; rp := t' |}]) mrp1
                  (filled ++ drop d B) (drop n1 p) (o + Z.of_nat n1)
                  (n + Z.of_nat n1) (s + rp_Size (rp e)))
        as (mrp' & Hloop & Hsize' & Hlease' & Hoffs' & Hbytes' & Hproper'').
      * rewrite Hrps1, <- app_assoc. reflexivity.
      * exact Hproper1.
      * exact Hpos_rest.
      * intros i x Hx. rewrite (Hchain (S i) x Hx).
        change (take (S i) (e :: rest)) with (e :: take i rest).
        rewrite totalSize_cons. lia.
      * lia.
      * lia.
      * lia.
      * intros x Hx. destruct rest as [|y rest']; [discriminate|].
        injection Hx as <-. inversion Hpos_rest; subst. lia.
      * lia.
      * lia.
      * replace (o + Z.of_nat n1 - (s + rp_Size (rp e))) with 0 in Hloop
          by lia.
        fold D in Hloop. rewrite Hloop.
        exists mrp'. split.
        { rewrite <- app_assoc, Z.add_assoc. reflexivity. }
        rewrite Hsize', Hlease', Hoffs', Hbytes'. auto.
Qed.

Lemma wrappedBytes_app entries1 entries2 :
  wrappedBytes (entries1 ++ entries2)
  = wrappedBytes entries1 ++ wrappedBytes entries2.
Proof. unfold wrappedBytes. rewrite fmap_app, concat_app. reflexivity. Qed.

(** X8.  A multi read proxy reads as the concatenation of its wrapped
    proxies.  Without a top-level lease, with wrapped proxies of positive
    size that implement ReadAt properly, a read at an offset within the
    content fills the buffer with the bytes of the concatenation from that
    offset on, across the boundaries between the proxies, and reports
    [io.EOF] exactly when the content ends before the buffer is full.  The
    proxy is left with the same offsets and bytes. *)
Theorem ReadAt_reads_concatenation mrp p (o : Z) :
  lease mrp = None →
  Invariants mrp →
  Forall (λ e, proper (rp e)) (rps mrp) →
  Forall (λ e, 0 < rp_Size (rp e)) (rps mrp) →
  totalSize (rps mrp) ≤ MaxInt64 →
  0 ≤ o < Size mrp →
  len p ≤ MaxInt64 →
  ∃ mrp',
    ReadAt mrp p o
    = Ok (mrp',
          (readerAt (wrappedBytes (rps mrp)) p o).1.1,
          (readerAt (wrappedBytes (rps mrp)) p o).1.2,
          (readerAt (wrappedBytes (rps mrp)) p o).2)
    ∧ size mrp' = size mrp ∧ lease mrp' = lease mrp
    ∧ off <$> rps mrp' = off <$> rps mrp
    ∧ (λ e, bytesOf (rp e)) <$> rps mrp'
      = (λ e, bytesOf (rp e)) <$> rps mrp
    ∧ Forall (λ e, proper (rp e)) (rps mrp').
Proof.
  intros Hlease Hinv Hproper Hpos Hmax Ho Hp.
  assert (Hall : Forall (λ e, 0 ≤ rp_Size (rp e)) (rps mrp)).
  { eapply Forall_impl; [exact Hpos|]. simpl. intros. lia. }
  pose proof (Invariants_prefix_sums mrp Hinv Hall Hmax) as Hprefix.
  pose proof (Invariants_size mrp Hinv Hall Hmax) as Hsize.
  unfold Size in Ho.
  rewrite ReadAt_without_lease by exact Hlease. unfold readAtWrapped, Size.
  replace (o <? 0) with false by (symmetry; apply Z.ltb_ge; lia).
  replace (size mrp <=? o) with false by (symmetry; apply Z.leb_gt; lia).
  destruct (upperBound_sorted mrp o
              (prefix_sums_sorted _ Hall Hprefix))
    as (r & -> & Hrange & Hbefore & Hafter). simpl.
  assert (Hr : 1 ≤ r).
  { destruct (rps mrp) as [|e0 rest0] eqn:Hrps.
    - rewrite Hsize in Ho. unfold totalSize in Ho. simpl in Ho. lia.
    - destruct (Z.le_gt_cases 1 r) as [?|Hlt]; [assumption|].
      specialize (Hafter 0%nat e0 eq_refl ltac:(lia)).
      specialize (Hprefix 0%nat e0 eq_refl). rewrite take_0 in Hprefix.
      unfold totalSize in Hprefix. simpl in Hprefix. lia. }
  replace ((r - 1 <? 0) || (len (rps mrp) <=? r - 1)) with false.
  2:{ symmetry. apply orb_false_iff.
      split; [apply Z.ltb_ge|apply Z.leb_gt]; lia. }
  set (i := Z.to_nat (r - 1)).
  assert (Hi : (i < length (rps mrp))%nat) by (unfold i, len in *; lia).
  destruct (lookup_lt_is_Some_2 _ _ Hi) as [e He].
  set (pre := take i (rps mrp)). set (rest := drop i (rps mrp)).
  assert (Hsplit : rps mrp = pre ++ rest)
    by (symmetry; apply take_drop).
  assert (Hrest : rest = e :: drop (S i) (rps mrp))
    by (apply drop_S; exact He).
  assert (Hs : off e = totalSize pre) by (apply Hprefix; exact He).
  assert (Htotal : totalSize (rps mrp) = totalSize pre + totalSize rest).
  { rewrite Hsplit at 1. apply totalSize_app. }
  assert (Hpre_nonneg : 0 ≤ totalSize pre).
  { apply totalSize_nonneg, Forall_take. exact Hall. }
  replace (Z.to_nat (len (rps mrp) - (r - 1))) with (length rest).
  2:{ unfold rest. rewrite length_drop. unfold i, len. lia. }
  destruct (readLoop_reads rest pre mrp [] p o 0 (off e))
    as (mrp' & Hloop & Hpost); try assumption.
  - apply Forall_drop. exact Hpos.
  - intros j x Hx. unfold rest in Hx. rewrite lookup_drop in Hx.
    rewrite (Hprefix _ x Hx), Hs.
    rewrite <- (take_take_drop (rps mrp) i j), totalSize_app. reflexivity.
  - lia.
  - lia.
  - apply (Hbefore i e He). unfold i. lia.
  - intros x Hx. rewrite Hrest in Hx. injection Hx as <-.
    rewrite Hs. unfold pre. rewrite <- (totalSize_take_S _ _ _ He).
    destruct (rps mrp !! S i) as [next|] eqn:Hnext.
    + rewrite <- (Hprefix _ next Hnext).
      apply (Hafter (S i) next Hnext). unfold i. lia.
    + apply lookup_ge_None in Hnext.
      rewrite take_ge by lia. lia.
  - reflexivity.
  - exists mrp'. split; [|exact Hpost].
    assert (Hskip :
      readerAt (wrappedBytes (rps mrp)) p o
      = readerAt (wrappedBytes rest) p (o - off e)).
    { rewrite Hsplit at 1. rewrite wrappedBytes_app.
      replace o with (len (wrappedBytes pre) + (o - off e)) at 1.
      - apply readerAt_skip.
        assert (off e ≤ o) by (apply (Hbefore i e He); unfold i; lia). lia.
      - rewrite len_wrappedBytes by (apply Forall_take; exact Hproper).
        lia. }
    rewrite Hloop, <- Hskip. reflexivity.
Qed.

(** *** Construction *)

Lemma wrapRefreshers_wrapped (fl : F) (refreshers : list R) :
  ∀ wrappedProxies (sz : Z),
  rp <$> (wrapRefreshers fl refreshers wrappedProxies sz).1
  = (rp <$> wrappedProxies) ++ ((λ r, NewReadProxy fl r None) <$> refreshers)
  ∧ (wrapRefreshers fl refreshers wrappedProxies sz).2
    = foldl (λ sum r, add64 sum (rp_Size (NewReadProxy fl r None)))
        sz refreshers.
Proof.
  induction refreshers as [|r refreshers IH]; intros acc sz; simpl.
  - rewrite app_nil_r. split; reflexivity.
  - destruct (IH (acc ++ [{| off := sz; rp := NewReadProxy fl r None |}])
                (add64 sz (rp_Size (NewReadProxy fl r None)))) as [Hrp Hsz].
    rewrite Hrp, Hsz, fmap_app, <- app_assoc. split; reflexivity.
Qed.

(** X9.  [NewMultiReadProxy] wraps one read proxy per refresher, in the
    order given and each created without a lease; the size it records is the
    sum of their sizes in [int64] arithmetic.  It panics in one case only: a
    lease whose size is not that sum. *)
Theorem NewMultiReadProxy_wraps_in_order (fl : F) (refreshers : list R) rl :
  match NewMultiReadProxy fl refreshers rl with
  | Ok mrp =>
      rp <$> rps mrp = (λ r, NewReadProxy fl r None) <$> refreshers
      ∧ size mrp
        = foldl (λ sum r, add64 sum (rp_Size (NewReadProxy fl r None)))
            0 refreshers
      ∧ leaser mrp = fl ∧ lease mrp = rl ∧ destroyed mrp = false
  | Panic format args =>
      ∃ l, rl = Some l
           ∧ rl_Size l
             ≠ foldl (λ sum r, add64 sum (rp_Size (NewReadProxy fl r None)))
                 0 refreshers
           ∧ args = [argInt (rl_Size l);
                     argInt (foldl (λ sum r,
                               add64 sum (rp_Size (NewReadProxy fl r None)))
                               0 refreshers);
                     argInt (len refreshers)]
  end.
Proof.
  unfold NewMultiReadProxy.
  destruct (wrapRefreshers_wrapped fl refreshers [] 0) as [Hrp Hsz].
  destruct (wrapRefreshers fl refreshers [] 0) as [ps sz].
  simpl in Hrp, Hsz. subst sz.
  destruct rl as [l|]; simpl.
  - destruct (rl_Size l =? _) eqn:E; simpl.
    + repeat split. exact Hrp.
    + apply Z.eqb_neq in E. exists l. repeat split. exact E.
  - repeat split. exact Hrp.
Qed.

(** The checks of [CheckInvariants] on a live proxy whose offsets and sizes
    satisfy the invariants come down to the one on negative sizes. *)
Lemma CheckInvariants_live mrp :
  destroyed mrp = false → Invariants mrp →
  CheckInvariants mrp
  = match list_find (λ x, rp_Size (rp x) < 0) (rps mrp) with
    | Some (_, x) => Panic "Negative size: %v" [argInt (rp_Size (rp x))]
    | None => Ok ()
    end.
Proof.
  intros Hd [Hfirst Hnext Hsum Hlease]. unfold CheckInvariants. rewrite Hd.
  assert (H0 : match rps mrp with
               | first :: _ =>
                   if negb (off first =? 0)
                   then Panic "Unexpected starting point: %v"
                          [argInt (off first)]
                   else Ok ()
               | [] => Ok ()
               end = Ok ()).
  { destruct (rps mrp) as [|first rest]; [reflexivity|].
    rewrite (Hfirst first eq_refl). reflexivity. }
  rewrite H0. simpl.
  destruct (list_find _ (rps mrp)) as [[j x]|]; simpl; [reflexivity|].
  replace (offsetsIndexed (rps mrp)) with true
    by (symmetry; apply offsetsIndexed_spec; exact Hnext).
  simpl. rewrite Hsum, Z.eqb_refl. simpl.
  destruct (lease mrp) as [l|] eqn:Hl; [|reflexivity].
  rewrite <- (Hlease l eq_refl), Z.eqb_refl. reflexivity.
Qed.

(** X10.  A proxy fresh from [NewMultiReadProxy] passes its own
    [CheckInvariants] exactly when none of the wrapped proxies reports a
    negative size. *)
Theorem fresh_proxy_CheckInvariants (fl : F) (refreshers : list R) rl mrp :
  NewMultiReadProxy fl refreshers rl = Ok mrp →
  (CheckInvariants mrp = Ok ()
   ↔ Forall (λ r, 0 ≤ rp_Size (NewReadProxy fl r None)) refreshers).
Proof.
  intros Hnew.
  pose proof (NewMultiReadProxy_Invariants _ _ _ _ Hnew) as Hinv.
  assert (Hfields : destroyed mrp = false
                    ∧ rp <$> rps mrp
                      = (λ r, NewReadProxy fl r None) <$> refreshers).
  { revert Hnew. unfold NewMultiReadProxy.
    destruct (wrapRefreshers_wrapped fl refreshers [] 0) as [Hrp _].
    destruct (wrapRefreshers fl refreshers [] 0) as [ps sz].
    destruct rl as [l|]; simpl.
    - destruct (negb _); [discriminate|]. intros [= <-]. split; [reflexivity|].
      exact Hrp.
    - intros [= <-]. split; [reflexivity|]. exact Hrp. }
  destruct Hfields as [Hd Hrps].
  rewrite (CheckInvariants_live mrp Hd Hinv).
  assert (Hall : Forall (λ r, 0 ≤ rp_Size (NewReadProxy fl r None)) refreshers
                 ↔ Forall (λ e, 0 ≤ rp_Size (rp e)) (rps mrp)).
  { transitivity (Forall (λ t : T, 0 ≤ rp_Size t) (rp <$> rps mrp)).
    - rewrite Hrps, Forall_fmap. reflexivity.
    - rewrite Forall_fmap.
    reflexivity. }
  rewrite Hall.
  destruct (list_find _ (rps mrp)) as [[j x]|] eqn:Hfind.
  - apply list_find_Some in Hfind as (Hj & Hneg & _).
    split; [discriminate|]. intros Hnonneg.
    rewrite Forall_lookup in Hnonneg. specialize (Hnonneg _ _ Hj).
    simpl in Hnonneg. lia.
  - apply list_find_None in Hfind. split; [intros _|reflexivity].
    eapply Forall_impl; [exact Hfind|]. simpl. intros. lia.
Qed.

(** *** Upgrade and Destroy *)

Lemma Upgrade_destroyed mrp mrp' rwl (err : option error) :
  Upgrade mrp = Ok (mrp', rwl, err) → destroyed mrp' = true.
Proof.
  intros Hr.
  unfold Upgrade in Hr. simpl in Hr. destruct (lease mrp) as [l|].
  - destruct (rl_Upgrade l) as [[[l1 rwl1] err1]|];
      simpl in Hr; [|discriminate].
    destruct err1 as [e|]; [destruct (is_RevokedError e)|].
    + apply upgradeWrapped_frame in Hr as (_ & _ & Hd & _). exact Hd.
    + injection Hr as <- _ _. reflexivity.
    + injection Hr as <- _ _. reflexivity.
  - apply upgradeWrapped_frame in Hr as (_ & _ & Hd & _). exact Hd.
Qed.

(** X11.  [Upgrade] is destructive whatever its outcome: the proxy it leaves
    behind is marked destroyed, with or without an error, so that its
    [CheckInvariants] panics from then on; its size and the wrapped proxies'
    offsets are still those of before. *)
Theorem Upgrade_marks_destroyed mrp mrp' rwl (err : option error) :
  Upgrade mrp = Ok (mrp', rwl, err) →
  destroyed mrp' = true
  ∧ Size mrp' = Size mrp
  ∧ CheckInvariants mrp' = Panic "Use after destroyed" [].
Proof.
  intros Hr.
  pose proof (Upgrade_destroyed _ _ _ _ Hr) as Hd.
  split; [exact Hd|]. split.
  - unfold Upgrade in Hr. simpl in Hr. unfold Size.
    destruct (lease mrp) as [l|].
    + destruct (rl_Upgrade l) as [[[l1 rwl1] err1]|];
        simpl in Hr; [|discriminate].
      destruct err1 as [e|]; [destruct (is_RevokedError e)|].
      * apply upgradeWrapped_frame in Hr as (Hs & _). exact Hs.
      * injection Hr as <- _ _. reflexivity.
      * injection Hr as <- _ _. reflexivity.
    + apply upgradeWrapped_frame in Hr as (Hs & _). exact Hs.
  - unfold CheckInvariants. rewrite Hd. reflexivity.
Qed.

(** X12.  [Destroy] drops the wrapped proxies and the lease and marks the
    proxy destroyed.  Afterwards [CheckInvariants] panics and a read at an
    offset below the recorded size crashes on the empty list of proxies,
    as intended ("crash early if called again"); but a read at or beyond
    that size still answers [io.EOF], and a second [Destroy] returns. *)
Theorem Destroy_crashes_early mrp mrp' :
  Destroy mrp = Ok mrp' →
  rps mrp' = [] ∧ lease mrp' = None ∧ destroyed mrp' = true
  ∧ size mrp' = size mrp
  ∧ CheckInvariants mrp' = Panic "Use after destroyed" []
  ∧ (∀ p (o : Z), 0 ≤ o < size mrp →
       ReadAt mrp' p o = Panic "Unexpected index: %v" [argInt (-1)])
  ∧ (∀ p (o : Z), 0 ≤ o → size mrp ≤ o →
       ReadAt mrp' p o = Ok (mrp', p, 0, Some io_EOF))
  ∧ Destroy mrp' = Ok mrp'.
Proof.
  unfold Destroy. intros Hr.
  destruct (destroyAll (rps mrp)); simpl in Hr; [|discriminate].
  destruct (match lease mrp with
            | Some l => _ ← rl_Revoke l; Ok ()
            | None => Ok ()
            end); simpl in Hr; [|discriminate].
  injection Hr as <-. simpl. repeat split.
  - intros p o Ho. unfold ReadAt, readAtWrapped, Size. simpl.
    replace (o <? 0) with false by (symmetry; apply Z.ltb_ge; lia).
    replace (size mrp <=? o) with false by (symmetry; apply Z.leb_gt; lia).
    reflexivity.
  - intros p o Hlo Ho. unfold ReadAt, readAtWrapped, Size. simpl.
    replace (o <? 0) with false by (symmetry; apply Z.ltb_ge; lia).
    replace (size mrp <=? o) with true by (symmetry; apply Z.leb_le; lia).
    reflexivity.
Qed.

(** *** Wrapped proxies whose state a read does not change *)

Lemma set_wrapped_index mrp (i : Z) e :
  index (rps mrp) i = Ok e → set_wrapped mrp i (rp e) = mrp.
Proof.
  unfold index. destruct ((i <? 0) || (len (rps mrp) <=? i)); [discriminate|].
  destruct (rps mrp !! Z.to_nat i) as [x|] eqn:Hl; [|discriminate].
  intros [= <-]. unfold set_wrapped, set_rps.
  destruct mrp as [sz fl ps l d]. simpl in *. f_equal.
  apply list_eq. intros j.
  destruct (decide (j = Z.to_nat i)) as [->|Hne].
  - rewrite list_lookup_alter_eq, Hl. destruct x. reflexivity.
  - rewrite list_lookup_alter_ne by congruence. reflexivity.
Qed.

Lemma readFromOne_same mrp (i : Z) p (o : Z) mrp' p' n err :
  (∀ (t t' : T) q (k : Z) q' m (e : option error),
     rp_ReadAt t q k = Ok (t', q', m, e) → t' = t) →
  readFromOne mrp i p o = Ok (mrp', p', n, err) → mrp' = mrp.
Proof.
  unfold readFromOne. intros Hsame Hr.
  destruct (negb (i <? len (rps mrp))); [discriminate|].
  destruct (index (rps mrp) i) as [e|] eqn:Hi; simpl in Hr; [|discriminate].
  destruct (negb _); [discriminate|].
  destruct (rp_ReadAt (rp e) p (sub64 o (off e)))
    as [[[[wrapped' q] m] err0]|] eqn:Hread; simpl in Hr; [|discriminate].
  match type of Hr with
  | (let '(_, _) := ?c in _) = _ => destruct c as [n1 err1]
  end.
  destruct (readFromOne_guarantees _ _ _ _ _ _); simpl in Hr; [|discriminate].
  injection Hr as <- _ _ _.
  apply Hsame in Hread as ->.
  apply set_wrapped_index. exact Hi.
Qed.

Lemma readLoop_same (k : nat) : ∀ mrp filled p (o n : Z) mrp' p' n' err,
  (∀ (t t' : T) q (k : Z) q' m (e : option error),
     rp_ReadAt t q k = Ok (t', q', m, e) → t' = t) →
  readLoop k mrp filled p o n = Ok (mrp', p', n', err) → mrp' = mrp.
Proof.
  induction k as [|k IH]; intros mrp filled p o n mrp' p' n' err Hsame Hr;
    simpl in Hr.
  - destruct (0 <? len p); injection Hr as <- _ _ _; reflexivity.
  - destruct (0 <? len p); [|injection Hr as <- _ _ _; reflexivity].
    destruct (readFromOne mrp _ p o) as [[[[mrp1 p1] n1] err1]|] eqn:Hone;
      simpl in Hr; [|discriminate].
    apply (readFromOne_same _ _ _ _ _ _ _ _ Hsame) in Hone as ->.
    destruct err1 as [e|]; [injection Hr as <- _ _ _; reflexivity|].
    destruct (sliceFrom p1 n1) as [rest|]; simpl in Hr; [|discriminate].
    eapply IH; [exact Hsame|exact Hr].
Qed.

Lemma ReadAt_same mrp p (o : Z) mrp' p' n err :
  (∀ (t t' : T) q (k : Z) q' m (e : option error),
     rp_ReadAt t q k = Ok (t', q', m, e) → t' = t) →
  lease mrp = None → ReadAt mrp p o = Ok (mrp', p', n, err) → mrp' = mrp.
Proof.
  intros Hsame Hlease. rewrite (ReadAt_without_lease mrp p o Hlease).
  unfold readAtWrapped.
  destruct (o <? 0); [intros [= <- _ _ _]; reflexivity|].
  destruct (Size mrp <=? o); [intros [= <- _ _ _]; reflexivity|].
  destruct (upperBound mrp o) as [ub|]; simpl; [|discriminate].
  destruct ((ub - 1 <? 0) || (len (rps mrp) <=? ub - 1)); [discriminate|].
  apply readLoop_same. exact Hsame.
Qed.

(** *** The errors of an upgrade *)

Local Arguments downgradeAndRevoke : simpl never.

(** The errors of [upgradeOne] are those of the three steps, each wrapped
    with the name of its step. *)
Lemma upgradeOne_error (dst : option W) (wrapped wrapped' : T) dst'
    (e : error) :
  upgradeOne dst wrapped = Ok (wrapped', dst', Some e) →
  ∃ e0 : error, e = Errorf "Upgrade: %v" [argError e0]
        ∨ e = Errorf "Seek: %v" [argError e0]
        ∨ e = Errorf "Copy: %v" [argError e0].
Proof.
  unfold upgradeOne.
  destruct (rp_Upgrade wrapped) as [[[wrapped0 src] err0]|];
    simpl; [|discriminate].
  destruct err0 as [e0|]; [intros [= _ _ <-]; eauto|].
  destruct src as [s|]; simpl; [|discriminate].
  destruct (rwl_Seek s 0 0) as [[[s1 pos] errS]|]; simpl; [|discriminate].
  destruct errS as [eS|]; simpl.
  { destruct (downgradeAndRevoke (Some s1)); simpl; [|discriminate].
    intros [= _ _ <-]. eauto. }
  destruct dst as [d|]; simpl.
  - destruct (io_Copy d s1) as [[[[d1 s2] m] errC]|]; simpl; [|discriminate].
    destruct errC as [eC|]; simpl;
      (destruct (downgradeAndRevoke (Some s2)); simpl; [|discriminate]).
    + intros [= _ _ <-]. eauto.
    + discriminate.
  - destruct (io_Copy_nil s1) as [[[s2 m] errC]|]; simpl; [|discriminate].
    destruct errC as [eC|]; simpl;
      (destruct (downgradeAndRevoke (Some s2)); simpl; [|discriminate]).
    + intros [= _ _ <-]. eauto.
    + discriminate.
Qed.

Lemma upgradeLoop_error entries : ∀ (i : Z) mrp rwl mrp' rwl' (e : error),
  upgradeLoop entries i mrp rwl = Ok (mrp', rwl', Some e) →
  ∃ (j : Z) (e1 e0 : error),
    e = Errorf "upgradeOne(%d): %v" [argInt j; argError e1]
    ∧ i ≤ j < i + len entries
    ∧ (e1 = Errorf "Upgrade: %v" [argError e0]
       ∨ e1 = Errorf "Seek: %v" [argError e0]
       ∨ e1 = Errorf "Copy: %v" [argError e0]).
Proof.
  induction entries as [|entry entries IH];
    intros i mrp rwl mrp' rwl' e Hr; simpl in Hr; [discriminate|].
  destruct (upgradeOne rwl (rp entry)) as [[[wrapped1 rwl1] err1]|] eqn:Hone;
    simpl in Hr; [|discriminate].
  destruct err1 as [e1|].
  - injection Hr as _ _ <-.
    destruct (upgradeOne_error _ _ _ _ _ Hone) as [e0 He0].
    exists i, e1, e0. split; [reflexivity|]. split; [|exact He0].
    unfold len. simpl length. lia.
  - apply IH in Hr as (j & e1 & e0 & -> & Hj & He0).
    exists j, e1, e0. split; [reflexivity|]. split; [|exact He0].
    unfold len in *. simpl length. lia.
Qed.

(** X13.  The errors of [Upgrade].  An error of the top-level lease is
    returned as it is, unless it is the revoked-lease error, which is never
    returned; a failure to create the new file is wrapped as "NewFile"; and
    a failure on a wrapped proxy is wrapped as "upgradeOne" with the index of
    that proxy, around the error of the step that failed (the upgrade of the
    wrapped proxy, the seek, or the copy). *)
Theorem Upgrade_error_shape mrp mrp' rwl (e : error) :
  Upgrade mrp = Ok (mrp', rwl, Some e) →
  e ≠ RevokedError
  ∧ ((∃ l l', lease mrp = Some l ∧ rl_Upgrade l = Ok (l', rwl, Some e))
     ∨ (∃ e0 : error, e = Errorf "NewFile: %v" [argError e0])
     ∨ (∃ (j : Z) (e1 e0 : error),
          e = Errorf "upgradeOne(%d): %v" [argInt j; argError e1]
          ∧ 0 ≤ j < len (rps mrp)
          ∧ (e1 = Errorf "Upgrade: %v" [argError e0]
             ∨ e1 = Errorf "Seek: %v" [argError e0]
             ∨ e1 = Errorf "Copy: %v" [argError e0]))).
Proof.
  assert (Hwrapped : ∀ mrp0 mrp1 rwl1 (e1 : error),
    upgradeWrapped mrp0 = Ok (mrp1, rwl1, Some e1) →
    (∃ e0 : error, e1 = Errorf "NewFile: %v" [argError e0])
    ∨ (∃ (j : Z) (e2 e0 : error),
         e1 = Errorf "upgradeOne(%d): %v" [argInt j; argError e2]
         ∧ 0 ≤ j < len (rps mrp0)
         ∧ (e2 = Errorf "Upgrade: %v" [argError e0]
            ∨ e2 = Errorf "Seek: %v" [argError e0]
            ∨ e2 = Errorf "Copy: %v" [argError e0]))).
  { intros mrp0 mrp1 rwl1 e1. unfold upgradeWrapped.
    destruct (fl_NewFile (leaser mrp0)) as [[[fl1 rwl0] err1]|];
      simpl; [|discriminate].
    destruct err1 as [e0|]; [intros [= _ _ <-]; eauto|].
    destruct (upgradeLoop _ 0 _ rwl0) as [[[mrp2 rwl2] err2]|] eqn:Hloop;
      simpl; [|discriminate].
    destruct err2 as [e2|]; [|discriminate].
    destruct (downgradeAndRevoke rwl2); simpl; [|discriminate].
    intros [= _ _ <-]. right.
    apply upgradeLoop_error in Hloop as (j & e3 & e0 & -> & Hj & He0).
    exists j, e3, e0. split; [reflexivity|]. split; [lia|exact He0]. }
  intros Hr. unfold Upgrade in Hr. simpl in Hr.
  destruct (lease mrp) as [l|] eqn:Hl.
  - destruct (rl_Upgrade l) as [[[l1 rwl1] err1]|] eqn:Hup;
      simpl in Hr; [|discriminate].
    destruct err1 as [e1|]; [|discriminate].
    destruct (is_RevokedError e1) eqn:Hrev.
    + apply Hwrapped in Hr. simpl in Hr. split.
      * destruct Hr as [(e0 & ->) | (j & e2 & e0 & -> & _)]; discriminate.
      * right. exact Hr.
    + injection Hr as _ <- <-. split.
      * intros ->. discriminate.
      * left. eauto.
  - apply Hwrapped in Hr. simpl in Hr. split.
    + destruct Hr as [(e0 & ->) | (j & e2 & e0 & -> & _)]; discriminate.
    + right. exact Hr.
Qed.

End LeaseMore.

(** *** The multi read proxy over the in-memory implementations *)
Section LeaseMoreTaco.
Import Fake FakeTheory.

Implicit Types (mrp : @multiReadProxy readLease proxy memLeaser).

(** The in-memory proxy implements [ReadAt] properly as long as its object
    has not been deleted and it has not been destroyed. *)
#[export] Instance proxy_ProperReadAt : ProperReadAt proxy file.
Proof.
  split.
  - intros t _. reflexivity.
  - intros t p o Hlive Ho. pose proof Hlive as [Hdel Hdes]. simpl in Hdel, Hdes.
    exists t, (readerAt (bytesOf t) p o).2.
    split; [|split; [exact Hlive|split; [reflexivity|left; reflexivity]]].
    simpl. rewrite Hdes, Hdel. unfold pread, readerAt.
    replace (o <? 0) with false by (symmetry; apply Z.ltb_ge; lia).
    reflexivity.
Qed.

Lemma pwrite_append (data' buf : list byte) :
  pwrite data' buf (len data') = (data' ++ buf, len buf, None).
Proof.
  unfold pwrite, len.
  replace (Z.of_nat (length data') <? 0) with false
    by (symmetry; apply Z.ltb_ge; lia).
  destruct buf as [|b buf]; [rewrite app_nil_r; reflexivity|].
  rewrite Nat2Z.id, Nat.sub_diag. simpl replicate. rewrite app_nil_r.
  rewrite firstn_all, drop_ge by lia. rewrite app_nil_r. reflexivity.
Qed.

(** One round of the loop of [Upgrade] on a live in-memory proxy appends its
    bytes to the new file and leaves the proxy destroyed. *)
Lemma upgradeOne_live (d : file) (t : proxy) :
  proper t → released d = false → cursor d = len (data d) →
  upgradeOne (Some d) t
  = Ok ({| source := source t; rp_destroyed := true |},
        Some {| data := data d ++ bytesOf t;
                cursor := len (data d ++ bytesOf t); released := false |},
        None).
Proof.
  intros [Hdel Hdes] Hopen Hcur. simpl in Hdel, Hdes.
  unfold upgradeOne. simpl.
  rewrite Hdes, Hdel. simpl. rewrite Hopen. simpl.
  rewrite drop_0, Hcur, pwrite_append. simpl.
  unfold len. rewrite length_app, Nat2Z.inj_add. reflexivity.
Qed.

Lemma upgradeOne_deleted (d : option file) (t : proxy) :
  rp_destroyed t = false → deleted (source t) = true →
  upgradeOne d t
  = Ok (t, d,
        Some (Errorf "Upgrade: %v" [argError (foreignError "not found")])).
Proof.
  intros Hdes Hdel. unfold upgradeOne. simpl. rewrite Hdes, Hdel. reflexivity.
Qed.

Lemma upgradeOne_destroyed (d : option file) (t : proxy) :
  rp_destroyed t = true → upgradeOne d t = nilDereference.
Proof. intros Hdes. unfold upgradeOne. simpl. rewrite Hdes. reflexivity. Qed.

Lemma set_wrapped_at mrp pre e rest (t : proxy) :
  rps mrp = pre ++ e :: rest →
  set_wrapped mrp (len pre) t
  = set_rps mrp (pre ++ {| off := off e; rp := t |} :: rest).
Proof.
  intros Hrps. unfold set_wrapped, len. rewrite Nat2Z.id. f_equal.
  rewrite Hrps, alter_app_r_alt by lia. rewrite Nat.sub_diag. reflexivity.
Qed.

Lemma set_rps_rps mrp : set_rps mrp (rps mrp) = mrp.
Proof. destruct mrp. reflexivity. Qed.

(** The loop of [Upgrade] over live in-memory proxies appends their bytes
    in order and leaves each of them destroyed. *)
Lemma upgradeLoop_live rest : ∀ pre mrp (d : file),
  rps mrp = pre ++ rest →
  Forall (λ e, proper (rp e)) rest →
  released d = false → cursor d = len (data d) →
  upgradeLoop rest (len pre) mrp (Some d)
  = Ok (set_rps mrp (pre ++ (upgradedEntry <$> rest)),
        Some {| data := data d ++ wrappedBytes rest;
                cursor := len (data d ++ wrappedBytes rest);
                released := false |}, None).
Proof.
  induction rest as [|e rest IH]; intros pre mrp d Hrps Hlive Hopen Hcur.
  - rewrite app_nil_r in Hrps. simpl. unfold wrappedBytes. simpl.
    rewrite !app_nil_r, <- Hrps, set_rps_rps, <- Hcur, <- Hopen.
    destruct d. reflexivity.
  - apply Forall_cons in Hlive as [He Hrest].
    change (upgradeLoop (e :: rest) (len pre) mrp (Some d))
      with ('(wrapped', rwl', err) ← upgradeOne (Some d) (rp e);
            let mrp' := set_wrapped mrp (len pre) wrapped' in
            match err with
            | Some e0 =>
                Ok (mrp', rwl',
                    Some (Errorf "upgradeOne(%d): %v"
                            [argInt (len pre); argError e0]))
            | None => upgradeLoop rest (len pre + 1) mrp' rwl'
            end).
    rewrite (upgradeOne_live d (rp e) He Hopen Hcur).
    cbn [mbind result_bind].
    rewrite (set_wrapped_at mrp pre e rest _ Hrps).
    replace (len pre + 1) with (len (pre ++ [upgradedEntry e]))
      by (unfold len; rewrite length_app; simpl; lia).
    rewrite (IH (pre ++ [upgradedEntry e])
               (set_rps mrp (pre ++ upgradedEntry e :: rest))
               {| data := data d ++ bytesOf (rp e);
                  cursor := len (data d ++ bytesOf (rp e));
                  released := false |}).
    + unfold wrappedBytes. simpl. rewrite <- !app_assoc. reflexivity.
    + simpl. rewrite <- app_assoc. reflexivity.
    + exact Hrest.
    + reflexivity.
    + reflexivity.
Qed.

(** The loop stops at the first proxy whose object has been deleted. *)
Lemma upgradeLoop_deleted live : ∀ pre mrp (d : file) e rest,
  rps mrp = pre ++ live ++ e :: rest →
  Forall (λ e, proper (rp e)) live →
  rp_destroyed (rp e) = false → deleted (source (rp e)) = true →
  released d = false → cursor d = len (data d) →
  upgradeLoop (live ++ e :: rest) (len pre) mrp (Some d)
  = Ok (set_rps mrp (pre ++ (upgradedEntry <$> live) ++ e :: rest),
        Some {| data := data d ++ wrappedBytes live;
                cursor := len (data d ++ wrappedBytes live);
                released := false |},
        Some (Errorf "upgradeOne(%d): %v"
                [argInt (len (pre ++ live));
                 argError (Errorf "Upgrade: %v"
                             [argError (foreignError "not found")])])).
Proof.
  induction live as [|e0 live IH];
    intros pre mrp d e rest Hrps Hlive Hdes Hdel Hopen Hcur.
  - change (upgradeLoop ([] ++ e :: rest) (len pre) mrp (Some d))
      with ('(wrapped', rwl', err) ← upgradeOne (Some d) (rp e);
            let mrp' := set_wrapped mrp (len pre) wrapped' in
            match err with
            | Some e0 =>
                Ok (mrp', rwl',
                    Some (Errorf "upgradeOne(%d): %v"
                            [argInt (len pre); argError e0]))
            | None => upgradeLoop rest (len pre + 1) mrp' rwl'
            end).
    rewrite (upgradeOne_deleted (Some d) (rp e) Hdes Hdel).
    cbn [mbind result_bind].
    rewrite (set_wrapped_at mrp pre e rest _ Hrps).
    unfold wrappedBytes. simpl. rewrite !app_nil_r, <- Hcur, <- Hopen.
    destruct e, d. reflexivity.
  - apply Forall_cons in Hlive as [He0 Hlive].
    change (upgradeLoop ((e0 :: live) ++ e :: rest) (len pre) mrp (Some d))
      with ('(wrapped', rwl', err) ← upgradeOne (Some d) (rp e0);
            let mrp' := set_wrapped mrp (len pre) wrapped' in
            match err with
            | Some e1 =>
                Ok (mrp', rwl',
                    Some (Errorf "upgradeOne(%d): %v"
                            [argInt (len pre); argError e1]))
            | None =>
                upgradeLoop (live ++ e :: rest) (len pre + 1) mrp' rwl'
            end).
    rewrite (upgradeOne_live d (rp e0) He0 Hopen Hcur).
    cbn [mbind result_bind].
    rewrite (set_wrapped_at mrp pre e0 (live ++ e :: rest) _ Hrps).
    replace (len pre + 1) with (len (pre ++ [upgradedEntry e0]))
      by (unfold len; rewrite length_app; simpl; lia).
    rewrite (IH (pre ++ [upgradedEntry e0])
               (set_rps mrp (pre ++ upgradedEntry e0 :: live ++ e :: rest))
               {| data := data d ++ bytesOf (rp e0);
                  cursor := len (data d ++ bytesOf (rp e0));
                  released := false |} e rest).
    + replace (len ((pre ++ [upgradedEntry e0]) ++ live))
        with (len (pre ++ e0 :: live))
        by (unfold len; rewrite !length_app; simpl; lia).
      unfold wrappedBytes. simpl. rewrite <- !app_assoc. reflexivity.
    + simpl. rewrite <- app_assoc. reflexivity.
    + exact Hlive.
    + exact Hdes.
    + exact Hdel.
    + reflexivity.
    + reflexivity.
Qed.

Lemma upgradeWrapped_live mrp :
  scratchAvailable (leaser mrp) = true →
  Forall (λ e, proper (rp e)) (rps mrp) →
  upgradeWrapped mrp
  = Ok (set_rps mrp (upgradedEntry <$> rps mrp),
        Some {| data := wrappedBytes (rps mrp);
                cursor := len (wrappedBytes (rps mrp));
                released := false |}, None).
Proof.
  intros Hscratch Hlive. destruct mrp as [sz fl ps l dd].
  simpl in Hscratch, Hlive.
  pose proof (upgradeLoop_live ps []
                {| size := sz; leaser := fl; rps := ps; lease := l;
                   Lease.destroyed := dd |}
                {| data := []; cursor := 0; released := false |}
                eq_refl Hlive eq_refl eq_refl) as Hloop.
  change (len []) with 0 in Hloop.
  unfold upgradeWrapped. simpl in Hloop |- *. rewrite Hscratch. simpl.
  unfold set_leaser. simpl. rewrite Hloop. reflexivity.
Qed.

(** X14.  With the in-memory leaser and proxies: [Upgrade] of a multi read
    proxy without top-level lease, none of whose objects has been deleted,
    returns a read/write lease that holds the contents of the wrapped
    proxies one after the other, in their order, positioned at its end.  It
    leaves the proxy marked destroyed and every wrapped proxy destroyed by
    its own upgrade, so that a second [Upgrade] of a proxy that wraps
    anything panics. *)
Theorem Upgrade_accumulates mrp :
  lease mrp = None →
  scratchAvailable (leaser mrp) = true →
  Forall (λ e, proper (rp e)) (rps mrp) →
  ∃ mrp',
    Upgrade mrp
    = Ok (mrp',
          Some {| data := wrappedBytes (rps mrp);
                  cursor := len (wrappedBytes (rps mrp));
                  released := false |}, None)
    ∧ mrp' = set_rps (set_destroyed mrp true) (upgradedEntry <$> rps mrp)
    ∧ Forall (λ e, rp_destroyed (rp e) = true) (rps mrp')
    ∧ (rps mrp ≠ [] → ∃ format args, Upgrade mrp' = Panic format args).
Proof.
  intros Hlease Hscratch Hlive. eexists. split; [|split; [reflexivity|split]].
  - rewrite (Upgrade_without_lease mrp Hlease).
    apply (upgradeWrapped_live (set_destroyed mrp true)); assumption.
  - simpl. apply Forall_fmap, Forall_true. reflexivity.
  - intros Hne. destruct (rps mrp) as [|e rest] eqn:Hrps; [contradiction|].
    eexists _, _.
    rewrite Upgrade_without_lease by exact Hlease.
    unfold upgradeWrapped. simpl. rewrite Hscratch. simpl.
    unfold nilDereference. reflexivity.
Qed.

(** X15.  With the in-memory leaser and proxies: [Upgrade] stops at the
    first wrapped proxy whose object has been deleted and reports the index
    of that proxy in its error.  The file it was accumulating has been
    downgraded and revoked on the way out, so the handle that comes back
    with the error is invalid and holds nothing.  The proxies before that
    index have been upgraded and are destroyed; the one at the index and
    those after it are as they were. *)
Theorem Upgrade_stops_at_deleted mrp live e rest :
  lease mrp = None →
  scratchAvailable (leaser mrp) = true →
  rps mrp = live ++ e :: rest →
  Forall (λ e, proper (rp e)) live →
  rp_destroyed (rp e) = false → deleted (source (rp e)) = true →
  Upgrade mrp
  = Ok (set_rps (set_destroyed mrp true)
          ((upgradedEntry <$> live) ++ e :: rest),
        Some {| data := []; cursor := 0; released := true |},
        Some (Errorf "upgradeOne(%d): %v"
                [argInt (len live);
                 argError (Errorf "Upgrade: %v"
                             [argError (foreignError "not found")])])).
Proof.
  intros Hlease Hscratch Hrps Hlive Hdes Hdel.
  rewrite (Upgrade_without_lease mrp Hlease).
  destruct mrp as [sz fl ps l dd]. simpl in Hscratch, Hrps. subst ps.
  pose proof (upgradeLoop_deleted live []
                {| size := sz; leaser := fl; rps := live ++ e :: rest;
                   lease := l; Lease.destroyed := true |}
                {| data := []; cursor := 0; released := false |} e rest
                eq_refl Hlive Hdes Hdel eq_refl eq_refl) as Hloop.
  change (len []) with 0 in Hloop.
  unfold upgradeWrapped, set_destroyed. simpl in Hloop |- *.
  rewrite Hscratch. simpl.
  unfold set_leaser. simpl. rewrite Hloop. reflexivity.
Qed.

(** Reads leave the in-memory proxies as they are. *)
Lemma proxy_ReadAt_same (t t' : proxy) p (o : Z) p' n err :
  rp_ReadAt t p o = Ok (t', p', n, err) → t' = t.
Proof.
  simpl. destruct (rp_destroyed t); [discriminate|].
  destruct (deleted (source t)); [intros [= <- _ _ _]; reflexivity|].
  destruct (pread _ p o) as [[? ?] ?]. intros [= <- _ _ _]. reflexivity.
Qed.

(** *** The theorems on the proxies over "ta" and "co" *)

Lemma tacoMulti_Invariants : Invariants (tacoMulti None).
Proof.
  apply (NewMultiReadProxy_Invariants scratch [ta; co] None).
  apply tacoMulti_built. right. reflexivity.
Qed.

Lemma tacoMulti_sizes :
  Forall (λ e, 0 < rp_Size (rp e)) (rps (tacoMulti None)).
Proof. repeat (apply Forall_cons; split); [reflexivity..|constructor]. Qed.

Lemma tacoMulti_nonneg :
  Forall (λ e, 0 ≤ rp_Size (rp e)) (rps (tacoMulti None)).
Proof. eapply Forall_impl; [exact tacoMulti_sizes|]. simpl. intros. lia. Qed.

Lemma tacoMulti_proper :
  Forall (λ e, proper (rp e)) (rps (tacoMulti None)).
Proof.
  repeat (apply Forall_cons_2; [split; reflexivity|]). apply Forall_nil_2.
Qed.

Lemma tacoMulti_fits : totalSize (rps (tacoMulti None)) ≤ MaxInt64.
Proof. vm_compute. discriminate. Qed.

Lemma offsets_are_prefix_sums_witness :
  size (tacoMulti None) = totalSize (rps (tacoMulti None))
  ∧ ∀ (i : nat) e,
      rps (tacoMulti None) !! i = Some e →
      off e = totalSize (take i (rps (tacoMulti None)))
      ∧ 0 ≤ off e ∧ off e + rp_Size (rp e) ≤ size (tacoMulti None).
Proof.
  apply (offsets_are_prefix_sums (W:=file) (tacoMulti None)).
  - exact tacoMulti_Invariants.
  - exact tacoMulti_nonneg.
  - exact tacoMulti_fits.
Defined.

Lemma upperBound_locates_offset_witness :
  ∃ r e, upperBound (tacoMulti None) 3 = Ok r
         ∧ index (rps (tacoMulti None)) (r - 1) = Ok e
         ∧ off e ≤ 3 < off e + rp_Size (rp e).
Proof.
  apply (upperBound_locates_offset (W:=file) (tacoMulti None) 3).
  - exact tacoMulti_Invariants.
  - exact tacoMulti_nonneg.
  - exact tacoMulti_fits.
  - vm_compute. split; [discriminate|reflexivity].
Defined.

Lemma readFromOne_contract_witness :
  ∃ e, index (rps (tacoMulti None)) 1 = Ok e
       ∧ off e ≤ 3 < add64 (off e) (rp_Size (rp e))
       ∧ (None : option error) ≠ Some io_EOF
       ∧ ((None : option error) = None →
          1 = len (bytes "..") ∨ add64 3 1 = add64 (off e) (rp_Size (rp e))).
Proof.
  apply (readFromOne_contract (W:=file) (L:=readLease) (F:=memLeaser)
           (tacoMulti None) 1 (bytes "..") 3 (tacoMulti None)
           (bytes "o.") 1 None).
  vm_compute. reflexivity.
Defined.

Lemma readFromOne_empty_proxy_panics_witness :
  readFromOne tacoGapMulti 1 (bytes "..") 2
  = Panic "Offset %v not in range [%v, %v)" [argInt 2; argInt 2; argInt 2].
Proof.
  apply (readFromOne_empty_proxy_panics (W:=file) (L:=readLease) (F:=memLeaser)
           tacoGapMulti 1
           {| off := 2;
              rp := {| source := nothing; rp_destroyed := false |} |}
           (bytes "..") 2).
  - reflexivity.
  - reflexivity.
  - vm_compute. split; discriminate.
Defined.

(** The read of all four bytes of the proxy with the empty object in the
    middle gets "ta" from the first proxy and then panics. *)
Example ReadAt_across_empty_proxy :
  CheckInvariants tacoGapMulti = Ok ()
  ∧ ReadAt tacoGapMulti (bytes "....") 0
    = Panic "Offset %v not in range [%v, %v)" [argInt 2; argInt 2; argInt 2].
Proof. split; reflexivity. Qed.

Lemma ReadAt_empty_buffer_witness :
  ReadAt (tacoMulti None) [] 3 = Ok (tacoMulti None, [], 0, None).
Proof.
  apply (ReadAt_empty_buffer (W:=file) (tacoMulti None) 3).
  - reflexivity.
  - exact tacoMulti_Invariants.
  - exact tacoMulti_nonneg.
  - exact tacoMulti_fits.
  - vm_compute. split; [discriminate|reflexivity].
Defined.

Lemma ReadAt_reads_concatenation_witness :
  ∃ mrp',
    ReadAt (tacoMulti None) (bytes ".....") 1
    = Ok (mrp', bytes "aco..", 3, Some io_EOF)
    ∧ size mrp' = 4 ∧ lease mrp' = None
    ∧ off <$> rps mrp' = [0; 2]
    ∧ (λ e, bytesOf (rp e)) <$> rps mrp' = [bytes "ta"; bytes "co"]
    ∧ Forall (λ e, proper (rp e)) (rps mrp').
Proof.
  assert (H3 : 0 ≤ 1 < Size (tacoMulti None))
    by (vm_compute; split; [discriminate|reflexivity]).
  assert (H4 : len (bytes ".....") ≤ MaxInt64) by (vm_compute; discriminate).
  exact (ReadAt_reads_concatenation (W:=file) (tacoMulti None)
           (bytes ".....") 1 eq_refl tacoMulti_Invariants tacoMulti_proper
           tacoMulti_sizes tacoMulti_fits H3 H4).
Defined.

Lemma fresh_proxy_CheckInvariants_witness :
  CheckInvariants (tacoMulti None) = Ok ()
  ↔ Forall (λ r, 0 ≤ rp_Size (NewReadProxy scratch r (None : option readLease)))
      [ta; co].
Proof.
  apply (fresh_proxy_CheckInvariants (W:=file) scratch [ta; co] None
           (tacoMulti None)).
  reflexivity.
Defined.

Lemma Upgrade_marks_destroyed_witness :
  Lease.destroyed spentStaleMulti = true
  ∧ Size spentStaleMulti = Size staleMulti
  ∧ CheckInvariants spentStaleMulti = Panic "Use after destroyed" [].
Proof.
  apply (Upgrade_marks_destroyed (W:=file) staleMulti spentStaleMulti
           (Some releasedFile)
           (Some (Errorf "upgradeOne(%d): %v"
                    [argInt 1;
                     argError (Errorf "Upgrade: %v"
                                 [argError (foreignError "not found")])]))).
  vm_compute. reflexivity.
Defined.

Lemma Destroy_crashes_early_witness :
  ReadAt (set_destroyed (set_rps (tacoMulti None) []) true) (bytes "..") 1
  = Panic "Unexpected index: %v" [argInt (-1)]
  ∧ ReadAt (set_destroyed (set_rps (tacoMulti None) []) true) (bytes "..") 4
    = Ok (set_destroyed (set_rps (tacoMulti None) []) true, bytes "..", 0,
          Some io_EOF).
Proof.
  pose proof (Destroy_crashes_early (W:=file) (tacoMulti (Some tacoLease))
                (set_destroyed (set_rps (tacoMulti None) []) true)) as H.
  specialize (H eq_refl).
  destruct H as (_ & _ & _ & _ & _ & Hcrash & Heof & _).
  split.
  - apply Hcrash. simpl. lia.
  - apply Heof; simpl; lia.
Defined.

Lemma Upgrade_accumulates_witness :
  ∃ mrp',
    Upgrade (tacoMulti None)
    = Ok (mrp',
          Some {| data := bytes "taco"; cursor := 4; released := false |},
          None)
    ∧ mrp' = set_rps (set_destroyed (tacoMulti None) true)
               (upgradedEntry <$> rps (tacoMulti None))
    ∧ Forall (λ e, rp_destroyed (rp e) = true) (rps mrp')
    ∧ (rps (tacoMulti None) ≠ [] →
       ∃ format args, Upgrade mrp' = Panic format args).
Proof.
  exact (Upgrade_accumulates (tacoMulti None) eq_refl eq_refl
           tacoMulti_proper).
Defined.

Lemma Upgrade_stops_at_deleted_witness :
  Upgrade staleMulti
  = Ok (spentStaleMulti, Some releasedFile,
        Some (Errorf "upgradeOne(%d): %v"
                [argInt 1;
                 argError (Errorf "Upgrade: %v"
                             [argError (foreignError "not found")])])).
Proof.
  apply (Upgrade_stops_at_deleted staleMulti
           [ {| off := 0;
                rp := {| source := ta; rp_destroyed := false |} |} ]
           {| off := 2;
              rp := {| source := coGone; rp_destroyed := false |} |} []).
  - reflexivity.
  - reflexivity.
  - reflexivity.
  - apply Forall_cons_2; [split; reflexivity|]. apply Forall_nil_2.
  - reflexivity.
  - reflexivity.
Defined.

Lemma Upgrade_error_shape_witness :
  Errorf "upgradeOne(%d): %v"
    [argInt 1;
     argError (Errorf "Upgrade: %v" [argError (foreignError "not found")])]
  ≠ RevokedError.
Proof.
  pose proof (Upgrade_error_shape (W:=file) staleMulti spentStaleMulti
                (Some releasedFile)
                (Errorf "upgradeOne(%d): %v"
                   [argInt 1;
                    argError (Errorf "Upgrade: %v"
                                [argError (foreignError "not found")])])) as H.
  specialize (H eq_refl). exact (proj1 H).
Defined.

End LeaseMoreTaco.
End LeaseExtra.

(** ** More about the mutable content *)
Module MutableExtra.
Import Lease Mutable MutableTheory.

Section ContentMore.
Context {W L T C Time : Type}.
Context `{!ReadWriteLease W L, !ReadLease L W, !ReadProxy T W, !Clock C Time}.

Implicit Types (mc : @mutableContent W T C Time).

(** *** A content that is still clean *)

(** A call that leaves the content clean found it clean, and has touched
    neither the bookkeeping nor the clock. *)
Lemma invoke_clean `{!ReadProxyLaws T W} mc c mc' r :
  invoke mc c = Ok (mc', r) → readWriteLease mc' = None →
  readWriteLease mc = None
  ∧ mtime mc' = mtime mc ∧ dirtyThreshold mc' = dirtyThreshold mc
  ∧ clock mc' = clock mc ∧ destroyed mc' = destroyed mc
  ∧ ∀ ic, initialContent mc = Some ic →
          ∃ ic', initialContent mc' = Some ic' ∧ rp_Size ic' = rp_Size ic.
Proof.
  destruct c as [buf offset| |buf offset|n]; simpl; intros Hr Hclean.
  - destruct (ReadAt mc buf offset) as [[[[mc1 b] m] e]|] eqn:Hop;
      simpl in Hr; [|discriminate].
    injection Hr as <- _.
    apply ReadAt_cases in Hop
      as [(? & ? & _ & _ & ->) | (ic & ic' & Hrwl & Hic & Hread & ->)];
      [discriminate|].
    simpl. repeat split; try assumption.
    intros ic0. rewrite Hic. intros [= <-]. exists ic'.
    split; [reflexivity|]. eapply rp_ReadAt_Size. exact Hread.
  - destruct (Stat mc) as [[[mc1 sr] e]|] eqn:Hop; simpl in Hr; [|discriminate].
    injection Hr as <- _.
    apply Stat_cases in Hop
      as (_ & _ & [(? & ? & _ & _ & ->) | (ic & Hrwl & Hic & _ & _ & ->)]);
      [discriminate|].
    repeat split; try assumption. intros ic0 Hic0. eauto.
  - destruct (WriteAt mc buf offset) as [[[mc1 m] e]|] eqn:Hop;
      simpl in Hr; [|discriminate].
    injection Hr as <- _.
    apply WriteAt_cases in Hop as (mc0 & err1 & Hens & Hcase).
    destruct err1 as [e1|].
    2:{ destruct Hcase as (? & ? & _ & _ & ->). discriminate. }
    destruct Hcase as (-> & _).
    apply ensureReadWriteLease_cases in Hens
      as [(_ & _ & ?) | (Hrwl & ic & ic' & rwl & err0 & Hic & Hup & Hens')];
      [discriminate|].
    destruct err0 as [e0|]; destruct Hens' as [-> ?]; [|discriminate].
    simpl. repeat split; try assumption.
    intros ic0. rewrite Hic. intros [= <-]. exists ic'.
    split; [reflexivity|]. eapply rp_Upgrade_Size. exact Hup.
  - destruct (Truncate mc n) as [[mc1 e]|] eqn:Hop; simpl in Hr; [|discriminate].
    injection Hr as <- _.
    apply Truncate_cases in Hop as (mc0 & err1 & Hens & Hcase).
    destruct err1 as [e1|].
    + destruct Hcase as (-> & _).
      apply ensureReadWriteLease_cases in Hens
        as [(_ & _ & ?) | (Hrwl & ic & ic' & rwl & err0 & Hic & Hup & Hens')];
        [discriminate|].
      destruct err0 as [e0|]; destruct Hens' as [-> ?]; [|discriminate].
      simpl. repeat split; try assumption.
      intros ic0. rewrite Hic. intros [= <-]. exists ic'.
      split; [reflexivity|]. eapply rp_Upgrade_Size. exact Hup.
    + apply ensureReadWriteLease_cases in Hens
        as [(Hsome & -> & _) | (Hrwl & ic & ic' & rwl & err0 & Hic & Hup & Hens')].
      * destruct Hcase as [(_ & -> & _) | (_ & ? & ? & _ & _ & ->)].
        -- rewrite Hclean in Hsome. destruct Hsome; discriminate.
        -- discriminate.
      * destruct err0 as [e0|]; destruct Hens' as [-> ?]; [discriminate|].
        destruct Hcase as [(_ & -> & _) | (_ & ? & ? & _ & _ & ->)].
        -- simpl in Hclean. subst rwl.
           destruct (rp_Upgrade_lease _ _ _ Hup) as [? ?]. discriminate.
        -- discriminate.
Qed.

(** X16.  A content that is still clean after a sequence of calls has never
    been modified.  Starting from the content [NewContent] returns, if no
    read/write lease is held at the end then the modification time is still
    nil, the clock has not been consulted, the initial content is still in
    place with its size, and [Stat] reports that size both as the size and
    as the dirty threshold, without error.  (Calls that failed to upgrade do
    not count as modifications.) *)
Theorem clean_content_never_modified `{!ReadProxyLaws T W}
    (ic : T) (c : C) calls mc mc' replies :
  NewContent (Some ic) c = Ok mc →
  run mc calls = Ok (mc', replies) →
  readWriteLease mc' = None →
  mtime mc' = None ∧ clock mc' = c ∧ dirtyThreshold mc' = rp_Size ic
  ∧ (∃ ic', initialContent mc' = Some ic' ∧ rp_Size ic' = rp_Size ic)
  ∧ Stat mc'
    = Ok (mc', {| stat_Size := rp_Size ic; DirtyThreshold := rp_Size ic;
                  Mtime := None |}, None).
Proof.
  intros [= <-] Hrun Hclean.
  assert (Hgen : ∀ calls0 mc0 mc1 rs,
    run mc0 calls0 = Ok (mc1, rs) → readWriteLease mc1 = None →
    readWriteLease mc0 = None
    ∧ mtime mc1 = mtime mc0 ∧ dirtyThreshold mc1 = dirtyThreshold mc0
    ∧ clock mc1 = clock mc0
    ∧ ∀ ic0, initialContent mc0 = Some ic0 →
             ∃ ic1, initialContent mc1 = Some ic1
                    ∧ rp_Size ic1 = rp_Size ic0).
  { clear Hrun Hclean.
    induction calls0 as [|c0 calls0 IH]; intros mc0 mc1 rs Hrun Hclean;
      simpl in Hrun.
    - injection Hrun as <- _. repeat split; try assumption. eauto.
    - destruct (invoke mc0 c0) as [[mc2 r]|] eqn:Hinv; simpl in Hrun;
        [|discriminate].
      destruct (run mc2 calls0) as [[mc3 rs']|] eqn:Hrest; simpl in Hrun;
        [|discriminate].
      injection Hrun as <- _.
      destruct (IH _ _ _ Hrest Hclean) as (Hc2 & Hm & Hd & Hk & Hic).
      destruct (invoke_clean _ _ _ _ Hinv Hc2) as (Hc0 & Hm0 & Hd0 & Hk0 & _ & Hic0).
      repeat split; try congruence.
      intros ic0 H0. destruct (Hic0 ic0 H0) as (ic2 & H2 & Hs2).
      destruct (Hic ic2 H2) as (ic3 & H3 & Hs3).
      exists ic3. split; [exact H3|congruence]. }
  destruct (Hgen _ _ _ _ Hrun Hclean) as (_ & Hm & Hd & Hk & Hic).
  simpl in Hm, Hd, Hk.
  destruct (Hic ic eq_refl) as (ic' & Hic' & Hsize).
  repeat split; try assumption.
  - eauto.
  - unfold Stat. rewrite Hclean, Hic', Hm, Hd, Hsize. reflexivity.
Qed.

(** *** The dirty threshold of a dirty content *)

(** X17.  On a content that is dirty, every [WriteAt] and every [Truncate]
    is recorded, whether or not the lease reports an error: after a sequence
    of calls the dirty threshold is the minimum of its previous value, the
    offsets of the writes and the sizes of the truncations. *)
Theorem dirtyThreshold_is_minimum calls : ∀ mc mc' replies,
  is_Some (readWriteLease mc) →
  Forall wellTyped calls →
  run mc calls = Ok (mc', replies) →
  dirtyThreshold mc'
  = foldl (λ threshold c,
             match c with
             | CallWriteAt _ offset => Z.min threshold offset
             | CallTruncate n => Z.min threshold n
             | _ => threshold
             end) (dirtyThreshold mc) calls.
Proof.
  induction calls as [|c calls IH]; intros mc mc' replies Hdirty Htyped Hrun;
    simpl in Hrun.
  - injection Hrun as <- _. reflexivity.
  - destruct (invoke mc c) as [[mc1 r]|] eqn:Hinv; simpl in Hrun;
      [|discriminate].
    destruct (run mc1 calls) as [[mc2 rs]|] eqn:Hrest; simpl in Hrun;
      [|discriminate].
    injection Hrun as <- _.
    apply Forall_cons in Htyped as [Hc Htyped].
    pose proof (invoke_stays_dirty _ _ _ _ Hdirty Hinv) as Hdirty1.
    rewrite (IH _ _ _ Hdirty1 Htyped Hrest). simpl. f_equal.
    destruct Hdirty as [rwl Hrwl].
    destruct c as [buf offset| |buf offset|n]; simpl in Hinv.
    + destruct (ReadAt mc buf offset) as [[[[mc0 b] m] e]|] eqn:Hop;
        simpl in Hinv; [|discriminate].
      injection Hinv as <- _.
      apply ReadAt_cases in Hop
        as [(? & ? & _ & _ & ->) | (? & ? & _ & _ & _ & ->)]; reflexivity.
    + destruct (Stat mc) as [[[mc0 sr] e]|] eqn:Hop; simpl in Hinv;
        [|discriminate].
      injection Hinv as <- _.
      apply Stat_cases in Hop
        as (_ & _ & [(? & ? & _ & _ & ->) | (? & _ & _ & _ & _ & ->)]);
        reflexivity.
    + destruct (WriteAt mc buf offset) as [[[mc0 m] e]|] eqn:Hop;
        simpl in Hinv; [|discriminate].
      injection Hinv as <- _.
      apply WriteAt_cases in Hop as (mc0' & err1 & Hens & Hcase).
      apply ensureReadWriteLease_cases in Hens
        as [(_ & -> & ->) | (Hclean & _)]; [|congruence].
      destruct Hcase as (? & ? & _ & _ & ->). simpl.
      apply markDirty_fields.
    + destruct (Truncate mc n) as [[mc0 e]|] eqn:Hop; simpl in Hinv;
        [|discriminate].
      injection Hinv as <- _.
      apply Truncate_cases in Hop as (mc0' & err1 & Hens & Hcase).
      apply ensureReadWriteLease_cases in Hens
        as [(_ & -> & ->) | (Hclean & _)]; [|congruence].
      simpl in Hc. unfold int64 in Hc.
      destruct Hcase as [(Hbig & _) | (_ & ? & ? & _ & _ & ->)]; [lia|].
      simpl. apply markDirty_fields.
Qed.

(** *** Calls that only observe *)

(** X18.  [ReadAt] and [Stat] only observe: a sequence of them changes
    neither the dirty threshold nor the modification time, does not consult
    the clock, and leaves a clean content clean and a dirty one dirty. *)
Theorem observers_leave_bookkeeping calls : ∀ mc mc' replies,
  Forall (λ c, match c with
               | CallReadAt _ _ | CallStat => True
               | _ => False
               end) calls →
  run mc calls = Ok (mc', replies) →
  dirtyThreshold mc' = dirtyThreshold mc ∧ mtime mc' = mtime mc
  ∧ clock mc' = clock mc ∧ destroyed mc' = destroyed mc
  ∧ is_nil (readWriteLease mc') = is_nil (readWriteLease mc)
  ∧ is_nil (initialContent mc') = is_nil (initialContent mc).
Proof.
  induction calls as [|c calls IH]; intros mc mc' replies Hobs Hrun;
    simpl in Hrun.
  - injection Hrun as <- _. repeat split.
  - destruct (invoke mc c) as [[mc1 r]|] eqn:Hinv; simpl in Hrun;
      [|discriminate].
    destruct (run mc1 calls) as [[mc2 rs]|] eqn:Hrest; simpl in Hrun;
      [|discriminate].
    injection Hrun as <- _.
    apply Forall_cons in Hobs as [Hc Hobs].
    destruct (IH _ _ _ Hobs Hrest) as (-> & -> & -> & -> & -> & ->).
    destruct c as [buf offset| |buf offset|n]; simpl in Hinv;
      try contradiction.
    + destruct (ReadAt mc buf offset) as [[[[mc0 b] m] e]|] eqn:Hop;
        simpl in Hinv; [|discriminate].
      injection Hinv as <- _.
      apply ReadAt_cases in Hop
        as [(? & ? & Hrwl & _ & ->) | (? & ? & _ & Hic & _ & ->)]; simpl.
      * rewrite Hrwl. repeat split.
      * rewrite Hic. repeat split.
    + destruct (Stat mc) as [[[mc0 sr] e]|] eqn:Hop; simpl in Hinv;
        [|discriminate].
      injection Hinv as <- _.
      apply Stat_cases in Hop
        as (_ & _ & [(? & ? & Hrwl & _ & ->) | (? & _ & _ & _ & _ & ->)]);
        simpl.
      * rewrite Hrwl. repeat split.
      * repeat split.
Qed.

(** *** Destroy *)

(** X19.  [Destroy] leaves the content destroyed, without initial content
    and without lease.  From then on [CheckInvariants] panics with the
    message for a destroyed object, every [ReadAt], [Stat], [WriteAt] and
    [Truncate] dereferences nil, [Release] returns nil, and a second
    [Destroy] returns and changes nothing. *)
Theorem Destroy_is_terminal mc mc' :
  Destroy mc = Ok mc' →
  destroyed mc' = true ∧ initialContent mc' = None
  ∧ readWriteLease mc' = None
  ∧ dirtyThreshold mc' = dirtyThreshold mc ∧ mtime mc' = mtime mc
  ∧ CheckInvariants mc' = Panic "Use of destroyed mutableContent object." []
  ∧ (∀ c, invoke mc' c = nilDereference)
  ∧ Release mc' = Ok (mc', None)
  ∧ Destroy mc' = Ok mc'.
Proof.
  unfold Destroy. intros Hr.
  destruct (initialContent mc) as [ic|];
    [destruct (rp_Destroy ic); [|discriminate]|];
    (destruct (readWriteLease mc) as [rwl|];
       [destruct (downgradeAndRevoke (Some rwl)); [|discriminate]|]);
    injection Hr as <-; simpl; repeat split;
    intros c; apply invoke_after_release; reflexivity.
Qed.

End ContentMore.

(** *** A mutable content over a multi read proxy *)
Section ContentOverMulti.
Import LeaseExtra.
Context {W L T F R C Time : Type}.
Context `{!ReadWriteLease W L, !ReadLease L W, !ReadProxy T W}.
Context `{!FileLeaser F W, !ReadProxyMaker F R L T, !Copier W}.
Context `{!Clock C Time}.

Implicit Types (mc : @mutableContent W (@multiReadProxy L T F) C Time).
Implicit Types (mrp : @multiReadProxy L T F).

(** X20.  When the initial content is a multi read proxy and its upgrade
    fails during a [WriteAt] or a [Truncate], the content stays clean but
    the proxy it retains has been marked destroyed by the attempt: the
    [CheckInvariants] of the content, which calls that of its initial
    content, panics from then on. *)
Theorem failed_upgrade_fails_CheckInvariants mc mrp mrp' rwl (e : error) :
  destroyed mc = false →
  readWriteLease mc = None →
  initialContent mc = Some mrp →
  Upgrade mrp = Ok (mrp', rwl, Some e) →
  ∃ mc' err,
    (∀ buf (offset : Z), WriteAt mc buf offset = Ok (mc', 0, Some err))
    ∧ (∀ n : Z, Truncate mc n = Ok (mc', Some err))
    ∧ readWriteLease mc' = None
    ∧ initialContent mc' = Some mrp'
    ∧ CheckInvariants mc' = Panic "Use after destroyed" [].
Proof.
  intros Hlive Hrwl Hic Hup.
  pose proof (Upgrade_destroyed _ _ _ _ Hup) as Hd.
  exists (set_initialContent mc (Some mrp')),
    (Errorf "ensureReadWriteLease: %v"
       [argError (Errorf "initialContent.Upgrade: %v" [argError e])]).
  assert (Hens : ensureReadWriteLease mc
                 = Ok (set_initialContent mc (Some mrp'),
                       Some (Errorf "initialContent.Upgrade: %v"
                               [argError e]))).
  { unfold ensureReadWriteLease. rewrite Hrwl, Hic.
    change (rp_Upgrade mrp) with (Upgrade mrp). rewrite Hup. reflexivity. }
  split; [|split; [|split; [|split]]].
  - intros buf offset. unfold WriteAt. rewrite Hens. reflexivity.
  - intros n. unfold Truncate. rewrite Hens. reflexivity.
  - exact Hrwl.
  - reflexivity.
  - unfold CheckInvariants. simpl. rewrite Hlive.
    change (rp_CheckInvariants mrp') with (Lease.CheckInvariants mrp').
    unfold Lease.CheckInvariants. rewrite Hd. reflexivity.
Qed.

End ContentOverMulti.

(** *** The mutable content over the in-memory file *)
Section ContentInMemory.
Import Fake FakeTheory.
Context {T C Time : Type}.
Context `{!ReadProxy T file, !Clock C Time}.

Implicit Types (mc : @mutableContent file T C Time).

(** A positional write at [o] leaves the bytes before [o] as they were, and
    so does a truncation to [n] with the bytes before [n]. *)
Lemma pwrite_below (data0 buf : list byte) (o : Z) data' n err (th : Z) :
  pwrite data0 buf o = (data', n, err) → th ≤ len data0 →
  Z.min th o ≤ len data'
  ∧ take (Z.to_nat (Z.min th o)) data' = take (Z.to_nat (Z.min th o)) data0.
Proof.
  unfold pwrite, len. intros Hw Hth.
  destruct (o <? 0) eqn:Hneg.
  { injection Hw as <- _ _. split; [lia|reflexivity]. }
  apply Z.ltb_ge in Hneg.
  destruct buf as [|b buf].
  { injection Hw as <- _ _. split; [lia|reflexivity]. }
  remember (b :: buf) as B eqn:HB. clear HB. injection Hw as <- _ _.
  set (zeros := replicate (Z.to_nat o - length data0) Byte.x00).
  assert (Hpre : length (take (Z.to_nat o) (data0 ++ zeros)) = Z.to_nat o).
  { rewrite length_take, length_app. unfold zeros.
    rewrite length_replicate. lia. }
  split.
  - rewrite length_app, Hpre. lia.
  - rewrite take_app_le by lia.
    rewrite take_take.
    replace (Z.to_nat (Z.min th o) `min` Z.to_nat o)%nat
      with (Z.to_nat (Z.min th o)) by lia.
    apply take_app_le. lia.
Qed.

Lemma ftruncate_below (data0 : list byte) (n : Z) data' err (th : Z) :
  ftruncate data0 n = (data', err) → th ≤ len data0 →
  Z.min th n ≤ len data'
  ∧ take (Z.to_nat (Z.min th n)) data' = take (Z.to_nat (Z.min th n)) data0.
Proof.
  unfold ftruncate, len. intros Ht Hth.
  destruct (n <? 0) eqn:Hneg.
  { injection Ht as <- _. split; [lia|reflexivity]. }
  apply Z.ltb_ge in Hneg. injection Ht as <- _.
  set (zeros := replicate (Z.to_nat n - length data0) Byte.x00).
  split.
  - rewrite length_take, length_app. unfold zeros.
    rewrite length_replicate. lia.
  - rewrite take_take.
    replace (Z.to_nat (Z.min th n) `min` Z.to_nat n)%nat
      with (Z.to_nat (Z.min th n)) by lia.
    apply take_app_le. lia.
Qed.

Lemma invoke_below_threshold mc c mc' r (f : file) :
  readWriteLease mc = Some f →
  dirtyThreshold mc ≤ len (data f) →
  invoke mc c = Ok (mc', r) →
  ∃ f', readWriteLease mc' = Some f'
        ∧ dirtyThreshold mc' ≤ dirtyThreshold mc
        ∧ dirtyThreshold mc' ≤ len (data f')
        ∧ take (Z.to_nat (dirtyThreshold mc')) (data f')
          = take (Z.to_nat (dirtyThreshold mc')) (data f).
Proof.
  intros Hrwl Hth.
  destruct c as [buf offset| |buf offset|n]; simpl; intros Hr.
  - destruct (ReadAt mc buf offset) as [[[[mc1 b] m] e]|] eqn:Hop;
      simpl in Hr; [|discriminate].
    injection Hr as <- _.
    apply ReadAt_cases in Hop
      as [(f0 & f1 & Hf0 & Hread & ->) | (? & ? & Hclean & _)];
      [|congruence].
    rewrite Hrwl in Hf0. injection Hf0 as <-.
    simpl in Hread. destruct (released f); [discriminate|].
    destruct (pread (data f) buf offset) as [[? ?] ?].
    injection Hread as <- _ _ _.
    exists f. simpl. repeat split; [lia|exact Hth].
  - destruct (Stat mc) as [[[mc1 sr] e]|] eqn:Hop; simpl in Hr; [|discriminate].
    injection Hr as <- _.
    apply Stat_cases in Hop
      as (_ & _ & [(f0 & f1 & Hf0 & Hsize & ->) | (? & Hclean & _)]);
      [|congruence].
    rewrite Hrwl in Hf0. injection Hf0 as <-.
    simpl in Hsize. destruct (released f); [discriminate|].
    injection Hsize as <- _ _.
    exists f. simpl. repeat split; [lia|exact Hth].
  - destruct (WriteAt mc buf offset) as [[[mc1 m] e]|] eqn:Hop;
      simpl in Hr; [|discriminate].
    injection Hr as <- _.
    apply WriteAt_cases in Hop as (mc0 & err1 & Hens & Hcase).
    apply ensureReadWriteLease_cases in Hens
      as [(_ & -> & ->) | (Hclean & _)]; [|congruence].
    destruct Hcase as (f0 & f1 & Hf0 & Hwrite & ->).
    rewrite Hrwl in Hf0. injection Hf0 as <-.
    simpl in Hwrite. destruct (released f) eqn:Hopen; [discriminate|].
    destruct (pwrite (data f) buf offset) as [[data' m'] err'] eqn:Hpw.
    injection Hwrite as <- _ _.
    destruct (pwrite_below _ _ _ _ _ _ _ Hpw Hth) as [Hlen Htake].
    destruct (markDirty_fields mc offset) as (Hdt & _).
    exists {| data := data'; cursor := cursor f; released := false |}.
    simpl. rewrite Hdt.
    repeat split; [lia|exact Hlen|exact Htake].
  - destruct (Truncate mc n) as [[mc1 e]|] eqn:Hop; simpl in Hr; [|discriminate].
    injection Hr as <- _.
    apply Truncate_cases in Hop as (mc0 & err1 & Hens & Hcase).
    apply ensureReadWriteLease_cases in Hens
      as [(_ & -> & ->) | (Hclean & _)]; [|congruence].
    destruct Hcase as [(_ & -> & _) | (_ & f0 & f1 & Hf0 & Htrunc & ->)].
    + exists f. repeat split; [exact Hrwl|lia|exact Hth].
    + rewrite Hrwl in Hf0. injection Hf0 as <-.
      simpl in Htrunc. destruct (released f) eqn:Hopen; [discriminate|].
      destruct (ftruncate (data f) n) as [data' err'] eqn:Hft.
      injection Htrunc as <- _.
      destruct (ftruncate_below _ _ _ _ _ Hft Hth) as [Hlen Htake].
      destruct (markDirty_fields mc n) as (Hdt & _).
      exists {| data := data'; cursor := cursor f; released := false |}.
      simpl. rewrite Hdt.
      repeat split; [lia|exact Hlen|exact Htake].
Qed.

(** X21.  The guarantee documented on [StatResult.DirtyThreshold], over the
    in-memory file: whatever sequence of calls is made on a dirty content,
    the bytes of its lease below the dirty threshold are the bytes the lease
    held below that index when the sequence started. *)
Theorem below_threshold_unmodified calls : ∀ mc mc' replies (f : file),
  readWriteLease mc = Some f →
  dirtyThreshold mc ≤ len (data f) →
  run mc calls = Ok (mc', replies) →
  ∃ f', readWriteLease mc' = Some f'
        ∧ dirtyThreshold mc' ≤ dirtyThreshold mc
        ∧ dirtyThreshold mc' ≤ len (data f')
        ∧ take (Z.to_nat (dirtyThreshold mc')) (data f')
          = take (Z.to_nat (dirtyThreshold mc')) (data f).
Proof.
  induction calls as [|c calls IH]; intros mc mc' replies f Hrwl Hth Hrun;
    simpl in Hrun.
  - injection Hrun as <- _. exists f. repeat split; try assumption. lia.
  - destruct (invoke mc c) as [[mc1 r]|] eqn:Hinv; simpl in Hrun;
      [|discriminate].
    destruct (run mc1 calls) as [[mc2 rs]|] eqn:Hrest; simpl in Hrun;
      [|discriminate].
    injection Hrun as <- _.
    destruct (invoke_below_threshold _ _ _ _ _ Hrwl Hth Hinv)
      as (f1 & Hrwl1 & Hle1 & Hlen1 & Htake1).
    destruct (IH _ _ _ _ Hrwl1 Hlen1 Hrest)
      as (f2 & Hrwl2 & Hle2 & Hlen2 & Htake2).
    exists f2. repeat split; [exact Hrwl2|lia|exact Hlen2|].
    rewrite Htake2.
    replace (Z.to_nat (dirtyThreshold mc2))
      with (Z.to_nat (dirtyThreshold mc2) `min` Z.to_nat (dirtyThreshold mc1))%nat
      by lia.
    rewrite <- !take_take, Htake1. reflexivity.
Qed.

End ContentInMemory.

(** *** The mutable content over the in-memory multi read proxy *)
Section ContentOverMemory.
Import Fake FakeTheory LeaseTheory LeaseExtra.
Context {C Time : Type}.
Context `{!Clock C Time}.

Implicit Types
  (mc : @mutableContent file (@multiReadProxy readLease proxy memLeaser) C Time).
Implicit Types (mrp : @multiReadProxy readLease proxy memLeaser).

(** On a clean content over live in-memory proxies, the upgrade succeeds
    and hands over the concatenation of their contents. *)
Lemma ensureReadWriteLease_live mc mrp :
  readWriteLease mc = None → initialContent mc = Some mrp →
  lease mrp = None → scratchAvailable (leaser mrp) = true →
  Forall (λ e, proper (rp e)) (rps mrp) →
  ensureReadWriteLease mc
  = Ok ({| clock := clock mc; destroyed := destroyed mc;
           initialContent := None;
           readWriteLease :=
             Some {| data := wrappedBytes (rps mrp);
                     cursor := len (wrappedBytes (rps mrp));
                     released := false |};
           dirtyThreshold := dirtyThreshold mc; mtime := mtime mc |}, None).
Proof.
  intros Hrwl Hic Hlease Hscratch Hlive.
  unfold ensureReadWriteLease. rewrite Hrwl, Hic.
  change (rp_Upgrade mrp) with (Upgrade mrp).
  rewrite (Upgrade_without_lease mrp Hlease).
  rewrite (upgradeWrapped_live (set_destroyed mrp true) Hscratch Hlive).
  reflexivity.
Qed.

(** X22.  The first [WriteAt] on a clean content over live in-memory
    proxies upgrades the multi read proxy and writes into the result: the
    content ends up dirty, holding the concatenation of the wrapped proxies'
    contents with the buffer written over it at the offset, and the call
    returns what that write returned. *)
Theorem first_write_upgrades mc mrp buf (offset : Z) :
  readWriteLease mc = None → initialContent mc = Some mrp →
  lease mrp = None → scratchAvailable (leaser mrp) = true →
  Forall (λ e, proper (rp e)) (rps mrp) →
  ∃ mc',
    WriteAt mc buf offset
    = Ok (mc', (pwrite (wrappedBytes (rps mrp)) buf offset).1.2,
          (pwrite (wrappedBytes (rps mrp)) buf offset).2)
    ∧ initialContent mc' = None
    ∧ readWriteLease mc'
      = Some {| data := (pwrite (wrappedBytes (rps mrp)) buf offset).1.1;
                cursor := len (wrappedBytes (rps mrp));
                released := false |}
    ∧ dirtyThreshold mc' = Z.min (dirtyThreshold mc) offset
    ∧ mtime mc' = Some (clock_Now (clock mc)).2.
Proof.
  intros Hrwl Hic Hlease Hscratch Hlive.
  unfold WriteAt.
  rewrite (ensureReadWriteLease_live mc mrp Hrwl Hic Hlease Hscratch Hlive).
  simpl. unfold markDirty. simpl.
  destruct (clock_Now (clock mc)) as [clock' newMtime]. simpl.
  destruct (pwrite (wrappedBytes (rps mrp)) buf offset) as [[data' n] err].
  simpl. eexists. split; [reflexivity|]. simpl.
  rewrite minInt64_min. repeat split.
Qed.

(** A call on a content that is clean over live in-memory proxies leaves it
    so, or leaves it dirty with the original bytes below the threshold. *)
Lemma invoke_guards_original mc mrp c mc' r :
  readWriteLease mc = None → initialContent mc = Some mrp →
  lease mrp = None → scratchAvailable (leaser mrp) = true →
  Forall (λ e, proper (rp e)) (rps mrp) →
  dirtyThreshold mc ≤ len (wrappedBytes (rps mrp)) →
  invoke mc c = Ok (mc', r) →
  (readWriteLease mc' = None ∧ initialContent mc' = Some mrp
   ∧ dirtyThreshold mc' = dirtyThreshold mc)
  ∨ (∃ f', readWriteLease mc' = Some f'
           ∧ dirtyThreshold mc' ≤ len (data f')
           ∧ take (Z.to_nat (dirtyThreshold mc')) (data f')
             = take (Z.to_nat (dirtyThreshold mc'))
                 (wrappedBytes (rps mrp))).
Proof.
  intros Hrwl Hic Hlease Hscratch Hlive Hth Hinv.
  pose proof (ensureReadWriteLease_live mc mrp Hrwl Hic Hlease Hscratch Hlive)
    as Hens.
  set (f0 := {| data := wrappedBytes (rps mrp);
                cursor := len (wrappedBytes (rps mrp));
                released := false |}) in Hens.
  set (mc1 := {| clock := clock mc; destroyed := destroyed mc;
                 initialContent := None; readWriteLease := Some f0;
                 dirtyThreshold := dirtyThreshold mc; mtime := mtime mc |})
    in Hens.
  assert (Hdirty : ∀ c0, (∀ buf o, c0 ≠ CallReadAt buf o) → c0 ≠ CallStat →
                         invoke mc c0 = invoke mc1 c0).
  { intros [buf o| |buf o|n] Hread Hstat; simpl.
    - destruct (Hread buf o eq_refl).
    - destruct (Hstat eq_refl).
    - unfold WriteAt. rewrite Hens. reflexivity.
    - unfold Truncate. rewrite Hens. reflexivity. }
  assert (Hmod : invoke mc1 c = Ok (mc', r) →
    ∃ f', readWriteLease mc' = Some f'
          ∧ dirtyThreshold mc' ≤ len (data f')
          ∧ take (Z.to_nat (dirtyThreshold mc')) (data f')
            = take (Z.to_nat (dirtyThreshold mc')) (wrappedBytes (rps mrp))).
  { intros Hinv1.
    destruct (invoke_below_threshold mc1 c mc' r f0 eq_refl Hth Hinv1)
      as (f' & Hf' & _ & Hlen & Htake).
    exists f'. repeat split; assumption. }
  destruct c as [buf offset| |buf offset|n].
  - left. simpl in Hinv.
    destruct (ReadAt mc buf offset) as [[[[mc0 b] m] e]|] eqn:Hop;
      simpl in Hinv; [|discriminate].
    injection Hinv as <- _.
    apply ReadAt_cases in Hop
      as [(? & ? & Hf & _) | (ic & ic' & _ & Hic0 & Hread & ->)];
      [congruence|].
    rewrite Hic in Hic0. injection Hic0 as <-.
    change (rp_ReadAt mrp buf offset) with (Lease.ReadAt mrp buf offset)
      in Hread.
    apply (ReadAt_same (W:=file)) in Hread as ->;
      [|exact proxy_ReadAt_same|exact Hlease].
    simpl. repeat split. exact Hrwl.
  - left. simpl in Hinv.
    destruct (Stat mc) as [[[mc0 sr] e]|] eqn:Hop; simpl in Hinv;
      [|discriminate].
    injection Hinv as <- _.
    apply Stat_cases in Hop
      as (_ & _ & [(? & ? & Hf & _) | (? & _ & _ & _ & _ & ->)]);
      [congruence|].
    repeat split; assumption.
  - right. apply Hmod. rewrite <- Hdirty; [exact Hinv|discriminate..].
  - right. apply Hmod. rewrite <- Hdirty; [exact Hinv|discriminate..].
Qed.

(** X23.  The guarantee documented on [StatResult.DirtyThreshold], from
    the creation of the content on: for a content that starts clean over
    live in-memory proxies, after any sequence of calls that leaves it
    dirty, the bytes of its lease below the dirty threshold are those of the
    original content, the concatenation of the wrapped proxies' contents. *)
Theorem threshold_guards_original calls : ∀ mc mc' replies mrp (f' : file),
  readWriteLease mc = None → initialContent mc = Some mrp →
  lease mrp = None → scratchAvailable (leaser mrp) = true →
  Forall (λ e, proper (rp e)) (rps mrp) →
  dirtyThreshold mc ≤ len (wrappedBytes (rps mrp)) →
  run mc calls = Ok (mc', replies) →
  readWriteLease mc' = Some f' →
  dirtyThreshold mc' ≤ len (data f')
  ∧ take (Z.to_nat (dirtyThreshold mc')) (data f')
    = take (Z.to_nat (dirtyThreshold mc')) (wrappedBytes (rps mrp)).
Proof.
  assert (Hdirty : ∀ calls mc mc' replies (f f' : file) (original : list byte),
    readWriteLease mc = Some f →
    dirtyThreshold mc ≤ len (data f) →
    take (Z.to_nat (dirtyThreshold mc)) (data f)
    = take (Z.to_nat (dirtyThreshold mc)) original →
    run mc calls = Ok (mc', replies) →
    readWriteLease mc' = Some f' →
    dirtyThreshold mc' ≤ len (data f')
    ∧ take (Z.to_nat (dirtyThreshold mc')) (data f')
      = take (Z.to_nat (dirtyThreshold mc')) original).
  { clear calls.
    induction calls as [|c calls IH];
      intros mc mc' replies f f' original Hrwl Hth Htake Hrun Hrwl';
      simpl in Hrun.
    - injection Hrun as <- _. rewrite Hrwl in Hrwl'. injection Hrwl' as <-.
      split; assumption.
    - destruct (invoke mc c) as [[mc1 r]|] eqn:Hinv; simpl in Hrun;
        [|discriminate].
      destruct (run mc1 calls) as [[mc2 rs]|] eqn:Hrest; simpl in Hrun;
        [|discriminate].
      injection Hrun as <- _.
      destruct (invoke_below_threshold _ _ _ _ _ Hrwl Hth Hinv)
        as (f1 & Hrwl1 & Hle1 & Hlen1 & Htake1).
      apply (IH mc1 mc2 rs f1 f' original Hrwl1 Hlen1); [|exact Hrest|exact Hrwl'].
      rewrite Htake1.
      replace (Z.to_nat (dirtyThreshold mc1))
        with (Z.to_nat (dirtyThreshold mc1) `min` Z.to_nat (dirtyThreshold mc))%nat
        by lia.
      rewrite <- !take_take, Htake. reflexivity. }
  induction calls as [|c calls IH];
    intros mc mc' replies mrp f' Hrwl Hic Hlease Hscratch Hlive Hth Hrun Hrwl';
    simpl in Hrun.
  - injection Hrun as <- _. congruence.
  - destruct (invoke mc c) as [[mc1 r]|] eqn:Hinv; simpl in Hrun;
      [|discriminate].
    destruct (run mc1 calls) as [[mc2 rs]|] eqn:Hrest; simpl in Hrun;
      [|discriminate].
    injection Hrun as <- _.
    destruct (invoke_guards_original mc mrp c mc1 r
                Hrwl Hic Hlease Hscratch Hlive Hth Hinv)
      as [(Hrwl1 & Hic1 & Hth1) | (f1 & Hrwl1 & Hlen1 & Htake1)].
    + apply (IH mc1 mc2 rs mrp f'); try assumption. rewrite Hth1. exact Hth.
    + apply (Hdirty calls mc1 mc2 rs f1 f' _ Hrwl1 Hlen1 Htake1 Hrest Hrwl').
Qed.

End ContentOverMemory.

(** *** The theorems on contents over "taco" *)
Section ContentMoreTaco.
Import Fake FakeTheory LeaseTheory LeaseExtra.

Lemma clean_content_never_modified_witness :
  mtime goneTaco = None ∧ clock goneTaco = 100
  ∧ dirtyThreshold goneTaco = 4
  ∧ (∃ ic', initialContent goneTaco = Some ic' ∧ rp_Size ic' = 4)
  ∧ Stat goneTaco
    = Ok (goneTaco,
          {| stat_Size := 4; DirtyThreshold := 4; Mtime := None |}, None).
Proof.
  pose proof (clean_content_never_modified (W:=file) (L:=readLease)
                {| source := gone; rp_destroyed := false |} 100
                [CallWriteAt (bytes "p") 0; CallReadAt (bytes "..") 1; CallStat]
                goneTaco goneTaco
                [ReplyWriteAt 0
                   (Some (Errorf "ensureReadWriteLease: %v"
                            [argError
                               (Errorf "initialContent.Upgrade: %v"
                                  [argError (foreignError "not found")])]));
                 ReplyReadAt (bytes "..") 0 (Some (foreignError "not found"));
                 ReplyStat {| stat_Size := 4; DirtyThreshold := 4;
                              Mtime := None |} None]) as H.
  specialize (H eq_refl eq_refl eq_refl). exact H.
Defined.

Lemma dirtyThreshold_is_minimum_witness :
  ∃ mc' replies,
    run dirtyTaco [CallWriteAt (bytes "q") (-1); CallTruncate 3; CallStat]
    = Ok (mc', replies)
    ∧ dirtyThreshold mc' = -1.
Proof.
  eexists _, _. split; [vm_compute; reflexivity|].
  assert (Hdirty : is_Some (readWriteLease dirtyTaco)) by (simpl; eauto).
  assert (Htyped : Forall wellTyped
                     [CallWriteAt (bytes "q") (-1); CallTruncate 3; CallStat]).
  { apply Forall_cons_2; [vm_compute; split; discriminate|].
    apply Forall_cons_2; [vm_compute; split; discriminate|].
    apply Forall_cons_2; [exact I|]. apply Forall_nil_2. }
  refine (dirtyThreshold_is_minimum (W:=file) (L:=readLease)
            [CallWriteAt (bytes "q") (-1); CallTruncate 3; CallStat]
            dirtyTaco _ _ Hdirty Htyped _).
  reflexivity.
Defined.

Lemma observers_leave_bookkeeping_witness :
  ∃ mc' replies,
    run cleanTaco [CallReadAt (bytes "..") 1; CallStat] = Ok (mc', replies)
    ∧ dirtyThreshold mc' = 4 ∧ mtime mc' = None ∧ clock mc' = 100
    ∧ destroyed mc' = false
    ∧ is_nil (readWriteLease mc') = true
    ∧ is_nil (initialContent mc') = false.
Proof.
  eexists _, _. split; [vm_compute; reflexivity|].
  refine (observers_leave_bookkeeping (W:=file) (L:=readLease)
            [CallReadAt (bytes "..") 1; CallStat] cleanTaco _ _ _ _).
  - apply Forall_cons_2; [exact I|].
    apply Forall_cons_2; [exact I|]. apply Forall_nil_2.
  - reflexivity.
Defined.

Lemma Destroy_is_terminal_witness :
  ∃ mc',
    Destroy dirtyTaco = Ok mc'
    ∧ destroyed mc' = true ∧ initialContent mc' = None
    ∧ readWriteLease mc' = None
    ∧ dirtyThreshold mc' = 0 ∧ mtime mc' = Some 90
    ∧ CheckInvariants mc' = Panic "Use of destroyed mutableContent object." []
    ∧ (∀ c, invoke mc' c = nilDereference)
    ∧ Release mc' = Ok (mc', None)
    ∧ Destroy mc' = Ok mc'.
Proof.
  eexists. split; [vm_compute; reflexivity|].
  apply (Destroy_is_terminal (W:=file) (L:=readLease) dirtyTaco).
  reflexivity.
Defined.

Lemma failed_upgrade_fails_CheckInvariants_witness :
  ∃ mc' err,
    (∀ buf (offset : Z), WriteAt staleTaco buf offset = Ok (mc', 0, Some err))
    ∧ (∀ n : Z, Truncate staleTaco n = Ok (mc', Some err))
    ∧ readWriteLease mc' = None
    ∧ initialContent mc' = Some spentStaleMulti
    ∧ CheckInvariants mc' = Panic "Use after destroyed" [].
Proof.
  apply (failed_upgrade_fails_CheckInvariants (W:=file)
           staleTaco staleMulti spentStaleMulti (Some releasedFile)
           (Errorf "upgradeOne(%d): %v"
              [argInt 1;
               argError (Errorf "Upgrade: %v"
                           [argError (foreignError "not found")])])).
  - reflexivity.
  - reflexivity.
  - reflexivity.
  - reflexivity.
Defined.

Lemma below_threshold_unmodified_witness :
  ∃ mc' replies f',
    run wholeTaco [CallWriteAt (bytes "q") 2; CallTruncate 3]
    = Ok (mc', replies)
    ∧ readWriteLease mc' = Some f'
    ∧ dirtyThreshold mc' ≤ 4
    ∧ dirtyThreshold mc' ≤ len (data f')
    ∧ take (Z.to_nat (dirtyThreshold mc')) (data f')
      = take (Z.to_nat (dirtyThreshold mc')) (bytes "taco").
Proof.
  eexists _, _.
  assert (Hrun : run wholeTaco [CallWriteAt (bytes "q") 2; CallTruncate 3]
                 = Ok ({| clock := 100; destroyed := false;
                          initialContent := None;
                          readWriteLease :=
                            Some {| data := bytes "taq"; cursor := 4;
                                    released := false |};
                          dirtyThreshold := 2; mtime := Some 100 |},
                       [ReplyWriteAt 1 None; ReplyTruncate None]))
    by reflexivity.
  destruct (below_threshold_unmodified
              [CallWriteAt (bytes "q") 2; CallTruncate 3]
              wholeTaco _ _
              {| data := bytes "taco"; cursor := 4; released := false |}
              eq_refl ltac:(vm_compute; discriminate) Hrun)
    as (f' & H1 & H2 & H3 & H4).
  exists f'. split; [exact Hrun|]. repeat split; assumption.
Defined.

Lemma first_write_upgrades_witness :
  ∃ mc',
    WriteAt cleanTaco (bytes "p") 0 = Ok (mc', 1, None)
    ∧ initialContent mc' = None
    ∧ readWriteLease mc'
      = Some {| data := bytes "paco"; cursor := 4; released := false |}
    ∧ dirtyThreshold mc' = 0
    ∧ mtime mc' = Some 100.
Proof.
  exact (first_write_upgrades cleanTaco (tacoMulti None) (bytes "p") 0
           eq_refl eq_refl eq_refl eq_refl tacoMulti_proper).
Defined.

Lemma threshold_guards_original_witness :
  ∃ mc' replies,
    run cleanTaco
      [CallReadAt (bytes "..") 1; CallWriteAt (bytes "q") 2; CallTruncate 3]
    = Ok (mc', replies)
    ∧ readWriteLease mc'
      = Some {| data := bytes "taq"; cursor := 4; released := false |}
    ∧ dirtyThreshold mc' ≤ len (bytes "taq")
    ∧ take (Z.to_nat (dirtyThreshold mc')) (bytes "taq")
      = take (Z.to_nat (dirtyThreshold mc')) (bytes "taco").
Proof.
  eexists _, _.
  assert (Hrun : run cleanTaco
                   [CallReadAt (bytes "..") 1; CallWriteAt (bytes "q") 2;
                    CallTruncate 3]
                 = Ok ({| clock := 100; destroyed := false;
                          initialContent := None;
                          readWriteLease :=
                            Some {| data := bytes "taq"; cursor := 4;
                                    released := false |};
                          dirtyThreshold := 2; mtime := Some 100 |},
                       [ReplyReadAt (bytes "ac") 2 None; ReplyWriteAt 1 None;
                        ReplyTruncate None]))
    by reflexivity.
  split; [exact Hrun|]. split; [reflexivity|].
  assert (Hth : dirtyThreshold cleanTaco
                ≤ len (wrappedBytes (rps (tacoMulti None))))
    by (vm_compute; discriminate).
  exact (threshold_guards_original
           [CallReadAt (bytes "..") 1; CallWriteAt (bytes "q") 2;
            CallTruncate 3]
           cleanTaco _ _ (tacoMulti None)
           {| data := bytes "taq"; cursor := 4; released := false |}
           eq_refl eq_refl eq_refl eq_refl tacoMulti_proper Hth Hrun eq_refl).
Defined.

End ContentMoreTaco.

End MutableExtra.
